(** * The host manager of the streaming client

    A shallow embedding of [app/backend/computermanager.cpp]: the host record
    [NvComputer] (construction from a server's answer, serialization, merge,
    address list, wake packet) and the [ComputerManager] that owns the host
    table. Reading a record back from the settings ([NvComputer(QSettings&)])
    goes through [QVariant]'s conversions, which the settings backend
    decides: they are a parameter. [manager_of] is the manager's constructor
    given the records it read, [ComputerManager_new] the constructor itself.

    Conventions of the embedding.
    - Qt value types keep the distinctions the code tests: a [QString] or a
      [QByteArray] is null, or holds data (possibly of length zero);
      [operator==] compares the data only, so a null and an empty value are
      equal, while [isNull] tells them apart.
    - [Q_ASSERT] is a fatal check: a failed assertion ends the run with
      [AssertionFailed]. That is the build with assertions enabled, which
      the definitions of this file describe. In a build with [QT_NO_DEBUG]
      the macro expands to nothing; module [Release] gives, for that build,
      the two functions whose assertion guards their input ([update] and
      [uniqueAddresses]).
    - What the file calls but does not define (the protocol client [NvHTTP],
      name resolution and UDP sockets, [NvApp::operator==]) is a parameter.
    - The reader/writer locks and the worker threads' own activity are not
      part of the model; a worker is recorded by its handle only. *)

From stdpp Require Import gmap strings list fin_maps pretty sorting.
From Equations Require Import Equations.
From Stdlib Require Import ZArith.
From Stdlib.Strings Require Import Ascii Byte.


(** ** Outcomes: a value, or a failed [Q_ASSERT] *)

Inductive outcome (A : Type) : Type :=
| Done (a : A)
| AssertionFailed.
Arguments Done {A} a.
Arguments AssertionFailed {A}.

Definition obind {A B} (m : outcome A) (k : A → outcome B) : outcome B :=
  match m with
  | Done a => k a
  | AssertionFailed => AssertionFailed
  end.

Notation "x ←! m ;; k" := (obind m (λ x, k))
  (at level 100, m at next level, right associativity).
Notation "m ;;! k" := (obind m (λ _, k))
  (at level 100, right associativity).

(** [Q_ASSERT(cond)] in a build with assertions enabled (for the build with
    [QT_NO_DEBUG] see module [Release]). *)
Definition Q_ASSERT (cond : bool) : outcome unit :=
  if cond then Done tt else AssertionFailed.

(** ** Qt value types *)

(** [QString]: [QNull] is the null string ([QString()], or one assigned
    [nullptr]); [QStr s] holds the characters [s], possibly none. *)
Inductive QString : Type :=
| QNull
| QStr (s : string).

Definition QString_data (q : QString) : string :=
  match q with
  | QNull => ""
  | QStr s => s
  end.

Definition QString_isNull (q : QString) : bool :=
  match q with
  | QNull => true
  | QStr _ => false
  end.

Definition QString_isEmpty (q : QString) : bool :=
  bool_decide (QString_data q = "").

(** [operator==] on [QString] compares the characters. *)
Definition QString_eqb (a b : QString) : bool :=
  bool_decide (QString_data a = QString_data b).

#[global] Instance byte_eq_dec : EqDecision byte.
Proof. intros a b. destruct (Byte.eqb a b) eqn:E.
  - left. by apply Byte.byte_dec_bl.
  - right. intros ->. by rewrite Byte.byte_dec_lb in E.
Defined.

(** [QByteArray], with the same null / empty distinction. *)
Inductive QByteArray : Type :=
| QBNull
| QBytes (bs : list byte).

Definition QByteArray_data (a : QByteArray) : list byte :=
  match a with
  | QBNull => []
  | QBytes bs => bs
  end.

Definition QByteArray_isNull (a : QByteArray) : bool :=
  match a with
  | QBNull => true
  | QBytes _ => false
  end.

Definition QByteArray_count (a : QByteArray) : nat :=
  length (QByteArray_data a).

Definition QByteArray_isEmpty (a : QByteArray) : bool :=
  bool_decide (QByteArray_data a = []).

Definition QByteArray_eqb (a b : QByteArray) : bool :=
  bool_decide (QByteArray_data a = QByteArray_data b).

(** [a.append(b)]: a null receiver becomes a copy of [b]. *)
Definition QByteArray_append (a b : QByteArray) : QByteArray :=
  match a with
  | QBNull => b
  | QBytes bs => QBytes (bs ++ QByteArray_data b)
  end.

(** [a.append(c)] for one [char]: the result always holds data. *)
Definition QByteArray_append_char (a : QByteArray) (c : byte) : QByteArray :=
  QBytes (QByteArray_data a ++ [c]).

#[global] Instance QString_eq_dec : EqDecision QString.
Proof. solve_decision. Defined.

#[global] Instance QByteArray_eq_dec : EqDecision QByteArray.
Proof. solve_decision. Defined.

#[global] Instance QString_inhabited : Inhabited QString := populate QNull.

(** ** The host record *)

(** Modelled from the spec: the two enumerations are declared in
    [computermanager.h], which is not among the sources. This file names
    [PS_UNKNOWN], [PS_PAIRED], [PS_NOT_PAIRED], [CS_UNKNOWN] and [CS_ONLINE];
    the design lists the connection states Unknown, Online and Offline. *)
Inductive PairState : Type := PS_UNKNOWN | PS_PAIRED | PS_NOT_PAIRED.
Inductive ComputerState : Type := CS_UNKNOWN | CS_ONLINE | CS_OFFLINE.

#[global] Instance PairState_eq_dec : EqDecision PairState.
Proof. solve_decision. Defined.
#[global] Instance ComputerState_eq_dec : EqDecision ComputerState.
Proof. solve_decision. Defined.

(** The fields of [NvApp] and [NvComputer], with the types this file uses
    them at. *)
Record NvApp : Type := mkNvApp {
  app_name : QString;
  app_id : Z;
  app_hdrSupported : bool
}.

#[global] Instance NvApp_eq_dec : EqDecision NvApp.
Proof. solve_decision. Defined.

(** [NvApp::operator==] is declared in the header, which only this file's
    callers see; the merge is stated for any such comparison. *)
Class NvAppEq : Type := NvApp_eqb : NvApp → NvApp → bool.

(** Two comparisons a header could declare: field for field, and by id. *)
Definition NvApp_eqb_fields : NvAppEq := λ a b, bool_decide (a = b).
Definition NvApp_eqb_id : NvAppEq := λ a b, bool_decide (app_id a = app_id b).

(** [QVector<NvApp>::operator==]: same length, equal element by element. *)
Fixpoint appList_eqb `{NvAppEq} (l1 l2 : list NvApp) : bool :=
  match l1, l2 with
  | [], [] => true
  | a :: l1', b :: l2' => NvApp_eqb a b && appList_eqb l1' l2'
  | _, _ => false
  end.

Definition appList_isEmpty (l : list NvApp) : bool :=
  match l with
  | [] => true
  | _ :: _ => false
  end.

Record NvComputer : Type := mkNvComputer {
  name : QString;
  uuid : QString;
  macAddress : QByteArray;
  serverCodecModeSupport : Z;
  localAddress : QString;
  remoteAddress : QString;
  manualAddress : QString;
  pairState : PairState;
  currentGameId : Z;
  activeAddress : QString;
  state : ComputerState;
  gfeVersion : QString;
  appVersion : QString;
  appList : list NvApp
}.

#[global] Instance NvComputer_eq_dec : EqDecision NvComputer.
Proof. solve_decision. Defined.

(** Field assignments [this->field = v]. *)
Definition set_name (v : QString) (h : NvComputer) : NvComputer :=
  mkNvComputer v (uuid h) (macAddress h) (serverCodecModeSupport h)
    (localAddress h) (remoteAddress h) (manualAddress h) (pairState h)
    (currentGameId h) (activeAddress h) (state h) (gfeVersion h)
    (appVersion h) (appList h).
Definition set_macAddress (v : QByteArray) (h : NvComputer) : NvComputer :=
  mkNvComputer (name h) (uuid h) v (serverCodecModeSupport h)
    (localAddress h) (remoteAddress h) (manualAddress h) (pairState h)
    (currentGameId h) (activeAddress h) (state h) (gfeVersion h)
    (appVersion h) (appList h).
Definition set_serverCodecModeSupport (v : Z) (h : NvComputer) : NvComputer :=
  mkNvComputer (name h) (uuid h) (macAddress h) v
    (localAddress h) (remoteAddress h) (manualAddress h) (pairState h)
    (currentGameId h) (activeAddress h) (state h) (gfeVersion h)
    (appVersion h) (appList h).
Definition set_localAddress (v : QString) (h : NvComputer) : NvComputer :=
  mkNvComputer (name h) (uuid h) (macAddress h) (serverCodecModeSupport h)
    v (remoteAddress h) (manualAddress h) (pairState h)
    (currentGameId h) (activeAddress h) (state h) (gfeVersion h)
    (appVersion h) (appList h).
Definition set_remoteAddress (v : QString) (h : NvComputer) : NvComputer :=
  mkNvComputer (name h) (uuid h) (macAddress h) (serverCodecModeSupport h)
    (localAddress h) v (manualAddress h) (pairState h)
    (currentGameId h) (activeAddress h) (state h) (gfeVersion h)
    (appVersion h) (appList h).
Definition set_manualAddress (v : QString) (h : NvComputer) : NvComputer :=
  mkNvComputer (name h) (uuid h) (macAddress h) (serverCodecModeSupport h)
    (localAddress h) (remoteAddress h) v (pairState h)
    (currentGameId h) (activeAddress h) (state h) (gfeVersion h)
    (appVersion h) (appList h).
Definition set_pairState (v : PairState) (h : NvComputer) : NvComputer :=
  mkNvComputer (name h) (uuid h) (macAddress h) (serverCodecModeSupport h)
    (localAddress h) (remoteAddress h) (manualAddress h) v
    (currentGameId h) (activeAddress h) (state h) (gfeVersion h)
    (appVersion h) (appList h).
Definition set_currentGameId (v : Z) (h : NvComputer) : NvComputer :=
  mkNvComputer (name h) (uuid h) (macAddress h) (serverCodecModeSupport h)
    (localAddress h) (remoteAddress h) (manualAddress h) (pairState h)
    v (activeAddress h) (state h) (gfeVersion h)
    (appVersion h) (appList h).
Definition set_activeAddress (v : QString) (h : NvComputer) : NvComputer :=
  mkNvComputer (name h) (uuid h) (macAddress h) (serverCodecModeSupport h)
    (localAddress h) (remoteAddress h) (manualAddress h) (pairState h)
    (currentGameId h) v (state h) (gfeVersion h)
    (appVersion h) (appList h).
Definition set_state (v : ComputerState) (h : NvComputer) : NvComputer :=
  mkNvComputer (name h) (uuid h) (macAddress h) (serverCodecModeSupport h)
    (localAddress h) (remoteAddress h) (manualAddress h) (pairState h)
    (currentGameId h) (activeAddress h) v (gfeVersion h)
    (appVersion h) (appList h).
Definition set_gfeVersion (v : QString) (h : NvComputer) : NvComputer :=
  mkNvComputer (name h) (uuid h) (macAddress h) (serverCodecModeSupport h)
    (localAddress h) (remoteAddress h) (manualAddress h) (pairState h)
    (currentGameId h) (activeAddress h) (state h) v
    (appVersion h) (appList h).
Definition set_appVersion (v : QString) (h : NvComputer) : NvComputer :=
  mkNvComputer (name h) (uuid h) (macAddress h) (serverCodecModeSupport h)
    (localAddress h) (remoteAddress h) (manualAddress h) (pairState h)
    (currentGameId h) (activeAddress h) (state h) (gfeVersion h)
    v (appList h).
Definition set_appList (v : list NvApp) (h : NvComputer) : NvComputer :=
  mkNvComputer (name h) (uuid h) (macAddress h) (serverCodecModeSupport h)
    (localAddress h) (remoteAddress h) (manualAddress h) (pairState h)
    (currentGameId h) (activeAddress h) (state h) (gfeVersion h)
    (appVersion h) v.

(** ** The merge: [NvComputer::update] *)

(** The two macros of [update], over the running pair (changed, this). The
    macro argument [field] is a getter with its assignment; [ne] is the
    field type's [operator!=]. *)
Definition ASSIGN_IF_CHANGED {A : Type} (ne : A → A → bool)
    (get : NvComputer → A) (set : A → NvComputer → NvComputer)
    (that : NvComputer) (st : bool * NvComputer) : bool * NvComputer :=
  if ne (get st.2) (get that)
  then (true, set (get that) st.2)
  else st.

Definition ASSIGN_IF_CHANGED_AND_NONEMPTY {A : Type} (isEmpty : A → bool)
    (ne : A → A → bool)
    (get : NvComputer → A) (set : A → NvComputer → NvComputer)
    (that : NvComputer) (st : bool * NvComputer) : bool * NvComputer :=
  if negb (isEmpty (get that)) && ne (get st.2) (get that)
  then (true, set (get that) st.2)
  else st.

Definition QString_neb (a b : QString) : bool := negb (QString_eqb a b).
Definition QByteArray_neb (a b : QByteArray) : bool := negb (QByteArray_eqb a b).
Definition Z_neb (a b : Z) : bool := negb (bool_decide (a = b)).
Definition PairState_neb (a b : PairState) : bool := negb (bool_decide (a = b)).
Definition ComputerState_neb (a b : ComputerState) : bool :=
  negb (bool_decide (a = b)).
Definition appList_neb `{NvAppEq} (a b : list NvApp) : bool :=
  negb (appList_eqb a b).

(** [this->update(that)]: the assertion on the uuid, then the thirteen macro
    lines in the order of the source; the result is the flag [changed]
    together with [this] after the assignments. *)
Definition update `{NvAppEq} (this that : NvComputer) : outcome (bool * NvComputer) :=
  Q_ASSERT (QString_eqb (uuid this) (uuid that)) ;;!
  let st := (false, this) in
  let st := ASSIGN_IF_CHANGED QString_neb name set_name that st in
  let st := ASSIGN_IF_CHANGED_AND_NONEMPTY QByteArray_isEmpty QByteArray_neb
              macAddress set_macAddress that st in
  let st := ASSIGN_IF_CHANGED_AND_NONEMPTY QString_isEmpty QString_neb
              localAddress set_localAddress that st in
  let st := ASSIGN_IF_CHANGED_AND_NONEMPTY QString_isEmpty QString_neb
              remoteAddress set_remoteAddress that st in
  let st := ASSIGN_IF_CHANGED_AND_NONEMPTY QString_isEmpty QString_neb
              manualAddress set_manualAddress that st in
  let st := ASSIGN_IF_CHANGED PairState_neb pairState set_pairState that st in
  let st := ASSIGN_IF_CHANGED Z_neb serverCodecModeSupport
              set_serverCodecModeSupport that st in
  let st := ASSIGN_IF_CHANGED Z_neb currentGameId set_currentGameId that st in
  let st := ASSIGN_IF_CHANGED QString_neb activeAddress set_activeAddress that st in
  let st := ASSIGN_IF_CHANGED ComputerState_neb state set_state that st in
  let st := ASSIGN_IF_CHANGED QString_neb gfeVersion set_gfeVersion that st in
  let st := ASSIGN_IF_CHANGED QString_neb appVersion set_appVersion that st in
  let st := ASSIGN_IF_CHANGED_AND_NONEMPTY appList_isEmpty appList_neb
              appList set_appList that st in
  Done st.

(** ** The address list: [NvComputer::uniqueAddresses] *)

(** The inner loop [for (j = ...; j < count; j++)], entered with [j = i + 1]:
    an entry equal to entry [i] is removed and the same index is examined
    again ([remove(j); j--] before the loop's [j++]). *)
Equations? pruneLater (v : list QString) (i j : nat) : list QString
  by wf (length v - j) lt :=
  pruneLater v i j with decide (j < length v) => {
    | right _ := v
    | left _ with QString_eqb (v !!! i) (v !!! j) => {
      | true := pruneLater (delete j v) i j
      | false := pruneLater v i (S j) } }.
Proof.
  - rewrite length_delete; [lia | by apply lookup_lt_is_Some].
  - lia.
Qed.

Lemma pruneLater_length v i j : length (pruneLater v i j) ≤ length v.
Proof.
  funelim (pruneLater v i j); try rewrite <- Heqcall; [done | | done].
  etrans; [eassumption |].
  rewrite length_delete; [lia | by apply lookup_lt_is_Some].
Qed.

(** The outer loop [for (i = 0; i < count; i++)]: an empty or null entry is
    removed and index [i] is examined again ([remove(i); i--; continue]);
    otherwise the later entries equal to it are pruned and [i] advances. *)
Equations? pruneDuplicates (v : list QString) (i : nat) : list QString
  by wf (length v - i) lt :=
  pruneDuplicates v i with decide (i < length v) => {
    | right _ := v
    | left _ with QString_isEmpty (v !!! i) || QString_isNull (v !!! i) => {
      | true := pruneDuplicates (delete i v) i
      | false := pruneDuplicates (pruneLater v i (S i)) (S i) } }.
Proof.
  - rewrite length_delete; [lia | by apply lookup_lt_is_Some].
  - pose proof (pruneLater_length v i (S i)). lia.
Qed.

Definition uniqueAddresses (h : NvComputer) : outcome (list QString) :=
  let uniqueAddressList :=
    [activeAddress h; localAddress h; remoteAddress h; manualAddress h] in
  let uniqueAddressList := pruneDuplicates uniqueAddressList 0 in
  Q_ASSERT (negb (bool_decide (length uniqueAddressList = 0%nat))) ;;!
  Done uniqueAddressList.

(** ** The wake packet: [NvComputer::wake] *)

(** Name resolution and UDP, as the code sees them. *)
Inductive NetworkLayerProtocol : Type :=
| IPv4Protocol
| IPv6Protocol
| AnyIPProtocol
| UnknownNetworkLayerProtocol.

Inductive SpecialAddress : Type := AnyIPv4 | AnyIPv6.

Record QHostAddress : Type := mkQHostAddress {
  protocol : NetworkLayerProtocol;
  toString : string
}.

#[global] Instance NetworkLayerProtocol_eq_dec : EqDecision NetworkLayerProtocol.
Proof. solve_decision. Defined.
#[global] Instance SpecialAddress_eq_dec : EqDecision SpecialAddress.
Proof. solve_decision. Defined.
#[global] Instance QHostAddress_eq_dec : EqDecision QHostAddress.
Proof. solve_decision. Defined.

(** What [wake] does on the network, in the order it happens. [DatagramWritten]
    records the value [QUdpSocket::writeDatagram] returned: the number of
    bytes sent, or -1 when the datagram could not be sent. *)
Inductive NetEvent : Type :=
| NameResolved (host : QString) (addresses : list QHostAddress)
| SocketBound (local : SpecialAddress) (ok : bool)
| DatagramWritten (payload : QByteArray) (dest : QHostAddress) (port : Z) (ret : Z).

#[global] Instance NetEvent_eq_dec : EqDecision NetEvent.
Proof. solve_decision. Defined.

(** The network answers each call; the answer may depend on everything that
    happened before (the first argument). *)
Record Network : Type := mkNetwork {
  fromName : list NetEvent → QString → list QHostAddress;
  bind : list NetEvent → SpecialAddress → bool;
  writeDatagram : list NetEvent → QByteArray → QHostAddress → Z → Z
}.

(** A datagram went out when [writeDatagram] did not return -1. *)
Definition transmitted (ev : NetEvent) : Prop :=
  match ev with
  | DatagramWritten _ _ _ ret => ret ≠ (-1)%Z
  | _ => False
  end.

Definition isDatagram (ev : NetEvent) : Prop :=
  match ev with
  | DatagramWritten _ _ _ _ => True
  | _ => False
  end.

#[global] Instance transmitted_dec ev : Decision (transmitted ev).
Proof. destruct ev; simpl; apply _. Defined.
#[global] Instance isDatagram_dec ev : Decision (isDatagram ev).
Proof. destruct ev; simpl; apply _. Defined.

Definition WOL_PORTS : list Z := [7; 9; 47998; 47999; 48000]%Z.

(** [QByteArray::fromHex]: the digits are read from the end, two to a byte;
    other characters are skipped. *)
Definition fromHexDigit (c : ascii) : option N :=
  let n := N_of_ascii c in
  if bool_decide (48 ≤ n ≤ 57)%N then Some (n - 48)%N
  else if bool_decide (65 ≤ n ≤ 70)%N then Some (n - 55)%N
  else if bool_decide (97 ≤ n ≤ 102)%N then Some (n - 87)%N
  else None.

Definition byte_of_N (n : N) : byte :=
  default Byte.x00 (Byte.of_N (n mod 256)%N).

Fixpoint fromHex_back (rev_chars : list ascii) (low : option N)
    (acc : list byte) : list byte :=
  match rev_chars with
  | [] => match low with
          | Some lo => byte_of_N lo :: acc
          | None => acc
          end
  | c :: rest =>
      match fromHexDigit c with
      | None => fromHex_back rest low acc
      | Some d =>
          match low with
          | None => fromHex_back rest (Some d) acc
          | Some lo => fromHex_back rest None (byte_of_N (16 * d + lo) :: acc)
          end
      end
  end.

Definition fromHex (hexEncoded : string) : QByteArray :=
  QBytes (fromHex_back (reverse (String.list_ascii_of_string hexEncoded)) None []).

(** The payload: the six bytes of the header, then sixteen times
    [wolPayload.append(macAddress)]. *)
Definition wolPayload (macAddress : QByteArray) : QByteArray :=
  Nat.iter 16 (λ p, QByteArray_append p macAddress)
    (QByteArray_append QBNull (fromHex "FFFFFFFFFFFF")).

(** The conversion of [writeDatagram]'s [qint64] in the [if]. *)
Definition qint64_to_bool (z : Z) : bool := negb (bool_decide (z = 0%Z)).

(** [for (quint16 port : WOL_PORTS)] on one bound socket. *)
Definition wake_ports (net : Network) (payload : QByteArray)
    (address : QHostAddress) (ports : list Z)
    (st : bool * list NetEvent) : bool * list NetEvent :=
  foldl (λ '(success, tr) port,
           let ret := writeDatagram net tr payload address port in
           let tr := tr ++ [DatagramWritten payload address port ret] in
           if qint64_to_bool ret then (true, tr) else (success, tr))
        st ports.

(** [for (QHostAddress& address : hostInfo.addresses())]: a fresh socket,
    bound to the wildcard address of the destination's protocol. *)
Definition wake_addresses (net : Network) (payload : QByteArray)
    (addresses : list QHostAddress)
    (st : bool * list NetEvent) : bool * list NetEvent :=
  foldl (λ '(success, tr) address,
           let local := if bool_decide (protocol address = IPv4Protocol)
                        then AnyIPv4 else AnyIPv6 in
           let ok := bind net tr local in
           let tr := tr ++ [SocketBound local ok] in
           if ok then wake_ports net payload address WOL_PORTS (success, tr)
           else (success, tr))
        st addresses.

(** [for (QString& addressString : addressList)]. *)
Definition wake_names (net : Network) (payload : QByteArray)
    (addressList : list QString)
    (st : bool * list NetEvent) : bool * list NetEvent :=
  foldl (λ '(success, tr) addressString,
           let addresses := fromName net tr addressString in
           let tr := tr ++ [NameResolved addressString addresses] in
           wake_addresses net payload addresses (success, tr))
        st addressList.

(** [wake] returns its flag together with the network activity it caused. *)
Definition wake (net : Network) (h : NvComputer) : outcome (bool * list NetEvent) :=
  if bool_decide (state h = CS_ONLINE) then Done (true, [])
  else if QByteArray_isNull (macAddress h) then Done (false, [])
  else
    let payload := wolPayload (macAddress h) in
    Q_ASSERT (bool_decide (QByteArray_count payload = 102%nat)) ;;!
    addressList ←! uniqueAddresses h ;;
    let addressList := addressList ++ [QStr "255.255.255.255"] in
    Done (wake_names net payload addressList (false, [])).

(** ** A host record from a server's answer: [NvComputer(address, serverInfo)] *)

(** The protocol client. [getServerInfo] is [None] when the call throws. *)
Record NvHTTP : Type := mkNvHTTP {
  getServerInfo : QString → option QString;
  getXmlString : QString → string → QString;
  getCurrentGame : QString → Z
}.

(** [QString::toInt(nullptr, base)], by base. *)
Class QStringToInt : Type := QString_toInt : QString → Z → Z.

(** [QString::split(sep)], keeping empty parts. *)
Fixpoint split_at (sep : ascii) (s : string) : list string :=
  match s with
  | EmptyString => [EmptyString]
  | String c s' =>
      if bool_decide (c = sep) then EmptyString :: split_at sep s'
      else match split_at sep s' with
           | [] => [String c EmptyString]
           | w :: ws => String c w :: ws
           end
  end.

Definition QString_split (sep : ascii) (q : QString) : list QString :=
  QStr <$> split_at sep (QString_data q).

(** The cast [(char) n] of an [int]. *)
Definition char_of_int (n : Z) : byte := byte_of_N (Z.to_N (n mod 256)).

Definition NvComputer_fromServerInfo `{QStringToInt} (http : NvHTTP)
    (address serverInfo : QString) : NvComputer :=
  let name := getXmlString http serverInfo "hostname" in
  let name := if QString_isNull name then QStr "UNKNOWN" else name in
  let uuid := getXmlString http serverInfo "uniqueid" in
  let newMacString := getXmlString http serverInfo "mac" in
  let macAddress :=
    if QString_neb newMacString (QStr "00:00:00:00:00:00") then
      foldl (λ mac macOctet,
               QByteArray_append_char mac (char_of_int (QString_toInt macOctet 16)))
            QBNull (QString_split ":"%char newMacString)
    else QBNull in
  let codecSupport := getXmlString http serverInfo "ServerCodecModeSupport" in
  let serverCodecModeSupport :=
    if negb (QString_isNull codecSupport) then QString_toInt codecSupport 10
    else 0%Z in
  {| name := name;
     uuid := uuid;
     macAddress := macAddress;
     serverCodecModeSupport := serverCodecModeSupport;
     localAddress := getXmlString http serverInfo "LocalIP";
     remoteAddress := getXmlString http serverInfo "ExternalIP";
     manualAddress := QNull;
     pairState := if QString_eqb (getXmlString http serverInfo "PairStatus") (QStr "1")
                  then PS_PAIRED else PS_NOT_PAIRED;
     currentGameId := getCurrentGame http serverInfo;
     activeAddress := address;
     state := CS_ONLINE;
     gfeVersion := getXmlString http serverInfo "GfeVersion";
     appVersion := getXmlString http serverInfo "appversion";
     appList := [] |}.

(** ** The persistent store: [QSettings] *)

Inductive QVariant : Type :=
| VString (s : QString)
| VBytes (b : QByteArray)
| VInt (n : Z)
| VBool (b : bool).

#[global] Instance QVariant_eq_dec : EqDecision QVariant.
Proof. solve_decision. Defined.

(** An array group opened by [beginWriteArray]: its name, the current index
    plus one ([0] before the first [setArrayIndex]) and the largest one so
    far, from which [endArray] writes the size. *)
Record QSettingsGroup : Type := mkQSettingsGroup {
  grp_str : string;
  grp_num : nat;
  grp_maxNum : nat
}.

(** A key is the list of its [/]-separated parts. [storage] is what the
    application has saved; [groupStack] (innermost first) belongs to one
    [QSettings] object. *)
Record QSettings : Type := mkQSettings {
  storage : gmap (list string) QVariant;
  groupStack : list QSettingsGroup
}.

Definition group_toString (g : QSettingsGroup) : list string :=
  grp_str g :: (if bool_decide (0 < grp_num g) then [pretty (grp_num g)] else []).

Definition groupPrefix (s : QSettings) : list string :=
  mjoin (group_toString <$> reverse (groupStack s)).

Definition actualKey (s : QSettings) (key : string) : list string :=
  groupPrefix s ++ [key].

Definition setValue (key : string) (v : QVariant) (s : QSettings) : QSettings :=
  {| storage := <[actualKey s key := v]> (storage s);
     groupStack := groupStack s |}.

(** [remove(key)]: the setting [key] and every sub-setting of it. *)
Definition remove (key : string) (s : QSettings) : QSettings :=
  {| storage := filter (λ kv, ¬ (actualKey s key `prefix_of` kv.1)) (storage s);
     groupStack := groupStack s |}.

(** [beginWriteArray(prefix)], without a size: the size is guessed from the
    indexes used and written by [endArray]. *)
Definition beginWriteArray (prefix : string) (s : QSettings) : QSettings :=
  remove "size"
    {| storage := storage s;
       groupStack := mkQSettingsGroup prefix 0 0 :: groupStack s |}.

Definition setArrayIndex (i : nat) (s : QSettings) : QSettings :=
  match groupStack s with
  | [] => s
  | g :: gs =>
      {| storage := storage s;
         groupStack :=
           mkQSettingsGroup (grp_str g) (S i) (grp_maxNum g `max` S i) :: gs |}
  end.

Definition endArray (s : QSettings) : QSettings :=
  match groupStack s with
  | [] => s
  | g :: gs =>
      let s' := {| storage := storage s; groupStack := gs |} in
      {| storage := <[groupPrefix s' ++ [grp_str g; "size"]
                      := VInt (Z.of_nat (grp_maxNum g))]> (storage s');
         groupStack := gs |}
  end.

Definition SER_HOSTS : string := "hosts".
Definition SER_NAME : string := "hostname".
Definition SER_UUID : string := "uuid".
Definition SER_MAC : string := "mac".
Definition SER_CODECSUPP : string := "codecsupport".
Definition SER_LOCALADDR : string := "localaddress".
Definition SER_REMOTEADDR : string := "remoteaddress".
Definition SER_MANUALADDR : string := "manualaddress".
Definition SER_APPLIST : string := "apps".
Definition SER_APPNAME : string := "name".
Definition SER_APPID : string := "id".
Definition SER_APPHDR : string := "hdr".

(** ** [NvComputer::serialize] *)

Definition serialize_app (s : QSettings) (ia : nat * NvApp) : QSettings :=
  let s := setArrayIndex ia.1 s in
  let s := setValue SER_APPNAME (VString (app_name ia.2)) s in
  let s := setValue SER_APPID (VInt (app_id ia.2)) s in
  setValue SER_APPHDR (VBool (app_hdrSupported ia.2)) s.

Definition serialize (h : NvComputer) (settings : QSettings) : QSettings :=
  let settings := setValue SER_NAME (VString (name h)) settings in
  let settings := setValue SER_UUID (VString (uuid h)) settings in
  let settings := setValue SER_MAC (VBytes (macAddress h)) settings in
  let settings := setValue SER_CODECSUPP (VInt (serverCodecModeSupport h)) settings in
  let settings := setValue SER_LOCALADDR (VString (localAddress h)) settings in
  let settings := setValue SER_REMOTEADDR (VString (remoteAddress h)) settings in
  let settings := setValue SER_MANUALADDR (VString (manualAddress h)) settings in
  if negb (appList_isEmpty (appList h)) then
    let settings := remove SER_APPLIST settings in
    let settings := beginWriteArray SER_APPLIST settings in
    let settings := foldl serialize_app settings (imap pair (appList h)) in
    endArray settings
  else settings.

(** ** The manager: [ComputerManager] *)

Inductive ThreadStatus : Type := NotStarted | Running | Finished.

#[global] Instance ThreadStatus_eq_dec : EqDecision ThreadStatus.
Proof. solve_decision. Defined.

(** A worker's handle: the host it polls, and what [QThread] reports. *)
Record PcMonitorThread : Type := mkPcMonitorThread {
  thr_computer : QString;
  thr_status : ThreadStatus;
  thr_interruptionRequested : bool;
  thr_deleteWhenFinished : bool
}.

Definition isRunning (t : PcMonitorThread) : bool :=
  bool_decide (thr_status t = Running).
Definition isFinished (t : PcMonitorThread) : bool :=
  bool_decide (thr_status t = Finished).

(** [wait()] returns once a running worker has ended. *)
Definition wait (t : PcMonitorThread) : PcMonitorThread :=
  {| thr_computer := thr_computer t;
     thr_status := match thr_status t with Running => Finished | s => s end;
     thr_interruptionRequested := thr_interruptionRequested t;
     thr_deleteWhenFinished := thr_deleteWhenFinished t |}.

Definition requestInterruption (t : PcMonitorThread) : PcMonitorThread :=
  {| thr_computer := thr_computer t;
     thr_status := thr_status t;
     thr_interruptionRequested := true;
     thr_deleteWhenFinished := thr_deleteWhenFinished t |}.

(** A discovered service whose address is not resolved yet; [pending_id]
    stands for the object's identity. *)
Record MdnsPendingComputer : Type := mkMdnsPendingComputer {
  pending_id : nat;
  pending_hostname : QString
}.

#[global] Instance MdnsPendingComputer_eq_dec : EqDecision MdnsPendingComputer.
Proof. solve_decision. Defined.

(** The manager's members, and what it does to the world outside: [saved]
    is the application's settings storage, [notified] lists the hosts (by
    uuid) of the [computerStateChanged] signals emitted so far, [detached]
    the workers [stopPollingAsync] interrupted and left to end on their own. *)
Record ComputerManager : Type := mkComputerManager {
  m_Polling : bool;
  m_MdnsBrowser : option string;
  m_KnownHosts : gmap string NvComputer;
  m_PollThreads : gmap string PcMonitorThread;
  m_PendingResolution : list MdnsPendingComputer;
  saved : gmap (list string) QVariant;
  notified : list QString;
  detached : list PcMonitorThread
}.

(** [QMap] orders its keys; a null and an empty [QString] are the same key. *)
Definition QMap_key (q : QString) : string := QString_data q.

Definition QMap_key_le (a b : string) : Prop := String.leb a b = true.

#[global] Instance QMap_key_le_dec : RelDecision QMap_key_le.
Proof. intros a b. unfold QMap_key_le. apply _. Defined.

Definition QMap_keys {A} (m : gmap string A) : list string :=
  merge_sort QMap_key_le (map_to_list m).*1.

Definition QMap_values {A} (m : gmap string A) : list A :=
  omap (λ k, m !! k) (QMap_keys m).

(** The manager as its constructor leaves it, given the host records read
    from the settings, in the order of the saved array: each is filed under
    its uuid ([m_KnownHosts[computer->uuid] = computer], a later record
    replacing an earlier one of the same uuid), polling is off and there is
    no browser. *)
Definition manager_of (hosts : list NvComputer)
    (saved : gmap (list string) QVariant) : ComputerManager :=
  {| m_Polling := false;
     m_MdnsBrowser := None;
     m_KnownHosts :=
       foldl (λ known computer, <[QMap_key (uuid computer) := computer]> known)
             ∅ hosts;
     m_PollThreads := ∅;
     m_PendingResolution := [];
     saved := saved;
     notified := [];
     detached := [] |}.

Fixpoint foldlM {A B} (f : A → B → outcome A) (a : A) (l : list B) : outcome A :=
  match l with
  | [] => Done a
  | b :: l' => a' ←! f a b ;; foldlM f a' l'
  end.

(** [ComputerManager::saveHosts]: host [i] of the table, in key order, is
    written under [hosts/<i+1>/]. *)
Definition saveHosts_host (hosts : gmap string NvComputer)
    (settings : QSettings) (ik : nat * string) : QSettings :=
  let settings := setArrayIndex ik.1 settings in
  match hosts !! ik.2 with
  | Some computer => serialize computer settings
  | None => settings
  end.

Definition saveHosts (m : ComputerManager) : ComputerManager :=
  let settings := {| storage := saved m; groupStack := [] |} in
  let settings := remove SER_HOSTS settings in
  let settings := beginWriteArray SER_HOSTS settings in
  let settings := foldl (saveHosts_host (m_KnownHosts m)) settings
                    (imap pair (QMap_keys (m_KnownHosts m))) in
  let settings := endArray settings in
  {| m_Polling := m_Polling m;
     m_MdnsBrowser := m_MdnsBrowser m;
     m_KnownHosts := m_KnownHosts m;
     m_PollThreads := m_PollThreads m;
     m_PendingResolution := m_PendingResolution m;
     saved := storage settings;
     notified := notified m;
     detached := detached m |}.

(** [ComputerManager::handleComputerStateChanged]. *)
Definition handleComputerStateChanged (computer : NvComputer)
    (m : ComputerManager) : ComputerManager :=
  saveHosts
    {| m_Polling := m_Polling m;
       m_MdnsBrowser := m_MdnsBrowser m;
       m_KnownHosts := m_KnownHosts m;
       m_PollThreads := m_PollThreads m;
       m_PendingResolution := m_PendingResolution m;
       saved := saved m;
       notified := notified m ++ [uuid computer];
       detached := detached m |}.

(** [ComputerManager::startPollingComputer]. *)
Definition startPollingComputer (computer : NvComputer)
    (m : ComputerManager) : outcome ComputerManager :=
  if negb (m_Polling m) then Done m
  else
    match m_PollThreads m !! QMap_key (uuid computer) with
    | Some thread => Q_ASSERT (isRunning thread) ;;! Done m
    | None =>
        let thread := mkPcMonitorThread (uuid computer) Running false false in
        Done {| m_Polling := m_Polling m;
                m_MdnsBrowser := m_MdnsBrowser m;
                m_KnownHosts := m_KnownHosts m;
                m_PollThreads := <[QMap_key (uuid computer) := thread]> (m_PollThreads m);
                m_PendingResolution := m_PendingResolution m;
                saved := saved m;
                notified := notified m;
                detached := detached m |}
    end.

(** [ComputerManager::startPolling]. *)
Definition startPolling (m : ComputerManager) : outcome ComputerManager :=
  if m_Polling m then Done m
  else
    let m :=
      {| m_Polling := true;
         m_MdnsBrowser := Some "_nvstream._tcp.local.";
         m_KnownHosts := m_KnownHosts m;
         m_PollThreads := m_PollThreads m;
         m_PendingResolution := m_PendingResolution m;
         saved := saved m;
         notified := notified m;
         detached := detached m |} in
    foldlM (λ m computer, startPollingComputer computer m) m
      (QMap_values (m_KnownHosts m)).

(** The browser's [serviceAdded] handler installed by [startPolling]. *)
Definition serviceAdded (pendingComputer : MdnsPendingComputer)
    (m : ComputerManager) : ComputerManager :=
  {| m_Polling := m_Polling m;
     m_MdnsBrowser := m_MdnsBrowser m;
     m_KnownHosts := m_KnownHosts m;
     m_PollThreads := m_PollThreads m;
     m_PendingResolution := m_PendingResolution m ++ [pendingComputer];
     saved := saved m;
     notified := notified m;
     detached := detached m |}.

(** [ComputerManager::getComputers]. *)
Definition getComputers (m : ComputerManager) : list NvComputer :=
  QMap_values (m_KnownHosts m).

(** [ComputerManager::deleteHost]. *)
Definition deleteHost (computer : NvComputer)
    (m : ComputerManager) : outcome ComputerManager :=
  match m_PollThreads m !! QMap_key (uuid computer) with
  | Some pollingThread =>
      let pollingThread := wait (requestInterruption pollingThread) in
      Q_ASSERT (isFinished pollingThread)
  | None => Done tt
  end ;;!
  Done {| m_Polling := m_Polling m;
          m_MdnsBrowser := m_MdnsBrowser m;
          m_KnownHosts := delete (QMap_key (uuid computer)) (m_KnownHosts m);
          m_PollThreads := delete (QMap_key (uuid computer)) (m_PollThreads m);
          m_PendingResolution := m_PendingResolution m;
          saved := saved m;
          notified := notified m;
          detached := detached m |}.

(** [ComputerManager::stopPollingAsync]. *)
Definition stopPollingAsync (m : ComputerManager) : ComputerManager :=
  if negb (m_Polling m) then m
  else
    {| m_Polling := false;
       m_MdnsBrowser := None;
       m_KnownHosts := m_KnownHosts m;
       m_PollThreads := ∅;
       m_PendingResolution := [];
       saved := saved m;
       notified := notified m;
       detached :=
         detached m ++
         ((λ t, {| thr_computer := thr_computer t;
                   thr_status := thr_status t;
                   thr_interruptionRequested := true;
                   thr_deleteWhenFinished := true |})
            <$> QMap_values (m_PollThreads m)) |}.

(** [ComputerManager::addNewHost]. *)
Definition addNewHost `{NvAppEq} `{QStringToInt} (http : NvHTTP)
    (address : QString) (mdns : bool)
    (m : ComputerManager) : outcome (bool * ComputerManager) :=
  match getServerInfo http address with
  | None => Done (false, m)
  | Some serverInfo =>
      let newComputer := NvComputer_fromServerInfo http address serverInfo in
      let newComputer :=
        if mdns then set_localAddress address newComputer
        else set_manualAddress address newComputer in
      match m_KnownHosts m !! QMap_key (uuid newComputer) with
      | Some existingComputer =>
          r ←! update existingComputer newComputer ;;
          let m :=
            {| m_Polling := m_Polling m;
               m_MdnsBrowser := m_MdnsBrowser m;
               m_KnownHosts := <[QMap_key (uuid newComputer) := r.2]> (m_KnownHosts m);
               m_PollThreads := m_PollThreads m;
               m_PendingResolution := m_PendingResolution m;
               saved := saved m;
               notified := notified m;
               detached := detached m |} in
          let m := if r.1 then handleComputerStateChanged r.2 m else m in
          Done (true, m)
      | None =>
          let m :=
            {| m_Polling := m_Polling m;
               m_MdnsBrowser := m_MdnsBrowser m;
               m_KnownHosts := <[QMap_key (uuid newComputer) := newComputer]> (m_KnownHosts m);
               m_PollThreads := m_PollThreads m;
               m_PendingResolution := m_PendingResolution m;
               saved := saved m;
               notified := notified m;
               detached := detached m |} in
          m ←! startPollingComputer newComputer m ;;
          Done (true, handleComputerStateChanged newComputer m)
      end
  end.

(** [ComputerManager::handleMdnsServiceResolved]: the result of [addNewHost]
    is not looked at; [removeOne] drops the first occurrence. *)
Fixpoint removeOne (x : MdnsPendingComputer) (l : list MdnsPendingComputer)
    : list MdnsPendingComputer :=
  match l with
  | [] => []
  | y :: l' => if bool_decide (x = y) then l' else y :: removeOne x l'
  end.

Definition handleMdnsServiceResolved `{NvAppEq} `{QStringToInt} (http : NvHTTP)
    (computer : MdnsPendingComputer) (address : QHostAddress)
    (m : ComputerManager) : outcome ComputerManager :=
  r ←! addNewHost http (QStr (toString address)) true m ;;
  let m := r.2 in
  Done {| m_Polling := m_Polling m;
          m_MdnsBrowser := m_MdnsBrowser m;
          m_KnownHosts := m_KnownHosts m;
          m_PollThreads := m_PollThreads m;
          m_PendingResolution := removeOne computer (m_PendingResolution m);
          saved := saved m;
          notified := notified m;
          detached := detached m |}.


(** ** Reading the settings back: [NvComputer(QSettings&)] and the manager's
    constructor *)

(** [settings.value(key)] followed by a conversion, [None] standing for a
    key that is not there. What a conversion returns for a value written by
    [setValue] is the backend's business (a file, the registry, a property
    list): whether a null string comes back null, for one. The class leaves
    it open; the properties proved of the reading side assume only that the
    data written is the data read. *)
Class QVariantRead : Type := mkQVariantRead {
  QVariant_toString : option QVariant → QString;
  QVariant_toByteArray : option QVariant → QByteArray;
  QVariant_toInt : option QVariant → Z;
  QVariant_toBool : option QVariant → bool
}.

Definition value (key : string) (s : QSettings) : option QVariant :=
  storage s !! actualKey s key.

(** [beginReadArray(prefix)]: the group is opened and the saved size is
    returned. *)
Definition beginReadArray `{QVariantRead} (prefix : string) (s : QSettings)
    : Z * QSettings :=
  let s := {| storage := storage s;
              groupStack := mkQSettingsGroup prefix 0 0 :: groupStack s |} in
  (QVariant_toInt (value "size" s), s).

(** [endArray] for a group opened by [beginReadArray]: the group is closed
    and nothing is written. *)
Definition endArray_read (s : QSettings) : QSettings :=
  {| storage := storage s; groupStack := tail (groupStack s) |}.

(** One round of the loop over the saved apps, on the pair of
    [this->appList] and the settings object. *)
Definition read_app `{QVariantRead} (st : list NvApp * QSettings) (i : nat)
    : list NvApp * QSettings :=
  let settings := setArrayIndex i st.2 in
  let app :=
    {| app_name := QVariant_toString (value SER_APPNAME settings);
       app_id := QVariant_toInt (value SER_APPID settings);
       app_hdrSupported := QVariant_toBool (value SER_APPHDR settings) |} in
  (st.1 ++ [app], settings).

(** [NvComputer::NvComputer(QSettings& settings)]: the record, and the
    settings object as the constructor leaves it. *)
Definition NvComputer_fromSettings `{QVariantRead} (settings : QSettings)
    : NvComputer * QSettings :=
  let name := QVariant_toString (value SER_NAME settings) in
  let uuid := QVariant_toString (value SER_UUID settings) in
  let macAddress := QVariant_toByteArray (value SER_MAC settings) in
  let serverCodecModeSupport := QVariant_toInt (value SER_CODECSUPP settings) in
  let localAddress := QVariant_toString (value SER_LOCALADDR settings) in
  let remoteAddress := QVariant_toString (value SER_REMOTEADDR settings) in
  let manualAddress := QVariant_toString (value SER_MANUALADDR settings) in
  let begun := beginReadArray SER_APPLIST settings in
  let appCount := begun.1 in
  let loop := foldl read_app ([], begun.2) (seq 0 (Z.to_nat appCount)) in
  let settings := endArray_read loop.2 in
  ({| name := name;
      uuid := uuid;
      macAddress := macAddress;
      serverCodecModeSupport := serverCodecModeSupport;
      localAddress := localAddress;
      remoteAddress := remoteAddress;
      manualAddress := manualAddress;
      pairState := PS_UNKNOWN;
      currentGameId := 0;
      activeAddress := QNull;
      state := CS_UNKNOWN;
      gfeVersion := QNull;
      appVersion := QNull;
      appList := loop.1 |},
   settings).

(** One round of the constructor's loop over the saved hosts, on the pair of
    [m_KnownHosts] and the settings object. *)
Definition read_host `{QVariantRead} (st : gmap string NvComputer * QSettings)
    (i : nat) : gmap string NvComputer * QSettings :=
  let settings := setArrayIndex i st.2 in
  let made := NvComputer_fromSettings settings in
  (<[QMap_key (uuid made.1) := made.1]> st.1, made.2).

(** [ComputerManager::ComputerManager]: the manager a run starts with,
    given what the settings hold. The closing [endArray] writes nothing, and
    the settings object ends with the constructor. *)
Definition ComputerManager_new `{QVariantRead}
    (saved : gmap (list string) QVariant) : ComputerManager :=
  let settings := {| storage := saved; groupStack := [] |} in
  let begun := beginReadArray SER_HOSTS settings in
  let hosts := begun.1 in
  let loop := foldl read_host (∅, begun.2) (seq 0 (Z.to_nat hosts)) in
  {| m_Polling := false;
     m_MdnsBrowser := None;
     m_KnownHosts := loop.1;
     m_PollThreads := ∅;
     m_PendingResolution := [];
     saved := saved;
     notified := [];
     detached := [] |}.

(** ** The build with [QT_NO_DEBUG] *)

(** In a build with [QT_NO_DEBUG] (the release configuration) [Q_ASSERT(cond)]
    expands to nothing: the condition is not evaluated and the run goes on.
    [update] and [uniqueAddresses], whose assertion is the only guard of
    their input, are given here as that build compiles them: the same lines,
    with the macro of this build. *)
Module Release.

Definition Q_ASSERT (cond : bool) : outcome unit := Done tt.

(** [NvComputer::update]. *)
Definition update `{NvAppEq} (this that : NvComputer) : outcome (bool * NvComputer) :=
  Q_ASSERT (QString_eqb (uuid this) (uuid that)) ;;!
  let st := (false, this) in
  let st := ASSIGN_IF_CHANGED QString_neb name set_name that st in
  let st := ASSIGN_IF_CHANGED_AND_NONEMPTY QByteArray_isEmpty QByteArray_neb
              macAddress set_macAddress that st in
  let st := ASSIGN_IF_CHANGED_AND_NONEMPTY QString_isEmpty QString_neb
              localAddress set_localAddress that st in
  let st := ASSIGN_IF_CHANGED_AND_NONEMPTY QString_isEmpty QString_neb
              remoteAddress set_remoteAddress that st in
  let st := ASSIGN_IF_CHANGED_AND_NONEMPTY QString_isEmpty QString_neb
              manualAddress set_manualAddress that st in
  let st := ASSIGN_IF_CHANGED PairState_neb pairState set_pairState that st in
  let st := ASSIGN_IF_CHANGED Z_neb serverCodecModeSupport
              set_serverCodecModeSupport that st in
  let st := ASSIGN_IF_CHANGED Z_neb currentGameId set_currentGameId that st in
  let st := ASSIGN_IF_CHANGED QString_neb activeAddress set_activeAddress that st in
  let st := ASSIGN_IF_CHANGED ComputerState_neb state set_state that st in
  let st := ASSIGN_IF_CHANGED QString_neb gfeVersion set_gfeVersion that st in
  let st := ASSIGN_IF_CHANGED QString_neb appVersion set_appVersion that st in
  let st := ASSIGN_IF_CHANGED_AND_NONEMPTY appList_isEmpty appList_neb
              appList set_appList that st in
  Done st.

(** [NvComputer::uniqueAddresses]. *)
Definition uniqueAddresses (h : NvComputer) : outcome (list QString) :=
  let uniqueAddressList :=
    [activeAddress h; localAddress h; remoteAddress h; manualAddress h] in
  let uniqueAddressList := pruneDuplicates uniqueAddressList 0 in
  Q_ASSERT (negb (bool_decide (length uniqueAddressList = 0%nat))) ;;!
  Done uniqueAddressList.

End Release.
(** * The design's vocabulary *)

(** ** The merge *)

(** The merge policy in the words of the design: a field of the first kind
    takes the observed value whenever it differs; a field of the second kind
    only when the observed value is, besides, not empty. *)
Definition overwrite_if_different {A} (ne : A → A → bool) (old new : A) : A :=
  if ne old new then new else old.

Definition overwrite_if_nonempty_and_different {A} (isEmpty : A → bool)
    (ne : A → A → bool) (old new : A) : A :=
  if negb (isEmpty new) && ne old new then new else old.

Definition merged `{NvAppEq} (existing observed : NvComputer) : NvComputer :=
  {| name := overwrite_if_different QString_neb (name existing) (name observed);
     uuid := uuid existing;
     macAddress :=
       overwrite_if_nonempty_and_different QByteArray_isEmpty QByteArray_neb
         (macAddress existing) (macAddress observed);
     serverCodecModeSupport :=
       overwrite_if_different Z_neb
         (serverCodecModeSupport existing) (serverCodecModeSupport observed);
     localAddress :=
       overwrite_if_nonempty_and_different QString_isEmpty QString_neb
         (localAddress existing) (localAddress observed);
     remoteAddress :=
       overwrite_if_nonempty_and_different QString_isEmpty QString_neb
         (remoteAddress existing) (remoteAddress observed);
     manualAddress :=
       overwrite_if_nonempty_and_different QString_isEmpty QString_neb
         (manualAddress existing) (manualAddress observed);
     pairState :=
       overwrite_if_different PairState_neb (pairState existing) (pairState observed);
     currentGameId :=
       overwrite_if_different Z_neb (currentGameId existing) (currentGameId observed);
     activeAddress :=
       overwrite_if_different QString_neb
         (activeAddress existing) (activeAddress observed);
     state :=
       overwrite_if_different ComputerState_neb (state existing) (state observed);
     gfeVersion :=
       overwrite_if_different QString_neb (gfeVersion existing) (gfeVersion observed);
     appVersion :=
       overwrite_if_different QString_neb (appVersion existing) (appVersion observed);
     appList :=
       overwrite_if_nonempty_and_different appList_isEmpty appList_neb
         (appList existing) (appList observed) |}.

(** Some field of the record differs between [h] and [h']. *)
Definition some_field_changed (h h' : NvComputer) : Prop :=
  name h' ≠ name h ∨ macAddress h' ≠ macAddress h ∨
  localAddress h' ≠ localAddress h ∨ remoteAddress h' ≠ remoteAddress h ∨
  manualAddress h' ≠ manualAddress h ∨ pairState h' ≠ pairState h ∨
  serverCodecModeSupport h' ≠ serverCodecModeSupport h ∨
  currentGameId h' ≠ currentGameId h ∨ activeAddress h' ≠ activeAddress h ∨
  state h' ≠ state h ∨ gfeVersion h' ≠ gfeVersion h ∨
  appVersion h' ≠ appVersion h ∨ appList h' ≠ appList h.

(** The flag [update] computes: the disjunction of the thirteen tests. *)
Definition changed_flag `{NvAppEq} (this that : NvComputer) : bool :=
  QString_neb (name this) (name that)
  || (negb (QByteArray_isEmpty (macAddress that))
      && QByteArray_neb (macAddress this) (macAddress that))
  || (negb (QString_isEmpty (localAddress that))
      && QString_neb (localAddress this) (localAddress that))
  || (negb (QString_isEmpty (remoteAddress that))
      && QString_neb (remoteAddress this) (remoteAddress that))
  || (negb (QString_isEmpty (manualAddress that))
      && QString_neb (manualAddress this) (manualAddress that))
  || PairState_neb (pairState this) (pairState that)
  || Z_neb (serverCodecModeSupport this) (serverCodecModeSupport that)
  || Z_neb (currentGameId this) (currentGameId that)
  || QString_neb (activeAddress this) (activeAddress that)
  || ComputerState_neb (state this) (state that)
  || QString_neb (gfeVersion this) (gfeVersion that)
  || QString_neb (appVersion this) (appVersion that)
  || (negb (appList_isEmpty (appList that))
      && appList_neb (appList this) (appList that)).


(** ** The address list *)

(** Two strings are the same value when [operator==] says so. *)
Definition sameText (x y : QString) : Prop := QString_data x = QString_data y.

#[global] Instance sameText_dec x y : Decision (sameText x y).
Proof. unfold sameText. apply _. Defined.

(** An entry that is neither null nor empty. *)
Definition nonEmptyText (x : QString) : Prop := QString_data x ≠ EmptyString.

#[global] Instance nonEmptyText_dec x : Decision (nonEmptyText x).
Proof. unfold nonEmptyText. apply _. Defined.

(** The candidates in precedence order. *)
Definition candidateAddresses (h : NvComputer) : list QString :=
  [activeAddress h; localAddress h; remoteAddress h; manualAddress h].

(** Duplicates removed, the earliest occurrence kept: the head stays, and
    no later entry of the result has its value. *)
Fixpoint keepFirst (l : list QString) : list QString :=
  match l with
  | [] => []
  | x :: l' => x :: filter (λ y, ¬ sameText x y) (keepFirst l')
  end.

(** What the design asks of [uniqueAddresses]. *)
Definition expectedAddresses (h : NvComputer) : list QString :=
  keepFirst (filter nonEmptyText (candidateAddresses h)).

(** ** The wake packet *)

(** What the [if] on [writeDatagram]'s result takes for a success. *)
Definition accepted (ev : NetEvent) : Prop :=
  match ev with
  | DatagramWritten _ _ _ ret => ret ≠ 0%Z
  | _ => False
  end.

#[global] Instance accepted_dec ev : Decision (accepted ev).
Proof. destruct ev; simpl; apply _. Defined.

(** A datagram of the wake: the payload, to one of the five ports, with the
    value [writeDatagram] returned for it. *)
Definition wakeEvent (net : Network) (payload : QByteArray) (ev : NetEvent) : Prop :=
  match ev with
  | DatagramWritten p dest port ret =>
      p = payload ∧ port ∈ WOL_PORTS ∧
      ∃ before, ret = writeDatagram net before p dest port
  | _ => True
  end.

(** A stretch of the wake loops, from flag [b] and trace [tr] to [r]: the
    trace grows by wake events, and the flag is set when it was set or one
    of the new datagrams was accepted. *)
Definition wake_run (net : Network) (payload : QByteArray) (b : bool)
    (tr : list NetEvent) (r : bool * list NetEvent) : Prop :=
  ∃ new, r.2 = tr ++ new ∧ Forall (wakeEvent net payload) new ∧
         (r.1 = true ↔ b = true ∨ Exists accepted new).

(** ** The host table *)

(** What every operation of the manager maintains: a record is filed under
    its own uuid, and a worker is registered only for a host of the table. *)
Definition table_consistent (m : ComputerManager) : Prop :=
  (∀ k h, m_KnownHosts m !! k = Some h → QMap_key (uuid h) = k) ∧
  (∀ k, is_Some (m_PollThreads m !! k) → is_Some (m_KnownHosts m !! k)).

(** The keys of a saved host entry that hold its app list. *)
Definition savedAppKey (prefix : list string) (key : list string) : Prop :=
  (prefix ++ [SER_APPLIST]) `prefix_of` key.

#[global] Instance savedAppKey_dec prefix key : Decision (savedAppKey prefix key).
Proof. unfold savedAppKey. apply _. Defined.

(** The states of the manager: what its constructor leaves, and what the
    operations of its control surface and the discovery events make of it.
    (The workers' own reports are not among them: their code is elsewhere.) *)
Inductive reachable `{NvAppEq} `{QStringToInt} : ComputerManager → Prop :=
| reach_constructed hosts saved :
    reachable (manager_of hosts saved)
| reach_startPolling m m' :
    reachable m → startPolling m = Done m' → reachable m'
| reach_stopPollingAsync m :
    reachable m → reachable (stopPollingAsync m)
| reach_addNewHost http address mdns m r :
    reachable m → addNewHost http address mdns m = Done r → reachable r.2
| reach_deleteHost computer m m' :
    reachable m → deleteHost computer m = Done m' → reachable m'
| reach_serviceAdded pendingComputer m :
    reachable m → reachable (serviceAdded pendingComputer m)
| reach_handleMdnsServiceResolved http computer address m m' :
    reachable m → handleMdnsServiceResolved http computer address m = Done m' →
    reachable m'.

(** ** More vocabulary: traces, answers, workers *)

(** The names a trace resolved, in order. *)
Definition resolvedNames (tr : list NetEvent) : list QString :=
  omap (λ ev, match ev with NameResolved host _ => Some host | _ => None end) tr.

(** The addresses the resolutions of a trace returned, in order. *)
Definition resolvedAddresses (tr : list NetEvent) : list QHostAddress :=
  mjoin ((λ ev, match ev with NameResolved _ addresses => addresses | _ => [] end)
           <$> tr).

Definition isBind (ev : NetEvent) : Prop :=
  match ev with SocketBound _ _ => True | _ => False end.

Definition isBound (ev : NetEvent) : Prop :=
  match ev with SocketBound _ true => True | _ => False end.

#[global] Instance isBind_dec ev : Decision (isBind ev).
Proof. destruct ev; simpl; apply _. Defined.
#[global] Instance isBound_dec ev : Decision (isBound ev).
Proof. destruct ev as [| ? []|]; simpl; apply _. Defined.

(** How often a character occurs in a string. *)
Fixpoint occurrences (c : ascii) (s : string) : nat :=
  match s with
  | EmptyString => 0
  | String c' s' => (if bool_decide (c' = c) then 1 else 0) + occurrences c s'
  end.

(** The registry of workers: empty while polling is off, a browser exactly
    while polling is on, and every registered worker running and filed under
    the uuid of the host it polls. *)
Definition workers_sound (m : ComputerManager) : Prop :=
  (m_Polling m = false → m_PollThreads m = ∅) ∧
  (is_Some (m_MdnsBrowser m) ↔ m_Polling m = true) ∧
  (∀ k t, m_PollThreads m !! k = Some t →
          thr_status t = Running ∧ QMap_key (thr_computer t) = k).

(** The workers [startPolling] registers for the hosts [l], given the
    registry [threads]: one for each host that has none. *)
Definition started (l : list NvComputer)
    (threads : gmap string PcMonitorThread) : gmap string PcMonitorThread :=
  foldl (λ thr c, match thr !! QMap_key (uuid c) with
                  | Some _ => thr
                  | None => <[QMap_key (uuid c)
                              := mkPcMonitorThread (uuid c) Running false false]> thr
                  end) threads l.

Definition with_threads (threads : gmap string PcMonitorThread)
    (m : ComputerManager) : ComputerManager :=
  {| m_Polling := m_Polling m;
     m_MdnsBrowser := m_MdnsBrowser m;
     m_KnownHosts := m_KnownHosts m;
     m_PollThreads := threads;
     m_PendingResolution := m_PendingResolution m;
     saved := saved m;
     notified := notified m;
     detached := detached m |}.

(** ** The settings store, key by key *)

(** [s'] differs from [s] under the key prefix [Q] only. *)
Definition only_under (Q : list string) (s s' : QSettings) : Prop :=
  ∀ k, ¬ Q `prefix_of` k → storage s' !! k = storage s !! k.

(** Two settings objects in the same group that agree on the keys [K]. *)
Definition same_on (K : list string → Prop) (s1 s2 : QSettings) : Prop :=
  groupStack s1 = groupStack s2 ∧
  ∀ k, K k → storage s1 !! k = storage s2 !! k.

(** The order of the keys is total. *)
#[global] Instance QMap_key_le_total : Total QMap_key_le.
Proof. intros a b. apply String.leb_total. Qed.

(** ** Reading back *)

(** What is assumed of the conversions: the data written is the data read,
    and a key that is not there reads as the number 0. *)
Definition reads_what_was_written (R : QVariantRead) : Prop :=
  (∀ s, sameText (QVariant_toString (Some (VString s))) s) ∧
  (∀ b, QByteArray_data (QVariant_toByteArray (Some (VBytes b)))
        = QByteArray_data b) ∧
  (∀ n, QVariant_toInt (Some (VInt n)) = n) ∧
  QVariant_toInt None = 0%Z ∧
  (∀ b, QVariant_toBool (Some (VBool b)) = b).

(** A saved app read back. *)
Definition app_read_back (a r : NvApp) : Prop :=
  sameText (app_name r) (app_name a) ∧ app_id r = app_id a ∧
  app_hdrSupported r = app_hdrSupported a.

(** A host read back from its saved entry: the saved fields hold the data
    they held, the live fields start afresh. *)
Definition read_back (h r : NvComputer) : Prop :=
  sameText (name r) (name h) ∧ sameText (uuid r) (uuid h) ∧
  QByteArray_data (macAddress r) = QByteArray_data (macAddress h) ∧
  serverCodecModeSupport r = serverCodecModeSupport h ∧
  sameText (localAddress r) (localAddress h) ∧
  sameText (remoteAddress r) (remoteAddress h) ∧
  sameText (manualAddress r) (manualAddress h) ∧
  Forall2 app_read_back (appList h) (appList r) ∧
  pairState r = PS_UNKNOWN ∧ currentGameId r = 0%Z ∧
  activeAddress r = QNull ∧ state r = CS_UNKNOWN ∧
  gfeVersion r = QNull ∧ appVersion r = QNull.

(** * Sample hosts, networks and servers *)

Definition game_a : NvApp := mkNvApp (QStr "Game A") 1 false.

(** A paired host that is switched off, as read back from a poll. *)
Definition den_pc : NvComputer :=
  {| name := QStr "Den-PC";
     uuid := QStr "X";
     macAddress := QBytes [Byte.xaa; Byte.xbb; Byte.xcc; Byte.xdd; Byte.xee; Byte.xff];
     serverCodecModeSupport := 1;
     localAddress := QStr "192.168.1.20";
     remoteAddress := QStr "203.0.113.5";
     manualAddress := QStr "192.168.1.20";
     pairState := PS_PAIRED;
     currentGameId := 0;
     activeAddress := QNull;
     state := CS_OFFLINE;
     gfeVersion := QStr "3.13.1.30";
     appVersion := QStr "7.1.404.0";
     appList := [game_a] |}.

(** A partial observation of the same host: no mac, no app list, and the
    versions missing. *)
Definition den_pc_probe : NvComputer :=
  {| name := QStr "Den-PC";
     uuid := QStr "X";
     macAddress := QBNull;
     serverCodecModeSupport := 1;
     localAddress := QStr "";
     remoteAddress := QStr "203.0.113.5";
     manualAddress := QStr "192.0.2.10";
     pairState := PS_PAIRED;
     currentGameId := 0;
     activeAddress := QStr "192.0.2.10";
     state := CS_ONLINE;
     gfeVersion := QStr "";
     appVersion := QNull;
     appList := [] |}.

(** Another host. *)
Definition attic_pc : NvComputer :=
  {| name := QStr "Attic-PC";
     uuid := QStr "Y";
     macAddress := QBNull;
     serverCodecModeSupport := 0;
     localAddress := QNull;
     remoteAddress := QNull;
     manualAddress := QNull;
     pairState := PS_UNKNOWN;
     currentGameId := 0;
     activeAddress := QNull;
     state := CS_UNKNOWN;
     gfeVersion := QNull;
     appVersion := QNull;
     appList := [] |}.

(** A host that never reported a mac, as a later run holds it after its
    saved entry was read back: the live fields are reset, and the mac saved
    as a null byte array comes back as one that holds no byte and is not
    null. *)
Definition host_without_mac : NvComputer :=
  {| name := QStr "Den-PC";
     uuid := QStr "X";
     macAddress := QBytes [];
     serverCodecModeSupport := 1;
     localAddress := QStr "192.168.1.20";
     remoteAddress := QStr "203.0.113.5";
     manualAddress := QStr "192.168.1.20";
     pairState := PS_UNKNOWN;
     currentGameId := 0;
     activeAddress := QNull;
     state := CS_UNKNOWN;
     gfeVersion := QNull;
     appVersion := QNull;
     appList := [game_a] |}.

(** A network on which every name resolves to one IPv4 address and every
    socket binds, and on which no datagram can be sent: [writeDatagram]
    returns -1 each time. *)
Definition unreachable_network : Network :=
  {| fromName := λ _ host, [mkQHostAddress IPv4Protocol (QString_data host)];
     bind := λ _ _, true;
     writeDatagram := λ _ _ _ _, (-1)%Z |}.

(** A network on which only the broadcast address is reached, on port 9. *)
Definition broadcast_only_network : Network :=
  {| fromName := λ _ host,
       if bool_decide (QString_data host = "255.255.255.255")
       then [mkQHostAddress IPv4Protocol "255.255.255.255"] else [];
     bind := λ _ _, true;
     writeDatagram := λ _ payload _ port,
       if bool_decide (port = 9%Z) then Z.of_nat (QByteArray_count payload)
       else (-1)%Z |}.

(** A decimal or hexadecimal number without sign, prefix or blanks; 0 when
    the string is no such number, as [toInt] returns on failure. *)
Definition digits_toInt : QStringToInt := λ q base,
  let chars := String.list_ascii_of_string (QString_data q) in
  let step (acc : option Z) (c : ascii) : option Z :=
    a ← acc;
    d ← fromHexDigit c;
    if bool_decide (Z.of_N d < base)%Z then Some (a * base + Z.of_N d)%Z
    else None in
  match chars with
  | [] => 0%Z
  | _ => default 0%Z (foldl step (Some 0%Z) chars)
  end.

(** A protocol client that reaches one server, at 192.0.2.10: the host
    [X], named Den-PC, paired, idle. *)
Definition den_http : NvHTTP :=
  {| getServerInfo := λ address,
       if bool_decide (QString_data address = "192.0.2.10")
       then Some (QStr "<root status_code=200>...</root>") else None;
     getXmlString := λ _ tag,
       if bool_decide (tag = "hostname") then QStr "Den-PC"
       else if bool_decide (tag = "uniqueid") then QStr "X"
       else if bool_decide (tag = "mac") then QStr "AA:BB:CC:DD:EE:FF"
       else if bool_decide (tag = "ServerCodecModeSupport") then QStr "1"
       else if bool_decide (tag = "LocalIP") then QStr "192.168.1.20"
       else if bool_decide (tag = "ExternalIP") then QStr "203.0.113.5"
       else if bool_decide (tag = "PairStatus") then QStr "1"
       else if bool_decide (tag = "appversion") then QStr "7.1.404.0"
       else if bool_decide (tag = "GfeVersion") then QStr "3.13.1.30"
       else QNull;
     getCurrentGame := λ _, 0%Z |}.

(** The manager after [den_pc], app list and all, was saved. *)
Definition den_saved : ComputerManager :=
  handleComputerStateChanged den_pc (manager_of [den_pc] ∅).

(** [X] deleted from the table of [den_saved], then added again from the
    server's answer. *)
Definition den_readded : outcome (bool * ComputerManager) :=
  m ←! deleteHost den_pc den_saved ;;
  @addNewHost NvApp_eqb_id digits_toInt den_http (QStr "192.0.2.10") false m.

Definition den_readded_manager : ComputerManager :=
  Eval vm_compute in
    match den_readded with
    | Done r => r.2
    | AssertionFailed => manager_of [] ∅
    end.

(** A manager that polls its one host. *)
Definition den_polling : ComputerManager :=
  Eval vm_compute in
    match startPolling (manager_of [den_pc] ∅) with
    | Done m => m
    | AssertionFailed => manager_of [] ∅
    end.


(** [attic_pc], which has no address at all, as a query at 192.0.2.20
    observes it. *)
Definition attic_pc_found : NvComputer :=
  set_state CS_ONLINE (set_activeAddress (QStr "192.0.2.20") attic_pc).

(** What [wake] returns for [den_pc] on [broadcast_only_network]. *)
Definition den_wake : bool * list NetEvent :=
  Eval vm_compute in
    match wake broadcast_only_network den_pc with
    | Done r => r
    | AssertionFailed => (false, [])
    end.

(** The manager of [den_saved] after mDNS discovery found [X] at
    192.0.2.10. *)
Definition den_discovered : ComputerManager :=
  Eval vm_compute in
    match @addNewHost NvApp_eqb_id digits_toInt den_http (QStr "192.0.2.10") true
            den_saved with
    | Done r => r.2
    | AssertionFailed => manager_of [] ∅
    end.

(** A backend that keeps no nulls: a string or a byte array that was saved
    comes back holding data, possibly none (as from a settings file). Only
    the conversion to the type that was saved is spelled out. *)
Definition file_backend : QVariantRead :=
  {| QVariant_toString := λ v,
       match v with
       | Some (VString s) => QStr (QString_data s)
       | _ => QNull
       end;
     QVariant_toByteArray := λ v,
       match v with
       | Some (VBytes b) => QBytes (QByteArray_data b)
       | _ => QBNull
       end;
     QVariant_toInt := λ v,
       match v with
       | Some (VInt n) => n
       | _ => 0%Z
       end;
     QVariant_toBool := λ v,
       match v with
       | Some (VBool b) => b
       | _ => false
       end |}.

(** [den_saved] after [X] was deleted. *)
Definition den_deleted : ComputerManager :=
  Eval vm_compute in
    match deleteHost den_pc den_saved with
    | Done m => m
    | AssertionFailed => manager_of [] ∅
    end.

(** A service discovered by the browser, and the address it resolves to. *)
Definition den_service : MdnsPendingComputer :=
  mkMdnsPendingComputer 1 (QStr "den-pc.local").

Definition den_address : QHostAddress := mkQHostAddress IPv4Protocol "192.0.2.10".

(** [den_polling] after the service was discovered and resolved. *)
Definition den_resolved : ComputerManager :=
  Eval vm_compute in
    match @handleMdnsServiceResolved NvApp_eqb_id digits_toInt den_http
            den_service den_address (serviceAdded den_service den_polling) with
    | Done m => m
    | AssertionFailed => manager_of [] ∅
    end.

(** A manager that polls [attic_pc] only, and the same after [X] was added
    by hand. *)
Definition attic_polling : ComputerManager :=
  Eval vm_compute in
    match startPolling (manager_of [attic_pc] ∅) with
    | Done m => m
    | AssertionFailed => manager_of [] ∅
    end.

Definition attic_den_polling : ComputerManager :=
  Eval vm_compute in
    match @addNewHost NvApp_eqb_id digits_toInt den_http (QStr "192.0.2.10") false
            attic_polling with
    | Done r => r.2
    | AssertionFailed => manager_of [] ∅
    end.
(** * Properties *)

(** Reduction of the record's projections and assignments only. *)
Ltac record_cbn :=
  cbn [set_name set_macAddress set_localAddress set_remoteAddress
       set_manualAddress set_pairState set_serverCodecModeSupport
       set_currentGameId set_activeAddress set_state set_gfeVersion
       set_appVersion set_appList
       name uuid macAddress serverCodecModeSupport localAddress
       remoteAddress manualAddress pairState currentGameId activeAddress
       state gfeVersion appVersion appList].

Section Merge.
Context `{NvAppEq}.
Hypothesis NvApp_eqb_refl : ∀ a : NvApp, NvApp_eqb a a = true.

Lemma QString_neb_irrefl q : QString_neb q q = false.
Proof. unfold QString_neb, QString_eqb. by rewrite bool_decide_eq_true_2. Qed.

Lemma QByteArray_neb_irrefl a : QByteArray_neb a a = false.
Proof. unfold QByteArray_neb, QByteArray_eqb. by rewrite bool_decide_eq_true_2. Qed.

Lemma Z_neb_irrefl z : Z_neb z z = false.
Proof. unfold Z_neb. by rewrite bool_decide_eq_true_2. Qed.

Lemma PairState_neb_irrefl p : PairState_neb p p = false.
Proof. unfold PairState_neb. by rewrite bool_decide_eq_true_2. Qed.

Lemma ComputerState_neb_irrefl s : ComputerState_neb s s = false.
Proof. unfold ComputerState_neb. by rewrite bool_decide_eq_true_2. Qed.

Lemma appList_eqb_refl l : appList_eqb l l = true.
Proof using NvApp_eqb_refl.
  induction l as [|a l IH]; simpl; [done |]. by rewrite NvApp_eqb_refl, IH.
Qed.

Lemma appList_neb_irrefl l : appList_neb l l = false.
Proof using NvApp_eqb_refl. unfold appList_neb. by rewrite appList_eqb_refl. Qed.

(** One macro line, as an unconditional assignment of the value the policy
    selects. [set (get h) h = h] holds of every field of the record. *)
Lemma ASSIGN_IF_CHANGED_step {A} (ne : A → A → bool) get set that c h :
  set (get h) h = h →
  ASSIGN_IF_CHANGED ne get set that (c, h) =
  (c || ne (get h) (get that),
   set (overwrite_if_different ne (get h) (get that)) h).
Proof.
  intros Hid. unfold ASSIGN_IF_CHANGED, overwrite_if_different. simpl.
  destruct (ne (get h) (get that)); simpl.
  - by rewrite orb_true_r.
  - by rewrite orb_false_r, Hid.
Qed.

Lemma ASSIGN_IF_CHANGED_AND_NONEMPTY_step {A} isEmpty (ne : A → A → bool)
    get set that c h :
  set (get h) h = h →
  ASSIGN_IF_CHANGED_AND_NONEMPTY isEmpty ne get set that (c, h) =
  (c || (negb (isEmpty (get that)) && ne (get h) (get that)),
   set (overwrite_if_nonempty_and_different isEmpty ne (get h) (get that)) h).
Proof.
  intros Hid.
  unfold ASSIGN_IF_CHANGED_AND_NONEMPTY, overwrite_if_nonempty_and_different.
  simpl. destruct (negb (isEmpty (get that)) && ne (get h) (get that)); simpl.
  - by rewrite orb_true_r.
  - by rewrite orb_false_r, Hid.
Qed.

(** Rewrites the innermost macro line of the goal with its step lemma. *)
Ltac macro_step :=
  lazymatch goal with
  | |- context C [ASSIGN_IF_CHANGED ?ne ?get ?set ?that (?c, ?h)] =>
      let E := constr:(ASSIGN_IF_CHANGED_step ne get set that c h eq_refl) in
      let P := constr:(fun z : bool * NvComputer =>
                         ltac:(let g := context C [z] in exact g)) in
      refine (eq_ind_r P _ E); cbv beta
  | |- context C [ASSIGN_IF_CHANGED_AND_NONEMPTY ?e ?ne ?get ?set ?that (?c, ?h)] =>
      let E := constr:(ASSIGN_IF_CHANGED_AND_NONEMPTY_step
                         e ne get set that c h eq_refl) in
      let P := constr:(fun z : bool * NvComputer =>
                         ltac:(let g := context C [z] in exact g)) in
      refine (eq_ind_r P _ E); cbv beta
  end.

Lemma update_unfold this that :
  QString_eqb (uuid this) (uuid that) = true →
  update this that = Done (changed_flag this that, merged this that).
Proof.
  intros Hid. unfold update. rewrite Hid. cbn [Q_ASSERT obind].
  destruct this. cbv zeta.
  do 13 (macro_step; record_cbn).
  reflexivity.
Qed.

(** With the assertion compiled out the same holds of every pair. *)
Lemma Release_update_unfold this that :
  Release.update this that = Done (changed_flag this that, merged this that).
Proof.
  unfold Release.update, Release.Q_ASSERT. cbn [obind].
  destruct this. cbv zeta.
  do 13 (macro_step; record_cbn).
  reflexivity.
Qed.
End Merge.

Lemma overwrite_if_different_changed {A} (ne : A → A → bool) old new :
  (∀ x, ne x x = false) →
  overwrite_if_different ne old new ≠ old ↔ ne old new = true.
Proof.
  intros Hirr. unfold overwrite_if_different.
  destruct (ne old new) eqn:E; split; try done.
  intros _ ->. by rewrite Hirr in E.
Qed.

Lemma overwrite_if_nonempty_and_different_changed {A} isEmpty
    (ne : A → A → bool) old new :
  (∀ x, ne x x = false) →
  overwrite_if_nonempty_and_different isEmpty ne old new ≠ old ↔
  negb (isEmpty new) && ne old new = true.
Proof.
  intros Hirr. unfold overwrite_if_nonempty_and_different.
  destruct (negb (isEmpty new) && ne old new) eqn:E; split; try done.
  intros _ ->. rewrite Hirr in E. by rewrite andb_false_r in E.
Qed.

Section MergeProperties.
Context `{NvAppEq}.
Hypothesis NvApp_eqb_refl : ∀ a : NvApp, NvApp_eqb a a = true.

Lemma changed_flag_spec this that :
  changed_flag this that = true ↔ some_field_changed this (merged this that).
Proof using NvApp_eqb_refl.
  unfold some_field_changed, merged, changed_flag. record_cbn.
  rewrite !overwrite_if_different_changed
    by auto using QString_neb_irrefl, Z_neb_irrefl, PairState_neb_irrefl,
                  ComputerState_neb_irrefl.
  rewrite !overwrite_if_nonempty_and_different_changed
    by auto using QString_neb_irrefl, QByteArray_neb_irrefl, appList_neb_irrefl.
  rewrite !orb_true_iff. tauto.
Qed.

Lemma merged_same h : merged h h = h.
Proof using NvApp_eqb_refl.
  destruct h. unfold merged, overwrite_if_different,
    overwrite_if_nonempty_and_different. record_cbn.
  rewrite !QString_neb_irrefl, !Z_neb_irrefl, PairState_neb_irrefl,
    ComputerState_neb_irrefl, QByteArray_neb_irrefl, appList_neb_irrefl
    by assumption.
  by rewrite !andb_false_r.
Qed.

Lemma changed_flag_same h : changed_flag h h = false.
Proof using NvApp_eqb_refl.
  unfold changed_flag.
  rewrite !QString_neb_irrefl, !Z_neb_irrefl, PairState_neb_irrefl,
    ComputerState_neb_irrefl, QByteArray_neb_irrefl, appList_neb_irrefl
    by assumption.
  by rewrite !andb_false_r.
Qed.

(** C1. For two records with equal id, [update] leaves in [existing] the
    record the per-field policy describes ([merged]: the fields of the first
    kind overwritten whenever the observed value differs, empty or not; mac,
    local, remote and manual address and the app list only when the observed
    value is non-empty and different), and returns true exactly when one of
    those fields changed. "Differs" is [operator!=] of the field's type; of
    [NvApp::operator==] only reflexivity is used. *)
Theorem update_merges_by_policy (existing observed : NvComputer) :
  QString_eqb (uuid existing) (uuid observed) = true →
  ∃ changed : bool,
    update existing observed = Done (changed, merged existing observed) ∧
    (changed = true ↔ some_field_changed existing (merged existing observed)).
Proof using NvApp_eqb_refl.
  intros Hid. exists (changed_flag existing observed). split.
  - by apply update_unfold.
  - apply changed_flag_spec.
Qed.

(** C8. Merging a record with a field-for-field copy of itself reports no
    change and leaves every field as it was (an app is equal to itself under
    [NvApp::operator==]). *)
Theorem update_idempotent (h : NvComputer) :
  update h h = Done (false, h).
Proof using NvApp_eqb_refl.
  rewrite update_unfold.
  - by rewrite changed_flag_same, merged_same.
  - unfold QString_eqb. by rewrite bool_decide_eq_true_2.
Qed.

(** C4, by build. When the ids differ ([operator==] on the uuid strings is
    false), [update] stops at its assertion in a build with assertions
    enabled: nothing is merged. In a build with [QT_NO_DEBUG] the assertion
    is compiled out, and [update] goes on to merge the two records by the
    per-field policy, as it does for equal ids; the id of [existing] stays. *)
Theorem update_uuid_mismatch_by_build (existing observed : NvComputer) :
  QString_eqb (uuid existing) (uuid observed) = false →
  update existing observed = AssertionFailed ∧
  Release.update existing observed
    = Done (changed_flag existing observed, merged existing observed).
Proof using Type.
  intros Hne. split.
  - unfold update. by rewrite Hne.
  - apply Release_update_unfold.
Qed.

End MergeProperties.

(** The partial observation [den_pc_probe] merged into [den_pc]: the empty
    mac, local address and app list keep the known values; the manual and
    active address, the state and both versions are overwritten, the
    versions by empty values. *)
Example update_den_pc_probe :
  @update NvApp_eqb_id den_pc den_pc_probe =
  Done (true,
        {| name := QStr "Den-PC";
           uuid := QStr "X";
           macAddress := macAddress den_pc;
           serverCodecModeSupport := 1;
           localAddress := QStr "192.168.1.20";
           remoteAddress := QStr "203.0.113.5";
           manualAddress := QStr "192.0.2.10";
           pairState := PS_PAIRED;
           currentGameId := 0;
           activeAddress := QStr "192.0.2.10";
           state := CS_ONLINE;
           gfeVersion := QStr "";
           appVersion := QNull;
           appList := [game_a] |}).
Proof. vm_compute. reflexivity. Qed.

Lemma NvApp_eqb_id_refl (a : NvApp) : @NvApp_eqb NvApp_eqb_id a a = true.
Proof. unfold NvApp_eqb, NvApp_eqb_id. by apply bool_decide_eq_true_2. Qed.

Lemma NvApp_eqb_fields_refl (a : NvApp) : @NvApp_eqb NvApp_eqb_fields a a = true.
Proof. unfold NvApp_eqb, NvApp_eqb_fields. by apply bool_decide_eq_true_2. Qed.

Lemma update_merges_by_policy_witness :
  ∃ changed : bool,
    @update NvApp_eqb_id den_pc den_pc_probe =
      Done (changed, @merged NvApp_eqb_id den_pc den_pc_probe) ∧
    (changed = true ↔
     some_field_changed den_pc (@merged NvApp_eqb_id den_pc den_pc_probe)).
Proof.
  apply (@update_merges_by_policy NvApp_eqb_id NvApp_eqb_id_refl
           den_pc den_pc_probe).
  vm_compute. reflexivity.
Defined.

Lemma update_idempotent_witness :
  @update NvApp_eqb_fields den_pc den_pc = Done (false, den_pc).
Proof.
  apply (@update_idempotent NvApp_eqb_fields NvApp_eqb_fields_refl den_pc).
Defined.

Lemma update_uuid_mismatch_by_build_witness :
  QString_eqb (uuid den_pc) (uuid attic_pc) = false ∧
  @update NvApp_eqb_id den_pc attic_pc = AssertionFailed ∧
  @Release.update NvApp_eqb_id den_pc attic_pc
    = Done (@changed_flag NvApp_eqb_id den_pc attic_pc,
            @merged NvApp_eqb_id den_pc attic_pc).
Proof.
  split; [reflexivity |].
  apply (@update_uuid_mismatch_by_build NvApp_eqb_id den_pc attic_pc).
  reflexivity.
Defined.

(** The claim as stated fails in the build with [QT_NO_DEBUG]: the ids of
    [den_pc] and [attic_pc] differ, and [update] does not abort but merges.
    The record of [X] takes the name, codec support, pair state, state and
    versions observed of [Y]. *)
Lemma update_uuid_mismatch_merges :
  QString_eqb (uuid den_pc) (uuid attic_pc) = false ∧
  @Release.update NvApp_eqb_id den_pc attic_pc =
  Done (true,
        {| name := QStr "Attic-PC";
           uuid := QStr "X";
           macAddress := macAddress den_pc;
           serverCodecModeSupport := 0;
           localAddress := QStr "192.168.1.20";
           remoteAddress := QStr "203.0.113.5";
           manualAddress := QStr "192.168.1.20";
           pairState := PS_UNKNOWN;
           currentGameId := 0;
           activeAddress := QNull;
           state := CS_UNKNOWN;
           gfeVersion := QNull;
           appVersion := QNull;
           appList := [game_a] |}).
Proof. split; vm_compute; reflexivity. Qed.
(** ** The address list *)

Lemma pruneLater_step v i j :
  pruneLater v i j =
  if decide (j < length v) then
    if QString_eqb (v !!! i) (v !!! j) then pruneLater (delete j v) i j
    else pruneLater v i (S j)
  else v.
Proof.
  rewrite pruneLater_equation_1 at 1.
  destruct (decide (j < length v)); simpl; [|done].
  destruct (QString_eqb _ _).
  - apply pruneLater_clause_1_clause_2_equation_1.
  - apply pruneLater_clause_1_clause_2_equation_2.
Qed.

Lemma pruneDuplicates_step v i :
  pruneDuplicates v i =
  if decide (i < length v) then
    if QString_isEmpty (v !!! i) || QString_isNull (v !!! i)
    then pruneDuplicates (delete i v) i
    else pruneDuplicates (pruneLater v i (S i)) (S i)
  else v.
Proof.
  rewrite pruneDuplicates_equation_1 at 1.
  destruct (decide (i < length v)); simpl; [|done].
  destruct (_ || _).
  - apply pruneDuplicates_clause_1_clause_2_equation_1.
  - apply pruneDuplicates_clause_1_clause_2_equation_2.
Qed.

(** The inner loop, started at [j] behind the entries [mid] it has kept. *)
Lemma pruneLater_spec pre x mid rest :
  pruneLater (pre ++ x :: mid ++ rest) (length pre) (S (length pre + length mid)) =
  pre ++ x :: mid ++ filter (λ y, ¬ sameText x y) rest.
Proof.
  revert mid. induction rest as [|y rest IH]; intros mid.
  - rewrite pruneLater_step. rewrite decide_False; [done|].
    rewrite length_app. simpl. rewrite length_app. simpl. lia.
  - rewrite pruneLater_step. rewrite decide_True.
    2:{ rewrite length_app. simpl. rewrite length_app. simpl. lia. }
    assert (Hi : (pre ++ x :: mid ++ y :: rest) !!! length pre = x).
    { by rewrite list_lookup_total_middle. }
    assert (Hj : (pre ++ x :: mid ++ y :: rest) !!! S (length pre + length mid) = y).
    { replace (pre ++ x :: mid ++ y :: rest) with ((pre ++ x :: mid) ++ y :: rest)
        by by rewrite <- app_assoc.
      rewrite list_lookup_total_middle; [done|]. rewrite length_app. simpl. lia. }
    rewrite Hi, Hj. unfold QString_eqb.
    destruct (decide (sameText x y)) as [Hs|Hs].
    + rewrite bool_decide_eq_true_2 by done.
      replace (delete (S (length pre + length mid)) (pre ++ x :: mid ++ y :: rest))
        with (pre ++ x :: mid ++ rest).
      2:{ replace (pre ++ x :: mid ++ y :: rest) with ((pre ++ x :: mid) ++ y :: rest)
            by by rewrite <- app_assoc.
          replace (S (length pre + length mid)) with (length (pre ++ x :: mid))
            by (rewrite length_app; simpl; lia).
          rewrite delete_middle. by rewrite <- app_assoc. }
      rewrite IH. rewrite filter_cons_False; [done|]. by intros Hn; apply Hn.
    + rewrite bool_decide_eq_false_2 by done.
      rewrite filter_cons_True by done.
      specialize (IH (mid ++ [y])).
      rewrite length_app in IH. simpl in IH.
      replace (S (length pre + (length mid + 1))) with (S (S (length pre + length mid))) in IH by lia.
      rewrite <- !app_assoc in IH. simpl in IH. done.
Qed.

Lemma keepFirst_filter x l :
  keepFirst (filter (λ y, ¬ sameText x y) l) =
  filter (λ y, ¬ sameText x y) (keepFirst l).
Proof.
  induction l as [|a l IH]; [done|].
  destruct (decide (sameText x a)) as [Hs|Hs].
  - rewrite filter_cons_False by (by intros Hn; apply Hn). simpl.
    rewrite filter_cons_False by (by intros Hn; apply Hn).
    rewrite IH, list_filter_filter. apply list_filter_iff.
    intros y. unfold sameText in *. split; [|tauto].
    intros Hy. split; [done|]. congruence.
  - rewrite filter_cons_True by done. simpl.
    rewrite filter_cons_True by done. f_equal.
    rewrite IH, !list_filter_filter. apply list_filter_iff. intros y. tauto.
Qed.

Lemma empty_or_null_spec y :
  QString_isEmpty y || QString_isNull y = true ↔ ¬ nonEmptyText y.
Proof.
  unfold QString_isEmpty, nonEmptyText. destruct y as [|s]; simpl.
  - split; [by intros _ Hn | intros _; by rewrite ?orb_true_r].
  - rewrite orb_false_r, bool_decide_eq_true. split; [by intros -> Hn | ].
    intros Hn. by destruct (decide (s = EmptyString)).
Qed.

Lemma pruneDuplicates_spec n : ∀ rest pre,
  length rest ≤ n →
  pruneDuplicates (pre ++ rest) (length pre) =
  pre ++ keepFirst (filter nonEmptyText rest).
Proof.
  induction n as [|n IH]; intros rest pre Hlen.
  - destruct rest; [|simpl in Hlen; lia].
    rewrite pruneDuplicates_step, decide_False; [done|].
    rewrite length_app. simpl. lia.
  - destruct rest as [|x rest].
    { rewrite pruneDuplicates_step, decide_False; [done|].
      rewrite length_app. simpl. lia. }
    simpl in Hlen.
    rewrite pruneDuplicates_step, decide_True
      by (rewrite length_app; simpl; lia).
    rewrite list_lookup_total_middle by done.
    destruct (QString_isEmpty x || QString_isNull x) eqn:E.
    + apply empty_or_null_spec in E.
      rewrite delete_middle, filter_cons_False by done.
      apply IH. lia.
    + assert (Hx : nonEmptyText x).
      { destruct (decide (nonEmptyText x)) as [|Hn]; [done|].
        apply empty_or_null_spec in Hn. congruence. }
      rewrite filter_cons_True by done. simpl.
      pose proof (pruneLater_spec pre x [] rest) as Hl. simpl in Hl.
      rewrite Nat.add_0_r in Hl. rewrite Hl.
      replace (pre ++ x :: filter (λ y, ¬ sameText x y) rest)
        with ((pre ++ [x]) ++ filter (λ y, ¬ sameText x y) rest)
        by (by rewrite <- app_assoc).
      replace (S (length pre)) with (length (pre ++ [x]))
        by (rewrite length_app; simpl; lia).
      rewrite IH.
      2:{ etrans; [apply length_filter|]. lia. }
      rewrite <- app_assoc. simpl. do 2 f_equal.
      rewrite <- keepFirst_filter. f_equal.
      rewrite !list_filter_filter. apply list_filter_iff. intros y. tauto.
Qed.

Lemma keepFirst_sublist l : keepFirst l `sublist_of` l.
Proof.
  induction l as [|x l IH]; simpl; [done|].
  constructor. etrans; [apply sublist_filter|]. done.
Qed.

Lemma keepFirst_NoDup l : NoDup (QString_data <$> keepFirst l).
Proof.
  induction l as [|x l IH]; simpl; [constructor|].
  constructor.
  - intros Hin. apply list_elem_of_fmap in Hin as (y & Hy & Hin).
    apply list_elem_of_filter in Hin as [Hn _]. by apply Hn.
  - eapply sublist_NoDup; [exact IH | apply fmap_sublist, sublist_filter].
Qed.

Lemma keepFirst_elem_of l y :
  y ∈ l → ∃ x, x ∈ keepFirst l ∧ sameText x y.
Proof.
  induction l as [|x l IH]; [by intros ?%elem_of_nil|].
  intros [->|Hin]%elem_of_cons; simpl.
  - exists x. split; [left | done].
  - destruct (IH Hin) as (z & Hz & Hzy).
    destruct (decide (sameText x z)) as [Hs|Hs].
    + exists x. split; [left | unfold sameText in *; congruence].
    + exists z. split; [right; by apply list_elem_of_filter | done].
Qed.

Lemma keepFirst_nil_iff l : keepFirst l = [] ↔ l = [].
Proof. by destruct l. Qed.

Lemma filter_nonEmptyText_nil l :
  filter nonEmptyText l = [] ↔ Forall (λ a, ¬ nonEmptyText a) l.
Proof.
  induction l as [|x l IH]; [by split; [constructor|]|].
  destruct (decide (nonEmptyText x)).
  - rewrite filter_cons_True by done. split; [done|].
    by intros [? _]%Forall_cons.
  - rewrite filter_cons_False, IH by done. split.
    + by constructor.
    + by intros [_ ?]%Forall_cons.
Qed.

Lemma uniqueAddresses_unfold (h : NvComputer) :
  uniqueAddresses h =
  match expectedAddresses h with
  | [] => AssertionFailed
  | l => Done l
  end.
Proof.
  unfold uniqueAddresses, expectedAddresses. cbv zeta.
  change (pruneDuplicates _ 0)
    with (pruneDuplicates ([] ++ candidateAddresses h) (length (@nil QString))).
  rewrite (pruneDuplicates_spec 4) by (simpl; lia).
  simpl app. by destruct (keepFirst _).
Qed.

Lemma expectedAddresses_sound h :
  expectedAddresses h `sublist_of` candidateAddresses h ∧
  Forall nonEmptyText (expectedAddresses h) ∧
  NoDup (expectedAddresses h).
Proof.
  unfold expectedAddresses. split; [|split].
  - etrans; [apply keepFirst_sublist | apply sublist_filter].
  - apply Forall_forall. intros x Hx.
    eapply elem_of_sublist in Hx; [| apply keepFirst_sublist].
    by apply list_elem_of_filter in Hx as [? _].
  - eapply NoDup_fmap_1, keepFirst_NoDup.
Qed.

(** With the assertion compiled out the list is returned as it is, empty or
    not. *)
Lemma Release_uniqueAddresses_unfold (h : NvComputer) :
  Release.uniqueAddresses h = Done (expectedAddresses h).
Proof.
  unfold Release.uniqueAddresses, Release.Q_ASSERT, expectedAddresses.
  cbv zeta. cbn [obind].
  change (pruneDuplicates _ 0)
    with (pruneDuplicates ([] ++ candidateAddresses h) (length (@nil QString))).
  by rewrite (pruneDuplicates_spec 4) by (simpl; lia).
Qed.

(** C5, by build. [uniqueAddresses] returns the candidates, in precedence
    order, without the empty entries and without the later duplicates of an
    earlier value ([keepFirst]: a subsequence of the candidates, free of
    empty entries and of repetitions), in either build; the result has an
    element as soon as one of the four fields is not empty. A record whose
    four fields are all empty ends in the assertion in a build with
    assertions enabled; in a build with [QT_NO_DEBUG] the assertion is
    compiled out and the empty list is returned. *)
Theorem uniqueAddresses_by_build (h : NvComputer) :
  (Exists nonEmptyText (candidateAddresses h) →
   ∃ l, uniqueAddresses h = Done l ∧
        Release.uniqueAddresses h = Done l ∧
        l = keepFirst (filter nonEmptyText (candidateAddresses h)) ∧
        l `sublist_of` candidateAddresses h ∧
        Forall nonEmptyText l ∧ NoDup l ∧
        0 < length l) ∧
  (Forall (λ a, ¬ nonEmptyText a) (candidateAddresses h) →
   uniqueAddresses h = AssertionFailed ∧
   Release.uniqueAddresses h = Done []).
Proof.
  rewrite uniqueAddresses_unfold, Release_uniqueAddresses_unfold.
  pose proof (expectedAddresses_sound h) as (Hsub & Hne & Hnd).
  unfold expectedAddresses in *. split.
  - intros Hex.
    destruct (keepFirst (filter nonEmptyText (candidateAddresses h)))
      as [|x l] eqn:E.
    + apply keepFirst_nil_iff, filter_nonEmptyText_nil in E.
      apply Exists_exists in Hex as (a & Ha & Hnon).
      rewrite Forall_forall in E. by destruct (E a Ha).
    + exists (x :: l). repeat split; try done. simpl. lia.
  - intros Hall. apply filter_nonEmptyText_nil in Hall. by rewrite Hall.
Qed.

(** The first occurrence is the one kept: every candidate that is not empty
    has its value in the result. *)
Lemma expectedAddresses_complete h a :
  a ∈ candidateAddresses h → nonEmptyText a →
  ∃ x, x ∈ expectedAddresses h ∧ sameText x a.
Proof.
  intros Hin Hne. apply keepFirst_elem_of. by apply list_elem_of_filter.
Qed.

Example uniqueAddresses_den_pc :
  uniqueAddresses den_pc = Done [QStr "192.168.1.20"; QStr "203.0.113.5"].
Proof. vm_compute. reflexivity. Qed.

Example uniqueAddresses_probe :
  uniqueAddresses den_pc_probe = Done [QStr "192.0.2.10"; QStr "203.0.113.5"].
Proof. vm_compute. reflexivity. Qed.

Example uniqueAddresses_attic_pc : uniqueAddresses attic_pc = AssertionFailed.
Proof. vm_compute. reflexivity. Qed.

Lemma uniqueAddresses_by_build_witness :
  (∃ l, uniqueAddresses den_pc = Done l ∧
        Release.uniqueAddresses den_pc = Done l ∧
        l = keepFirst (filter nonEmptyText (candidateAddresses den_pc)) ∧
        l `sublist_of` candidateAddresses den_pc ∧
        Forall nonEmptyText l ∧ NoDup l ∧ 0 < length l) ∧
  uniqueAddresses attic_pc = AssertionFailed ∧
  Release.uniqueAddresses attic_pc = Done [].
Proof.
  split.
  - apply (proj1 (uniqueAddresses_by_build den_pc)).
    apply Exists_cons_tl, Exists_cons_hd. by vm_compute.
  - apply (proj2 (uniqueAddresses_by_build attic_pc)).
    repeat constructor; by vm_compute.
Defined.

(** The claim as stated fails in the build with [QT_NO_DEBUG]: the four
    address fields of [attic_pc] are empty, and [uniqueAddresses] returns
    the empty list. *)
Lemma uniqueAddresses_empty_result :
  Forall (λ a, ¬ nonEmptyText a) (candidateAddresses attic_pc) ∧
  Release.uniqueAddresses attic_pc = Done [].
Proof.
  split; [repeat constructor; by vm_compute | vm_compute; reflexivity].
Qed.

Example Release_uniqueAddresses_den_pc :
  Release.uniqueAddresses den_pc = Done [QStr "192.168.1.20"; QStr "203.0.113.5"].
Proof. vm_compute. reflexivity. Qed.

(** ** The wake packet *)

Lemma wake_run_refl net payload b tr : wake_run net payload b tr (b, tr).
Proof.
  exists []. rewrite app_nil_r. repeat split; [constructor | by left |].
  intros [?|?%Exists_nil]; done.
Qed.

Lemma wake_run_trans net payload b tr r1 r2 :
  wake_run net payload b tr r1 → wake_run net payload r1.1 r1.2 r2 →
  wake_run net payload b tr r2.
Proof.
  intros (n1 & E1 & F1 & I1) (n2 & E2 & F2 & I2).
  exists (n1 ++ n2). split; [by rewrite E2, E1, app_assoc|].
  split; [by apply Forall_app|].
  rewrite I2, I1, Exists_app. tauto.
Qed.

Lemma wake_run_event net payload b tr ev b' :
  wakeEvent net payload ev → (b' = true ↔ b = true ∨ accepted ev) →
  wake_run net payload b tr (b', tr ++ [ev]).
Proof.
  intros Hev Hb. exists [ev]. split; [done|]. split; [by repeat constructor|].
  simpl. rewrite Hb, Exists_cons, Exists_nil. tauto.
Qed.

Lemma wake_ports_cons net payload address port ports b tr :
  wake_ports net payload address (port :: ports) (b, tr) =
  let ret := writeDatagram net tr payload address port in
  wake_ports net payload address ports
    (if qint64_to_bool ret then true else b,
     tr ++ [DatagramWritten payload address port ret]).
Proof. unfold wake_ports. simpl. by destruct (qint64_to_bool _). Qed.

Lemma wake_addresses_cons net payload address addresses b tr :
  wake_addresses net payload (address :: addresses) (b, tr) =
  let local := if bool_decide (protocol address = IPv4Protocol)
               then AnyIPv4 else AnyIPv6 in
  let ok := bind net tr local in
  let tr := tr ++ [SocketBound local ok] in
  wake_addresses net payload addresses
    (if ok then wake_ports net payload address WOL_PORTS (b, tr) else (b, tr)).
Proof. reflexivity. Qed.

Lemma wake_names_cons net payload addressString names b tr :
  wake_names net payload (addressString :: names) (b, tr) =
  let addresses := fromName net tr addressString in
  wake_names net payload names
    (wake_addresses net payload addresses
       (b, tr ++ [NameResolved addressString addresses])).
Proof. reflexivity. Qed.

Lemma wake_ports_run net payload address ports : ∀ b tr,
  ports ⊆ WOL_PORTS →
  wake_run net payload b tr (wake_ports net payload address ports (b, tr)).
Proof.
  induction ports as [|port ports IH]; intros b tr Hsub.
  - apply wake_run_refl.
  - rewrite wake_ports_cons. cbv zeta.
    set (ret := writeDatagram net tr payload address port).
    set (ev := DatagramWritten payload address port ret).
    assert (Hports : ports ⊆ WOL_PORTS) by set_solver.
    assert (Hev : wakeEvent net payload ev).
    { split; [done|]. split; [set_solver | by exists tr]. }
    apply (wake_run_trans net payload b tr
             (if qint64_to_bool ret then true else b, tr ++ [ev]));
      [| by apply IH].
    apply wake_run_event; [done|].
    unfold qint64_to_bool. simpl. destruct (decide (ret = 0%Z)) as [Hz|Hz].
    + rewrite bool_decide_eq_true_2 by done. simpl. tauto.
    + rewrite bool_decide_eq_false_2 by done. simpl. tauto.
Qed.

Lemma wake_addresses_run net payload addresses : ∀ b tr,
  wake_run net payload b tr (wake_addresses net payload addresses (b, tr)).
Proof.
  induction addresses as [|address addresses IH]; intros b tr.
  - apply wake_run_refl.
  - rewrite wake_addresses_cons. cbv zeta.
    set (local := if bool_decide (protocol address = IPv4Protocol)
                  then AnyIPv4 else AnyIPv6).
    set (tr1 := tr ++ [SocketBound local (bind net tr local)]).
    assert (H1 : wake_run net payload b tr (b, tr1)).
    { apply wake_run_event; [done|]. simpl. tauto. }
    destruct (bind net tr local).
    + destruct (wake_ports net payload address WOL_PORTS (b, tr1))
        as [b2 tr2] eqn:E.
      apply (wake_run_trans net payload b tr (b2, tr2)); [| apply IH].
      apply (wake_run_trans net payload b tr (b, tr1)); [exact H1|].
      rewrite <- E. by apply wake_ports_run.
    + apply (wake_run_trans net payload b tr (b, tr1)); [exact H1 | apply IH].
Qed.

Lemma wake_names_run net payload names : ∀ b tr,
  wake_run net payload b tr (wake_names net payload names (b, tr)).
Proof.
  induction names as [|addressString names IH]; intros b tr.
  - apply wake_run_refl.
  - rewrite wake_names_cons. cbv zeta.
    set (addresses := fromName net tr addressString).
    set (tr1 := tr ++ [NameResolved addressString addresses]).
    assert (H1 : wake_run net payload b tr (b, tr1)).
    { apply wake_run_event; [done|]. simpl. tauto. }
    destruct (wake_addresses net payload addresses (b, tr1)) as [b2 tr2] eqn:E.
    apply (wake_run_trans net payload b tr (b2, tr2)); [| apply IH].
    apply (wake_run_trans net payload b tr (b, tr1)); [exact H1|].
    rewrite <- E. apply wake_addresses_run.
Qed.

(** Whatever the network does: when [wake] returns, its flag is set exactly
    when some [writeDatagram] returned a value other than 0, and every
    datagram it wrote carries the payload, to one of the five ports. *)
Lemma wake_flag net h b tr :
  state h ≠ CS_ONLINE →
  wake net h = Done (b, tr) →
  (b = true ↔ Exists accepted tr) ∧
  Forall (wakeEvent net (wolPayload (macAddress h))) tr.
Proof.
  intros Hoff. unfold wake. rewrite bool_decide_eq_false_2 by done.
  destruct (QByteArray_isNull (macAddress h)).
  { intros [= <- <-]. split; [|constructor]. split; [done|]. by intros ?%Exists_nil. }
  destruct (Q_ASSERT _); simpl; [|done].
  destruct (uniqueAddresses h) as [l|]; simpl; [|done].
  intros [= E].
  destruct (wake_names_run net (wolPayload (macAddress h))
              (l ++ [QStr "255.255.255.255"]) false [])
    as (new & E2 & HF & HI).
  rewrite E in E2, HI. simpl in *. subst new. split; [|done].
  rewrite HI. split; [intros [?|?]; done | by right].
Qed.

(** When no datagram can be sent, [wake] still returns true as soon as one
    was attempted: the value -1 passes the [if]. *)
Lemma wake_when_no_datagram_leaves net h b tr :
  (∀ before p dest port, writeDatagram net before p dest port = (-1)%Z) →
  state h ≠ CS_ONLINE → wake net h = Done (b, tr) →
  Forall (λ ev, ¬ transmitted ev) tr ∧ (b = true ↔ Exists isDatagram tr).
Proof.
  intros Hfail Hoff Hwake.
  destruct (wake_flag net h b tr Hoff Hwake) as [Hb HF].
  assert (Hev : Forall (λ ev, ¬ transmitted ev ∧ (accepted ev ↔ isDatagram ev)) tr).
  { eapply Forall_impl; [exact HF|]. intros [| |p dest port ret]; simpl; try tauto.
    intros (_ & _ & before & ->). rewrite Hfail. split; [by intros Hn | done]. }
  split.
  - eapply Forall_impl; [exact Hev|]. by intros ev [? _].
  - rewrite Hb, !Exists_exists. rewrite Forall_forall in Hev.
    split; intros (ev & Hin & Hp); exists ev; (split; [done|]);
      by apply (Hev ev Hin).
Qed.

Lemma wake_null_mac net h :
  state h ≠ CS_ONLINE → QByteArray_isNull (macAddress h) = true →
  wake net h = Done (false, []).
Proof.
  intros Hoff Hnull. unfold wake.
  by rewrite bool_decide_eq_false_2, Hnull by done.
Qed.

Lemma wake_online net h : state h = CS_ONLINE → wake net h = Done (true, []).
Proof. intros Hon. unfold wake. by rewrite bool_decide_eq_true_2. Qed.

Lemma mjoin_replicate_comm {A} (m : list A) n :
  mjoin (replicate n m) ++ m = m ++ mjoin (replicate n m).
Proof.
  induction n as [|n IH]; simpl; [by rewrite app_nil_r|].
  by rewrite <- app_assoc, IH.
Qed.

Lemma length_mjoin_replicate {A} (m : list A) n :
  length (mjoin (replicate n m)) = n * length m.
Proof. induction n as [|n IH]; simpl; [done|]. rewrite length_app, IH. lia. Qed.

Lemma iter_append hdr mac n :
  Nat.iter n (λ p, QByteArray_append p (QBytes mac)) (QBytes hdr) =
  QBytes (hdr ++ mjoin (replicate n mac)).
Proof.
  induction n as [|n IH]; simpl; [by rewrite app_nil_r|].
  rewrite IH. simpl. by rewrite <- app_assoc, mjoin_replicate_comm.
Qed.

Lemma wolPayload_bytes mac :
  wolPayload (QBytes mac) =
  QBytes (replicate 6 Byte.xff ++ mjoin (replicate 16 mac)).
Proof. unfold wolPayload. exact (iter_append (replicate 6 Byte.xff) mac 16). Qed.

(** The assertion on the payload's length holds for a 6-byte mac only: any
    other mac that is not null ends the run there. *)
Lemma wake_mac_not_six net h mac :
  state h ≠ CS_ONLINE → macAddress h = QBytes mac → length mac ≠ 6 →
  wake net h = AssertionFailed.
Proof.
  intros Hoff Hmac Hlen. unfold wake.
  rewrite bool_decide_eq_false_2 by done. rewrite Hmac. cbn [QByteArray_isNull].
  rewrite wolPayload_bytes. unfold QByteArray_count, QByteArray_data.
  rewrite bool_decide_eq_false_2; [done|].
  rewrite length_app, length_replicate, length_mjoin_replicate. lia.
Qed.

(** C7. For a host that is not online and whose mac is a 6-byte address,
    the payload is 6 bytes 0xFF followed by 16 copies of the address, 102
    bytes in all, and it is what every datagram of [wake] carries. *)
Theorem wake_payload_layout (net : Network) (h : NvComputer) (mac : list byte) :
  state h ≠ CS_ONLINE → macAddress h = QBytes mac → length mac = 6 →
  wolPayload (macAddress h) =
    QBytes (replicate 6 Byte.xff ++ mjoin (replicate 16 mac)) ∧
  QByteArray_count (wolPayload (macAddress h)) = 102 ∧
  ∀ b tr, wake net h = Done (b, tr) →
    ∀ p dest port ret, DatagramWritten p dest port ret ∈ tr →
      p = wolPayload (macAddress h).
Proof.
  intros Hoff Hmac Hlen. rewrite Hmac, wolPayload_bytes. split; [done|]. split.
  - unfold QByteArray_count, QByteArray_data.
    rewrite length_app, length_replicate, length_mjoin_replicate, Hlen. lia.
  - intros b tr Hwake p dest port ret Hin.
    destruct (wake_flag net h b tr Hoff Hwake) as [_ HF].
    rewrite Forall_forall in HF. specialize (HF _ Hin). simpl in HF.
    rewrite Hmac, wolPayload_bytes in HF. by destruct HF.
Qed.

Lemma wake_payload_layout_witness :
  wolPayload (macAddress den_pc) =
    QBytes (replicate 6 Byte.xff ++
            mjoin (replicate 16 [Byte.xaa; Byte.xbb; Byte.xcc; Byte.xdd;
                                 Byte.xee; Byte.xff])) ∧
  QByteArray_count (wolPayload (macAddress den_pc)) = 102 ∧
  ∀ b tr, wake broadcast_only_network den_pc = Done (b, tr) →
    ∀ p dest port ret, DatagramWritten p dest port ret ∈ tr →
      p = wolPayload (macAddress den_pc).
Proof.
  apply (wake_payload_layout broadcast_only_network den_pc
           [Byte.xaa; Byte.xbb; Byte.xcc; Byte.xdd; Byte.xee; Byte.xff]).
  - vm_compute. discriminate.
  - reflexivity.
  - reflexivity.
Defined.

(** On [broadcast_only_network] the one datagram that leaves sets the flag. *)
Example wake_den_pc_broadcast :
  ∃ tr, wake broadcast_only_network den_pc = Done (true, tr) ∧
        Exists transmitted tr.
Proof.
  eexists. split; [vm_compute; reflexivity |].
  apply Exists_exists.
  exists (DatagramWritten (wolPayload (macAddress den_pc))
            (mkQHostAddress IPv4Protocol "255.255.255.255") 9 102).
  split; [| simpl; lia]. vm_compute. set_solver.
Qed.

(** C2, at a host whose datagrams all fail. [writeDatagram] returns -1 for
    each of them, the [if] takes the non-zero value for a success, and
    [wake] returns true although nothing was transmitted. *)
Theorem wake_counts_failed_sends :
  ∃ tr, wake unreachable_network den_pc = Done (true, tr) ∧
        Exists isDatagram tr ∧
        Forall (λ ev, ¬ transmitted ev) tr.
Proof.
  eexists. split; [vm_compute; reflexivity |]. split.
  - apply Exists_exists. eexists. split; [do 2 right; left|]; done.
  - repeat (apply Forall_cons; split; [simpl; intros Hn; by try apply Hn |]).
    constructor.
Qed.

(** C9, at a host whose mac holds no byte without being null: the guard
    [macAddress.isNull()] lets it through, the payload has 6 bytes, and the
    run ends in the assertion on its length. *)
Theorem wake_empty_mac_passes_guard (net : Network) :
  QByteArray_isEmpty (macAddress host_without_mac) = true ∧
  state host_without_mac ≠ CS_ONLINE ∧
  QByteArray_count (wolPayload (macAddress host_without_mac)) = 6 ∧
  wake net host_without_mac = AssertionFailed.
Proof. repeat split; try done. Qed.

(** ** Serialization *)

Lemma storage_setValue_ne key v s k :
  k ≠ actualKey s key → storage (setValue key v s) !! k = storage s !! k.
Proof. intros Hne. unfold setValue. simpl. by rewrite lookup_insert_ne. Qed.

Lemma savedAppKey_not_field prefix k key :
  savedAppKey prefix k → key ≠ SER_APPLIST → k ≠ prefix ++ [key].
Proof.
  intros [rest ->] Hkey Heq. rewrite <- app_assoc in Heq.
  apply app_inv_head in Heq. simpl in Heq. congruence.
Qed.

(** [serialize] on its own: with an empty app list in memory, the app list
    saved under the current group is left as it is. *)
Lemma serialize_without_apps h s k :
  appList h = [] → savedAppKey (groupPrefix s) k →
  storage (serialize h s) !! k = storage s !! k ∧
  groupStack (serialize h s) = groupStack s.
Proof.
  intros Happ Hk. unfold serialize. rewrite Happ.
  cbn [appList_isEmpty negb]. cbv zeta. split; [|done].
  rewrite !storage_setValue_ne; [done | ..];
    apply (savedAppKey_not_field (groupPrefix s)); done.
Qed.

(** The first save of the sample host writes its app list. *)
Example den_saved_apps :
  saved den_saved !! ["hosts"; "1"; "apps"; "size"] = Some (VInt 1) ∧
  saved den_saved !! ["hosts"; "1"; "apps"; "1"; "name"]
    = Some (VString (QStr "Game A")) ∧
  saved den_saved !! ["hosts"; "size"] = Some (VInt 1).
Proof. repeat split; vm_compute; reflexivity. Qed.

(** C3, through the table's save. The host [X], saved with its app list, is
    deleted and added again from a server answer; the new record has no app
    list yet. The save that follows removes the whole [hosts] array before
    it writes the table, so the guard in [serialize] finds nothing to keep:
    the entry of [X] is written without an app list, and the one saved
    before is gone. *)
Theorem saveHosts_drops_saved_apps :
  saved den_saved !! ["hosts"; "1"; "apps"; "1"; "name"]
    = Some (VString (QStr "Game A")) ∧
  den_readded = Done (true, den_readded_manager) ∧
  appList <$> m_KnownHosts den_readded_manager !! "X" = Some [] ∧
  saved den_readded_manager !! ["hosts"; "1"; "uuid"]
    = Some (VString (QStr "X")) ∧
  ∀ k, savedAppKey ["hosts"; "1"] k → saved den_readded_manager !! k = None.
Proof.
  split; [vm_compute; reflexivity |].
  split; [vm_compute; reflexivity |].
  split; [vm_compute; reflexivity |].
  split; [vm_compute; reflexivity |].
  intros k Hk.
  assert (Hall : map_Forall (λ k' _, ¬ savedAppKey ["hosts"; "1"] k')
                   (saved den_readded_manager)).
  { refine (bool_decide_unpack _ _). vm_compute. exact I. }
  destruct (saved den_readded_manager !! k) eqn:E; [|done].
  by destruct (Hall _ _ E).
Qed.

(** The same, at [saveHosts] alone. *)
Example saveHosts_empty_appList :
  let m := manager_of [set_appList [] den_pc] (saved den_saved) in
  saved m !! ["hosts"; "1"; "apps"; "size"] = Some (VInt 1) ∧
  saved (saveHosts m) !! ["hosts"; "1"; "apps"; "size"] = None ∧
  saved (saveHosts m) !! ["hosts"; "1"; "apps"; "1"; "name"] = None.
Proof. repeat split; vm_compute; reflexivity. Qed.

(** ** The manager *)

Lemma saveHosts_table m :
  m_KnownHosts (saveHosts m) = m_KnownHosts m ∧
  m_PollThreads (saveHosts m) = m_PollThreads m ∧
  m_Polling (saveHosts m) = m_Polling m.
Proof. done. Qed.

Lemma handleComputerStateChanged_consistent c m :
  table_consistent m → table_consistent (handleComputerStateChanged c m).
Proof. done. Qed.

Lemma startPollingComputer_consistent c m m' :
  table_consistent m → is_Some (m_KnownHosts m !! QMap_key (uuid c)) →
  startPollingComputer c m = Done m' →
  table_consistent m' ∧ m_KnownHosts m' = m_KnownHosts m.
Proof.
  intros [Hk Ht] Hc. unfold startPollingComputer.
  destruct (m_Polling m); simpl; [|by intros [= <-]].
  destruct (m_PollThreads m !! QMap_key (uuid c)) as [t|] eqn:E.
  - destruct (isRunning t); simpl; [by intros [= <-] | done].
  - intros [= <-]. simpl. split; [|done]. split; [done|]. simpl.
    intros k. destruct (decide (QMap_key (uuid c) = k)) as [<-|Hne].
    + done.
    + rewrite lookup_insert_ne by done. apply Ht.
Qed.

Section AddHost.
Context `{NvAppEq} `{QStringToInt}.

Lemma addNewHost_query_failed http address mdns m :
  getServerInfo http address = None →
  addNewHost http address mdns m = Done (false, m).
Proof. intros Hq. unfold addNewHost. by rewrite Hq. Qed.

Lemma addNewHost_query_answered http address mdns m :
  is_Some (getServerInfo http address) → table_consistent m →
  ∃ m', addNewHost http address mdns m = Done (true, m') ∧ table_consistent m'.
Proof.
  intros [serverInfo Hq] [Hk Ht]. unfold addNewHost. rewrite Hq.
  set (newComputer := if mdns then _ else _).
  destruct (m_KnownHosts m !! QMap_key (uuid newComputer))
    as [existingComputer|] eqn:E.
  - pose proof (Hk _ _ E) as Hid.
    rewrite update_unfold.
    2:{ unfold QString_eqb. apply bool_decide_eq_true_2. exact Hid. }
    simpl. eexists. split; [done|].
    assert (Hc : table_consistent
      {| m_Polling := m_Polling m; m_MdnsBrowser := m_MdnsBrowser m;
         m_KnownHosts := <[QMap_key (uuid newComputer) :=
                             merged existingComputer newComputer]> (m_KnownHosts m);
         m_PollThreads := m_PollThreads m;
         m_PendingResolution := m_PendingResolution m;
         saved := saved m; notified := notified m; detached := detached m |}).
    { split; simpl.
      - intros k h. destruct (decide (QMap_key (uuid newComputer) = k)) as [<-|Hne].
        + rewrite lookup_insert_eq. by intros [= <-].
        + rewrite lookup_insert_ne by done. apply Hk.
      - intros k Hs. destruct (decide (QMap_key (uuid newComputer) = k)) as [<-|Hne].
        + by rewrite lookup_insert_eq.
        + rewrite lookup_insert_ne by done. by apply Ht. }
    destruct (changed_flag existingComputer newComputer);
      [by apply handleComputerStateChanged_consistent | done].
  - set (m1 := {| m_Polling := m_Polling m; m_MdnsBrowser := m_MdnsBrowser m;
         m_KnownHosts := <[QMap_key (uuid newComputer) := newComputer]> (m_KnownHosts m);
         m_PollThreads := m_PollThreads m;
         m_PendingResolution := m_PendingResolution m;
         saved := saved m; notified := notified m; detached := detached m |}).
    assert (Hc : table_consistent m1).
    { split; simpl.
      - intros k h. destruct (decide (QMap_key (uuid newComputer) = k)) as [<-|Hne].
        + rewrite lookup_insert_eq. by intros [= <-].
        + rewrite lookup_insert_ne by done. apply Hk.
      - intros k Hs. destruct (decide (QMap_key (uuid newComputer) = k)) as [<-|Hne].
        + by rewrite lookup_insert_eq.
        + rewrite lookup_insert_ne by done. by apply Ht. }
    assert (Hin : is_Some (m_KnownHosts m1 !! QMap_key (uuid newComputer))).
    { simpl. by rewrite lookup_insert_eq. }
    assert (Hno : m_PollThreads m1 !! QMap_key (uuid newComputer) = None).
    { simpl. destruct (m_PollThreads m !! QMap_key (uuid newComputer)) eqn:Et; [|done].
      destruct (Ht (QMap_key (uuid newComputer))) as [? Hs]; [by eexists|]. congruence. }
    destruct (startPollingComputer newComputer m1) as [m2|] eqn:Es.
    + simpl. eexists. split; [done|].
      apply handleComputerStateChanged_consistent.
      by destruct (startPollingComputer_consistent _ _ _ Hc Hin Es).
    + exfalso. revert Es. unfold startPollingComputer. rewrite Hno.
      by destruct (negb (m_Polling m1)).
Qed.

(** C6. If the status query fails, [addNewHost] returns false and leaves
    the manager as it was: table, workers, saved settings and emitted
    notifications. If the query is answered, [addNewHost] returns true, in
    every state the manager's operations can leave ([table_consistent],
    which [addNewHost] maintains). *)
Theorem addNewHost_result http address mdns m :
  (getServerInfo http address = None →
   addNewHost http address mdns m = Done (false, m)) ∧
  (is_Some (getServerInfo http address) → table_consistent m →
   ∃ m', addNewHost http address mdns m = Done (true, m') ∧
         table_consistent m').
Proof.
  split; [apply addNewHost_query_failed | apply addNewHost_query_answered].
Qed.
End AddHost.

(** C10. [startPolling] on a manager that already polls returns at once:
    no second browser, no further worker, no member changed. *)
Theorem startPolling_when_polling (m : ComputerManager) :
  m_Polling m = true → startPolling m = Done m.
Proof. intros Hp. unfold startPolling. by rewrite Hp. Qed.

Lemma startPolling_when_polling_witness :
  m_Polling den_polling = true ∧ startPolling den_polling = Done den_polling.
Proof.
  split; [reflexivity |].
  apply (startPolling_when_polling den_polling). reflexivity.
Defined.

(** The first [startPolling] creates the browser and one worker per host. *)
Example startPolling_den_pc :
  startPolling (manager_of [den_pc] ∅) = Done den_polling ∧
  m_MdnsBrowser den_polling = Some "_nvstream._tcp.local." ∧
  m_PollThreads den_polling !! "X"
    = Some (mkPcMonitorThread (QStr "X") Running false false).
Proof. repeat split; vm_compute; reflexivity. Qed.

(** The design's first scenario: an empty table, and a host typed in by the
    user. One record, one notification, and the entry saved. *)
Example addNewHost_first_host :
  ∃ m, @addNewHost NvApp_eqb_id digits_toInt den_http (QStr "192.0.2.10") false
         (manager_of [] ∅) = Done (true, m) ∧
       m_KnownHosts m =
         {[ "X" := set_manualAddress (QStr "192.0.2.10")
                     (@NvComputer_fromServerInfo digits_toInt den_http
                        (QStr "192.0.2.10")
                        (QStr "<root status_code=200>...</root>")) ]} ∧
       notified m = [QStr "X"] ∧
       saved m !! ["hosts"; "1"; "manualaddress"]
         = Some (VString (QStr "192.0.2.10")).
Proof. eexists. repeat split; vm_compute; reflexivity. Qed.

(** A query that fails changes nothing. *)
Example addNewHost_unreachable :
  @addNewHost NvApp_eqb_id digits_toInt den_http (QStr "198.51.100.7") true
    den_saved = Done (false, den_saved).
Proof. reflexivity. Qed.

(** *** The table stays consistent *)

Lemma foldlM_invariant {A B} (P : A → Prop) (f : A → B → outcome A) l : ∀ a a',
  (∀ a b a', P a → b ∈ l → f a b = Done a' → P a') →
  P a → foldlM f a l = Done a' → P a'.
Proof.
  induction l as [|b l IH]; intros a a' Hstep Ha; simpl.
  - by intros [= <-].
  - destruct (f a b) as [a1|] eqn:E; simpl; [|done].
    apply IH; [|eapply Hstep; [exact Ha | left | exact E]].
    intros a2 b2 a3 H2 Hin. apply Hstep; [done | by right].
Qed.

Lemma QMap_values_lookup {A} (m : gmap string A) x :
  x ∈ QMap_values m → ∃ k, m !! k = Some x.
Proof.
  unfold QMap_values. intros (k & _ & Hk)%list_elem_of_omap. by exists k.
Qed.

Lemma manager_of_consistent hosts saved : table_consistent (manager_of hosts saved).
Proof.
  split; simpl; [| by intros k [? ?%lookup_empty_Some]].
  assert (Hgen : ∀ known : gmap string NvComputer,
            (∀ k h, known !! k = Some h → QMap_key (uuid h) = k) →
            ∀ k h, foldl (λ known computer,
                            <[QMap_key (uuid computer) := computer]> known)
                         known hosts !! k = Some h →
                   QMap_key (uuid h) = k).
  { induction hosts as [|c hosts IH]; intros known Hknown; simpl; [done|].
    apply IH. intros k h.
    destruct (decide (QMap_key (uuid c) = k)) as [<-|Hne].
    - rewrite lookup_insert_eq. by intros [= <-].
    - rewrite lookup_insert_ne by done. apply Hknown. }
  apply Hgen. by intros k h ?%lookup_empty_Some.
Qed.

Lemma startPolling_consistent m m' :
  table_consistent m → startPolling m = Done m' → table_consistent m'.
Proof.
  intros Hc. unfold startPolling. destruct (m_Polling m); [by intros [= <-]|].
  set (m1 := {| m_Polling := true |}).
  assert (Hc1 : table_consistent m1) by done.
  intros Hfold.
  apply (foldlM_invariant
           (λ a, table_consistent a ∧ m_KnownHosts a = m_KnownHosts m)
           _ _ _ _) in Hfold as [? _]; [done | | done].
  intros a c a' [Ha Hhosts] Hin Hstep.
  apply QMap_values_lookup in Hin as [k Hk].
  destruct (startPollingComputer_consistent c a a' Ha) as [? Heq]; [|done|].
  - rewrite Hhosts. destruct Hc as [Hkey _]. rewrite (Hkey _ _ Hk). by eexists.
  - split; [done|]. by rewrite Heq.
Qed.

Lemma stopPollingAsync_consistent m :
  table_consistent m → table_consistent (stopPollingAsync m).
Proof.
  intros [Hk Ht]. unfold stopPollingAsync. destruct (m_Polling m); simpl; [|done].
  split; simpl; [done|]. by intros k [? ?%lookup_empty_Some].
Qed.

Lemma deleteHost_consistent c m m' :
  table_consistent m → deleteHost c m = Done m' → table_consistent m'.
Proof.
  intros [Hk Ht]. unfold deleteHost.
  destruct (match m_PollThreads m !! QMap_key (uuid c) with
            | Some t => _ | None => _ end); simpl; [|done].
  intros [= <-]. split; simpl.
  - intros k h [_ ?]%lookup_delete_Some. by apply Hk.
  - intros k [t [Hne Hs]%lookup_delete_Some].
    destruct (Ht k) as [h Hh]; [by eexists|].
    exists h. by apply lookup_delete_Some.
Qed.

Lemma serviceAdded_consistent p m :
  table_consistent m → table_consistent (serviceAdded p m).
Proof. done. Qed.

Section Reachable.
Context `{NvAppEq} `{QStringToInt}.

Lemma addNewHost_consistent http address mdns m r :
  table_consistent m → addNewHost http address mdns m = Done r →
  table_consistent r.2.
Proof.
  intros Hc Hadd.
  destruct (getServerInfo http address) as [info|] eqn:Hq.
  - destruct (addNewHost_query_answered http address mdns m) as (m' & E & Hc');
      [by eexists | done |].
    rewrite E in Hadd. by injection Hadd as <-.
  - rewrite addNewHost_query_failed in Hadd by done. by injection Hadd as <-.
Qed.

Lemma handleMdnsServiceResolved_consistent http computer address m m' :
  table_consistent m →
  handleMdnsServiceResolved http computer address m = Done m' →
  table_consistent m'.
Proof.
  intros Hc. unfold handleMdnsServiceResolved.
  destruct (addNewHost _ _ _ _) as [r|] eqn:E; simpl; [|done].
  intros [= <-]. by apply addNewHost_consistent in E.
Qed.

(** Every state the manager can be in is consistent. *)
Lemma reachable_consistent m : reachable m → table_consistent m.
Proof.
  induction 1;
    eauto using manager_of_consistent, startPolling_consistent,
      stopPollingAsync_consistent, addNewHost_consistent,
      deleteHost_consistent, serviceAdded_consistent,
      handleMdnsServiceResolved_consistent.
Qed.
End Reachable.

Lemma addNewHost_result_witness :
  @addNewHost NvApp_eqb_id digits_toInt den_http (QStr "198.51.100.7") true
    den_saved = Done (false, den_saved) ∧
  ∃ m', @addNewHost NvApp_eqb_id digits_toInt den_http (QStr "192.0.2.10") true
          den_saved = Done (true, m') ∧
        table_consistent m'.
Proof.
  split.
  - apply (proj1 (@addNewHost_result NvApp_eqb_id digits_toInt den_http
                    (QStr "198.51.100.7") true den_saved)).
    reflexivity.
  - apply (proj2 (@addNewHost_result NvApp_eqb_id digits_toInt den_http
                    (QStr "192.0.2.10") true den_saved)).
    + by eexists.
    + apply handleComputerStateChanged_consistent, manager_of_consistent.
Defined.

(** * Further properties *)

(** ** The merge, again *)

Lemma overwrite_if_different_settled {A} (ne : A → A → bool) old new :
  (∀ x, ne x x = false) →
  ne (overwrite_if_different ne old new) new = false.
Proof.
  intros Hirr. unfold overwrite_if_different.
  destruct (ne old new) eqn:E; [apply Hirr | exact E].
Qed.

Lemma overwrite_if_nonempty_and_different_settled {A} isEmpty
    (ne : A → A → bool) old new :
  (∀ x, ne x x = false) →
  negb (isEmpty new) &&
    ne (overwrite_if_nonempty_and_different isEmpty ne old new) new = false.
Proof.
  intros Hirr. unfold overwrite_if_nonempty_and_different.
  destruct (negb (isEmpty new) && ne old new) eqn:E; [|exact E].
  by rewrite Hirr, andb_false_r.
Qed.

Lemma overwrite_if_different_id {A} (ne : A → A → bool) old new :
  ne old new = false → overwrite_if_different ne old new = old.
Proof. intros E. unfold overwrite_if_different. by rewrite E. Qed.

Lemma overwrite_if_nonempty_and_different_id {A} isEmpty (ne : A → A → bool) old new :
  negb (isEmpty new) && ne old new = false →
  overwrite_if_nonempty_and_different isEmpty ne old new = old.
Proof. intros E. unfold overwrite_if_nonempty_and_different. by rewrite E. Qed.

Section MergeAgain.
Context `{NvAppEq}.
Hypothesis NvApp_eqb_refl : ∀ a : NvApp, NvApp_eqb a a = true.

Lemma changed_flag_merged existing observed :
  changed_flag (merged existing observed) observed = false.
Proof using NvApp_eqb_refl.
  unfold changed_flag, merged. record_cbn.
  rewrite !overwrite_if_different_settled
    by auto using QString_neb_irrefl, Z_neb_irrefl, PairState_neb_irrefl,
                  ComputerState_neb_irrefl.
  rewrite !overwrite_if_nonempty_and_different_settled
    by auto using QString_neb_irrefl, QByteArray_neb_irrefl, appList_neb_irrefl.
  reflexivity.
Qed.

Lemma merged_merged existing observed :
  merged (merged existing observed) observed = merged existing observed.
Proof using NvApp_eqb_refl.
  unfold merged at 1. record_cbn.
  set (m := merged existing observed).
  unfold merged in m. subst m. record_cbn.
  f_equal;
    first [ apply overwrite_if_different_id, overwrite_if_different_settled;
            auto using QString_neb_irrefl, Z_neb_irrefl, PairState_neb_irrefl,
                       ComputerState_neb_irrefl
          | apply overwrite_if_nonempty_and_different_id,
                  overwrite_if_nonempty_and_different_settled;
            auto using QString_neb_irrefl, QByteArray_neb_irrefl,
                       appList_neb_irrefl ].
Qed.

(** X1: once an observation has been merged into a record of the same
    uuid, merging the same observation again assigns no field and returns
    false (for a reflexive [NvApp::operator==]). *)
Theorem update_again_changes_nothing (existing observed : NvComputer) :
  QString_eqb (uuid existing) (uuid observed) = true →
  ∃ r, update existing observed = Done r ∧
       update r.2 observed = Done (false, r.2).
Proof using NvApp_eqb_refl.
  intros Hid. exists (changed_flag existing observed, merged existing observed).
  split; [by apply update_unfold|]. simpl.
  rewrite update_unfold by exact Hid.
  by rewrite changed_flag_merged, merged_merged.
Qed.
End MergeAgain.

Lemma uniqueAddresses_Done_iff h :
  (∃ l, uniqueAddresses h = Done l) ↔ Exists nonEmptyText (candidateAddresses h).
Proof.
  rewrite uniqueAddresses_unfold. unfold expectedAddresses.
  destruct (keepFirst (filter nonEmptyText (candidateAddresses h))) as [|x l] eqn:E.
  - apply keepFirst_nil_iff, filter_nonEmptyText_nil in E. split.
    + by intros [? ?].
    + intros (a & Ha & Hne)%Exists_exists. rewrite Forall_forall in E.
      by destruct (E a Ha).
  - split; [intros _ | by eexists].
    assert (Hx : x ∈ filter nonEmptyText (candidateAddresses h)).
    { eapply elem_of_sublist; [|apply keepFirst_sublist]. rewrite E. left. }
    apply list_elem_of_filter in Hx as [Hne Hin].
    apply Exists_exists. by exists x.
Qed.

Lemma QString_neb_false_sameText a b : QString_neb a b = false → sameText a b.
Proof.
  unfold QString_neb, QString_eqb. intros E%negb_false_iff.
  by apply bool_decide_eq_true in E.
Qed.

Lemma overwrite_if_different_nonEmpty old new :
  nonEmptyText new → nonEmptyText (overwrite_if_different QString_neb old new).
Proof.
  intros Hne. unfold overwrite_if_different.
  destruct (QString_neb old new) eqn:E; [done|].
  apply QString_neb_false_sameText in E. unfold nonEmptyText, sameText in *.
  congruence.
Qed.

Lemma overwrite_if_nonempty_and_different_nonEmpty old new :
  nonEmptyText new →
  nonEmptyText
    (overwrite_if_nonempty_and_different QString_isEmpty QString_neb old new).
Proof.
  intros Hne. unfold overwrite_if_nonempty_and_different.
  destruct (negb (QString_isEmpty new) && QString_neb old new) eqn:E; [done|].
  apply andb_false_iff in E as [E|E].
  - apply negb_false_iff in E. unfold QString_isEmpty in E.
    by apply bool_decide_eq_true in E.
  - apply QString_neb_false_sameText in E. unfold nonEmptyText, sameText in *.
    congruence.
Qed.

Lemma merged_keeps_an_address `{NvAppEq} existing observed :
  Exists nonEmptyText (candidateAddresses observed) →
  Exists nonEmptyText (candidateAddresses (merged existing observed)).
Proof.
  unfold candidateAddresses, merged. record_cbn.
  rewrite !Exists_cons, !Exists_nil.
  intros [?|[?|[?|[?|[]]]]].
  - left. by apply overwrite_if_different_nonEmpty.
  - right; left. by apply overwrite_if_nonempty_and_different_nonEmpty.
  - do 2 right; left. by apply overwrite_if_nonempty_and_different_nonEmpty.
  - do 3 right; left. by apply overwrite_if_nonempty_and_different_nonEmpty.
Qed.

(** X2: merging an observation that has an address into a record of the
    same uuid leaves a record that has an address: [uniqueAddresses] passes
    its assertion on the merged record, whatever the record held before. *)
Theorem update_keeps_an_address `{NvAppEq} (existing observed : NvComputer) :
  QString_eqb (uuid existing) (uuid observed) = true →
  (∃ l, uniqueAddresses observed = Done l) →
  ∃ r l', update existing observed = Done r ∧ uniqueAddresses r.2 = Done l'.
Proof.
  intros Hid Hobs%uniqueAddresses_Done_iff.
  destruct (proj2 (uniqueAddresses_Done_iff (merged existing observed)))
    as [l' Hl']; [by apply merged_keeps_an_address|].
  exists (changed_flag existing observed, merged existing observed), l'.
  split; [by apply update_unfold | done].
Qed.

(** ** The wake packet, again *)

Lemma resolvedNames_app a b : resolvedNames (a ++ b) = resolvedNames a ++ resolvedNames b.
Proof. apply omap_app. Qed.

Lemma resolvedAddresses_app a b :
  resolvedAddresses (a ++ b) = resolvedAddresses a ++ resolvedAddresses b.
Proof. unfold resolvedAddresses. by rewrite fmap_app, join_app. Qed.

Lemma resolvedAddresses_single host addresses :
  resolvedAddresses [NameResolved host addresses] = addresses.
Proof. unfold resolvedAddresses. simpl. apply app_nil_r. Qed.

Lemma wake_ports_trace net payload address ports : ∀ b tr,
  ∃ new, (wake_ports net payload address ports (b, tr)).2 = tr ++ new ∧
         Forall isDatagram new ∧ length new = length ports.
Proof.
  induction ports as [|port ports IH]; intros b tr.
  - exists []. by rewrite app_nil_r.
  - rewrite wake_ports_cons. cbv zeta.
    destruct (IH (if qint64_to_bool (writeDatagram net tr payload address port)
                  then true else b)
                 (tr ++ [DatagramWritten payload address port
                           (writeDatagram net tr payload address port)]))
      as (new & -> & HF & Hlen).
    eexists (_ :: new). rewrite <- app_assoc. split; [done|].
    split; [by constructor | simpl; by rewrite Hlen].
Qed.

Lemma Forall_isDatagram_tally new :
  Forall isDatagram new →
  resolvedNames new = [] ∧ resolvedAddresses new = [] ∧
  filter isBind new = [] ∧ filter isBound new = [] ∧
  filter isDatagram new = new.
Proof.
  induction 1 as [|ev new Hev _ (IH1 & IH2 & IH3 & IH4 & IH5)]; [done|].
  destruct ev; try done.
  unfold resolvedNames, resolvedAddresses in *. simpl.
  rewrite !filter_cons_False by (by intros []).
  rewrite filter_cons_True by done. by rewrite IH5.
Qed.

Lemma wake_addresses_trace net payload addresses : ∀ b tr,
  ∃ new, (wake_addresses net payload addresses (b, tr)).2 = tr ++ new ∧
         resolvedNames new = [] ∧ resolvedAddresses new = [] ∧
         length (filter isBind new) = length addresses ∧
         length (filter isDatagram new) = 5 * length (filter isBound new).
Proof.
  induction addresses as [|address addresses IH]; intros b tr.
  - exists []. by rewrite app_nil_r.
  - rewrite wake_addresses_cons. cbv zeta.
    set (local := if bool_decide (protocol address = IPv4Protocol)
                  then AnyIPv4 else AnyIPv6).
    destruct (bind net tr local) eqn:Hb.
    + destruct (wake_ports_trace net payload address WOL_PORTS b
                  (tr ++ [SocketBound local true])) as (sent & Es & HF & Hlen).
      destruct (wake_ports net payload address WOL_PORTS
                  (b, tr ++ [SocketBound local true])) as [b1 tr1].
      simpl in Es. subst tr1.
      destruct (IH b1 ((tr ++ [SocketBound local true]) ++ sent))
        as (new & -> & Hn & Ha & Hbind & Hd).
      apply Forall_isDatagram_tally in HF as (S1 & S2 & S3 & S4 & S5).
      exists (SocketBound local true :: sent ++ new).
      split; [by rewrite <- !app_assoc|].
      change (SocketBound local true :: sent ++ new)
        with ([SocketBound local true] ++ sent ++ new).
      rewrite !resolvedNames_app, !resolvedAddresses_app, !filter_app,
        !length_app, S1, S2, S3, S4, S5, Hn, Ha, Hbind, Hd, Hlen.
      repeat split; simpl; lia.
    + destruct (IH b (tr ++ [SocketBound local false]))
        as (new & -> & Hn & Ha & Hbind & Hd).
      exists (SocketBound local false :: new).
      split; [by rewrite <- !app_assoc|].
      change (SocketBound local false :: new)
        with ([SocketBound local false] ++ new).
      rewrite !resolvedNames_app, !resolvedAddresses_app, !filter_app,
        !length_app, Hn, Ha, Hbind, Hd.
      repeat split; simpl; lia.
Qed.

Lemma wake_names_trace net payload names : ∀ b tr,
  ∃ new, (wake_names net payload names (b, tr)).2 = tr ++ new ∧
         resolvedNames new = names ∧
         length (filter isBind new) = length (resolvedAddresses new) ∧
         length (filter isDatagram new) = 5 * length (filter isBound new).
Proof.
  induction names as [|addressString names IH]; intros b tr.
  - exists []. by rewrite app_nil_r.
  - rewrite wake_names_cons. cbv zeta.
    set (addresses := fromName net tr addressString).
    destruct (wake_addresses_trace net payload addresses b
                (tr ++ [NameResolved addressString addresses]))
      as (tried & Et & Hn & Ha & Hbind & Hd).
    destruct (wake_addresses net payload addresses
                (b, tr ++ [NameResolved addressString addresses])) as [b1 tr1].
    simpl in Et. subst tr1.
    destruct (IH b1 ((tr ++ [NameResolved addressString addresses]) ++ tried))
      as (new & -> & Hn' & Hbind' & Hd').
    exists (NameResolved addressString addresses :: tried ++ new).
    split; [by rewrite <- !app_assoc|].
    change (NameResolved addressString addresses :: tried ++ new)
      with ([NameResolved addressString addresses] ++ tried ++ new).
    rewrite !resolvedNames_app, !resolvedAddresses_app, !filter_app,
      !length_app, Hn, Ha, Hbind, Hd, Hn', Hbind', Hd'.
    rewrite resolvedAddresses_single.
    repeat split; simpl; lia.
Qed.

(** X4: what a completed [wake] does on the network. The names it resolves
    are the host's unique addresses, in their order, followed by
    255.255.255.255; it binds one socket for every address the resolutions
    returned; and it writes five datagrams for every socket that bound. *)
Theorem wake_trace_shape (net : Network) (h : NvComputer) b tr :
  state h ≠ CS_ONLINE → QByteArray_isNull (macAddress h) = false →
  wake net h = Done (b, tr) →
  (∃ l, uniqueAddresses h = Done l ∧
        resolvedNames tr = l ++ [QStr "255.255.255.255"]) ∧
  length (filter isBind tr) = length (resolvedAddresses tr) ∧
  length (filter isDatagram tr) = 5 * length (filter isBound tr).
Proof.
  intros Hoff Hmac. unfold wake.
  rewrite bool_decide_eq_false_2, Hmac by done.
  destruct (Q_ASSERT _); simpl; [|done].
  destruct (uniqueAddresses h) as [l|]; simpl; [|done].
  intros [= E].
  destruct (wake_names_trace net (wolPayload (macAddress h))
              (l ++ [QStr "255.255.255.255"]) false [])
    as (new & E2 & Hn & Hb & Hd).
  rewrite E in E2. simpl in E2. subst new.
  split; [by exists l | done].
Qed.

(** X3: for a host that is not online and whose mac is not null, [wake] runs
    to its end, with no assertion failing, exactly when the mac holds six
    bytes and one of the four address fields is not empty. *)
Theorem wake_completes_iff (net : Network) (h : NvComputer) :
  state h ≠ CS_ONLINE → QByteArray_isNull (macAddress h) = false →
  (∃ r, wake net h = Done r) ↔
  QByteArray_count (macAddress h) = 6 ∧
  Exists nonEmptyText (candidateAddresses h).
Proof.
  intros Hoff Hmac. unfold wake.
  rewrite bool_decide_eq_false_2, Hmac by done.
  destruct (macAddress h) as [|mac] eqn:Em; [done|].
  rewrite wolPayload_bytes. unfold QByteArray_count, QByteArray_data.
  rewrite length_app, length_replicate, length_mjoin_replicate.
  rewrite <- uniqueAddresses_Done_iff.
  destruct (decide (length mac = 6)) as [Hlen|Hlen].
  - rewrite bool_decide_eq_true_2 by lia. simpl.
    destruct (uniqueAddresses h) as [l|]; simpl.
    + split; [intros _; split; [done | by eexists] | by eexists].
    + split; [by intros [? ?] | by intros [_ [? ?]]].
  - rewrite bool_decide_eq_false_2 by lia. simpl.
    split; [by intros [? ?] | by intros [? _]].
Qed.

(** X5: the flag [wake] returns is true exactly when [writeDatagram]
    returned a value other than 0 for some datagram, and every datagram goes
    to one of the five ports of [WOL_PORTS]. *)
Theorem wake_true_iff_accepted (net : Network) (h : NvComputer) b tr :
  state h ≠ CS_ONLINE → wake net h = Done (b, tr) →
  (b = true ↔ Exists accepted tr) ∧
  ∀ p dest port ret, DatagramWritten p dest port ret ∈ tr → port ∈ WOL_PORTS.
Proof.
  intros Hoff Hwake. destruct (wake_flag net h b tr Hoff Hwake) as [Hb HF].
  split; [done|]. intros p dest port ret Hin.
  rewrite Forall_forall in HF. by destruct (HF _ Hin) as (_ & ? & _).
Qed.


(** ** The record built from a server's answer *)

Lemma split_at_length sep s : length (split_at sep s) = S (occurrences sep s).
Proof.
  induction s as [|c s IH]; simpl; [done|].
  destruct (bool_decide (c = sep)); simpl; [by rewrite IH|].
  destruct (split_at sep s); simpl in *; lia.
Qed.

Lemma foldl_append_char {A} (f : A → byte) l : ∀ init,
  l ≠ [] →
  foldl (λ mac o, QByteArray_append_char mac (f o)) init l =
  QBytes (QByteArray_data init ++ (f <$> l)).
Proof.
  induction l as [|o l IH]; intros init Hne; [done|]. simpl.
  destruct l as [|o' l].
  - done.
  - rewrite IH by done. unfold QByteArray_append_char at 1. simpl.
    by rewrite <- app_assoc.
Qed.

(** X6: the record [NvComputer(address, serverInfo)] builds. Its name is
    never null, it is online at the address queried, it has no manual address
    and no app list; its mac is null exactly when the server reports
    00:00:00:00:00:00, and holds otherwise one byte for each part of the
    reported string between colons. *)
Theorem fromServerInfo_record `{QStringToInt} (http : NvHTTP)
    (address serverInfo : QString) :
  let computer := NvComputer_fromServerInfo http address serverInfo in
  let mac := getXmlString http serverInfo "mac" in
  QString_isNull (name computer) = false ∧
  state computer = CS_ONLINE ∧ activeAddress computer = address ∧
  manualAddress computer = QNull ∧ appList computer = [] ∧
  (sameText mac (QStr "00:00:00:00:00:00") → macAddress computer = QBNull) ∧
  (¬ sameText mac (QStr "00:00:00:00:00:00") →
   QByteArray_isNull (macAddress computer) = false ∧
   QByteArray_count (macAddress computer)
     = S (occurrences ":"%char (QString_data mac))).
Proof.
  intros computer mac. subst computer. unfold NvComputer_fromServerInfo.
  record_cbn. fold mac.
  split; [by destruct (getXmlString http serverInfo "hostname")|].
  do 4 (split; [reflexivity|]).
  unfold QString_neb, QString_eqb. split.
  - intros Hs. by rewrite bool_decide_eq_true_2.
  - intros Hs. rewrite bool_decide_eq_false_2 by done. simpl.
    assert (Hparts : QString_split ":"%char mac ≠ []).
    { unfold QString_split. intros E%fmap_nil_inv.
      pose proof (split_at_length ":"%char (QString_data mac)) as Hl.
      by rewrite E in Hl. }
    rewrite foldl_append_char by done. split; [done|].
    unfold QByteArray_count, QString_split. simpl.
    by rewrite !length_fmap, split_at_length.
Qed.

Lemma uniqueAddresses_active_first h :
  nonEmptyText (activeAddress h) →
  ∃ l, uniqueAddresses h = Done (activeAddress h :: l).
Proof.
  intros Hne. rewrite uniqueAddresses_unfold. unfold expectedAddresses.
  unfold candidateAddresses. rewrite filter_cons_True by done. simpl.
  by eexists.
Qed.

(** ** The manager, again *)

Lemma startPollingComputer_workers c m m' :
  workers_sound m → startPollingComputer c m = Done m' → workers_sound m'.
Proof.
  intros Hw. unfold startPollingComputer.
  destruct (m_Polling m) eqn:Hp; simpl; [|by intros [= <-]].
  destruct (m_PollThreads m !! QMap_key (uuid c)) as [t|] eqn:E.
  - destruct (isRunning t); simpl; [by intros [= <-] | done].
  - destruct Hw as (Hoff & Hbr & Hrun). intros [= <-].
    split; [simpl; congruence|]. split; [simpl; by rewrite Hp in Hbr|]. simpl.
    intros k t. destruct (decide (QMap_key (uuid c) = k)) as [<-|Hne].
    + rewrite lookup_insert_eq. by intros [= <-].
    + rewrite lookup_insert_ne by done. apply Hrun.
Qed.

Lemma startPollingComputer_polling c m m' :
  startPollingComputer c m = Done m' →
  m_Polling m' = m_Polling m ∧ m_MdnsBrowser m' = m_MdnsBrowser m.
Proof.
  unfold startPollingComputer.
  destruct (m_Polling m) eqn:Hp; simpl; [|by intros [= <-]].
  destruct (m_PollThreads m !! QMap_key (uuid c)) as [t|].
  - destruct (isRunning t); simpl; [by intros [= <-] | done].
  - by intros [= <-].
Qed.

Lemma startPolling_workers m m' :
  workers_sound m → startPolling m = Done m' → workers_sound m'.
Proof.
  intros Hw. unfold startPolling. destruct (m_Polling m) eqn:Hp; [by intros [= <-]|].
  set (m1 := {| m_Polling := true |}).
  assert (Hw1 : workers_sound m1).
  { destruct Hw as (Hoff & Hbr & Hrun). split; [done|]. split; [|done].
    simpl. split; [done | by eexists]. }
  intros Hfold.
  apply (foldlM_invariant workers_sound _ _ _ _) in Hfold; [done | | done].
  intros a c a' Ha _ Hstep. by eapply startPollingComputer_workers.
Qed.

Lemma stopPollingAsync_workers m : workers_sound m → workers_sound (stopPollingAsync m).
Proof.
  intros Hw. unfold stopPollingAsync.
  destruct (m_Polling m) eqn:Hp; simpl; [|done].
  split; [done|]. split; simpl.
  - split; [by intros [? ?] | done].
  - by intros k t ?%lookup_empty_Some.
Qed.

Lemma deleteHost_workers c m m' :
  workers_sound m → deleteHost c m = Done m' → workers_sound m'.
Proof.
  intros (Hoff & Hbr & Hrun). unfold deleteHost.
  destruct (match m_PollThreads m !! QMap_key (uuid c) with
            | Some t => _ | None => _ end); simpl; [|done].
  intros [= <-]. split; simpl.
  - intros Hp. rewrite (Hoff Hp). apply delete_empty.
  - split; [done|]. intros k t [_ ?]%lookup_delete_Some. by apply Hrun.
Qed.

Section Workers.
Context `{NvAppEq} `{QStringToInt}.

Lemma addNewHost_workers http address mdns m r :
  workers_sound m → addNewHost http address mdns m = Done r → workers_sound r.2.
Proof.
  intros Hw. unfold addNewHost.
  destruct (getServerInfo http address) as [serverInfo|]; [|by intros [= <-]].
  set (newComputer := if mdns then _ else _).
  destruct (m_KnownHosts m !! QMap_key (uuid newComputer)) as [existing|].
  - destruct (update existing newComputer) as [[changed h']|]; simpl; [|done].
    intros [= <-]. simpl. by destruct changed.
  - match goal with |- context [startPollingComputer ?c ?m0] =>
      destruct (startPollingComputer c m0) as [m2|] eqn:Es end; simpl; [|done].
    intros [= <-]. simpl.
    apply startPollingComputer_workers in Es; done.
Qed.

Lemma handleMdnsServiceResolved_workers http computer address m m' :
  workers_sound m →
  handleMdnsServiceResolved http computer address m = Done m' →
  workers_sound m'.
Proof.
  intros Hw. unfold handleMdnsServiceResolved.
  destruct (addNewHost _ _ _ _) as [r|] eqn:E; simpl; [|done].
  intros [= <-]. by apply addNewHost_workers in E.
Qed.

Lemma reachable_workers m : reachable m → workers_sound m.
Proof.
  induction 1;
    eauto using startPolling_workers, stopPollingAsync_workers,
      addNewHost_workers, deleteHost_workers,
      handleMdnsServiceResolved_workers.
  split; [done|]. split; simpl; [split; [by intros [? ?] | done]|].
  by intros k t ?%lookup_empty_Some.
Qed.

(** X18: every state the manager can reach is consistent: records are
    filed under their own uuid, workers exist only for hosts of the table
    and only while polling is on, every registered worker is running and
    filed under the uuid of its host, and there is a browser exactly while
    polling is on. *)
Theorem reachable_invariant (m : ComputerManager) :
  reachable m → table_consistent m ∧ workers_sound m.
Proof. intros Hr. split; [by apply reachable_consistent | by apply reachable_workers]. Qed.
End Workers.

Lemma QMap_keys_elem_of {A} (m : gmap string A) k :
  k ∈ QMap_keys m ↔ is_Some (m !! k).
Proof.
  unfold QMap_keys. rewrite merge_sort_Permutation.
  rewrite list_elem_of_fmap. split.
  - intros ([k' x] & -> & Hin). apply elem_of_map_to_list in Hin. by eexists.
  - intros [x Hx]. exists (k, x). split; [done|]. by apply elem_of_map_to_list.
Qed.

Lemma QMap_keys_NoDup {A} (m : gmap string A) : NoDup (QMap_keys m).
Proof.
  unfold QMap_keys. rewrite merge_sort_Permutation. apply NoDup_fst_map_to_list.
Qed.

Lemma QMap_keys_length {A} (m : gmap string A) : length (QMap_keys m) = size m.
Proof.
  unfold QMap_keys. rewrite merge_sort_Permutation, length_fmap.
  by rewrite length_map_to_list.
Qed.

Lemma QMap_values_elem_of {A} (m : gmap string A) x :
  x ∈ QMap_values m ↔ ∃ k, m !! k = Some x.
Proof.
  unfold QMap_values. rewrite list_elem_of_omap. split.
  - intros (k & _ & Hk). by exists k.
  - intros [k Hk]. exists k. split; [|done]. apply QMap_keys_elem_of. by eexists.
Qed.

Lemma omap_length_all {A B} (f : A → option B) l :
  Forall (λ x, is_Some (f x)) l → length (omap f l) = length l.
Proof.
  induction 1 as [|x l [y Hy] _ IH]; simpl; [done|]. by rewrite Hy, <- IH.
Qed.

Lemma QMap_values_length {A} (m : gmap string A) : length (QMap_values m) = size m.
Proof.
  unfold QMap_values. rewrite omap_length_all; [apply QMap_keys_length|].
  apply Forall_forall. intros k. apply QMap_keys_elem_of.
Qed.

Lemma foldlM_startPollingComputer l : ∀ m,
  m_Polling m = true →
  (∀ k t, m_PollThreads m !! k = Some t → thr_status t = Running) →
  foldlM (λ m computer, startPollingComputer computer m) m l =
  Done (with_threads (started l (m_PollThreads m)) m).
Proof.
  induction l as [|c l IH]; intros m Hp Hrun; simpl.
  - by destruct m.
  - unfold startPollingComputer at 1. rewrite Hp. simpl.
    destruct (m_PollThreads m !! QMap_key (uuid c)) as [t|] eqn:E.
    + unfold isRunning. rewrite (Hrun _ _ E). simpl. by apply IH.
    + simpl. rewrite IH; [| done |].
      { unfold started, with_threads. simpl. by rewrite Hp. }
      simpl. intros k t. destruct (decide (QMap_key (uuid c) = k)) as [<-|Hne].
      * rewrite lookup_insert_eq. by intros [= <-].
      * rewrite lookup_insert_ne by done. apply Hrun.
Qed.

Lemma started_lookup l : ∀ threads k,
  started l threads !! k =
  match threads !! k with
  | Some t => Some t
  | None => (λ c, mkPcMonitorThread (uuid c) Running false false)
              <$> head (filter (λ c, QMap_key (uuid c) = k) l)
  end.
Proof.
  induction l as [|c l IH]; intros threads k; simpl.
  - by destruct (threads !! k).
  - rewrite IH.
    destruct (threads !! QMap_key (uuid c)) as [t|] eqn:E.
    + destruct (threads !! k) as [t'|] eqn:E'; [done|].
      rewrite filter_cons_False; [done|]. intros <-. congruence.
    + destruct (decide (QMap_key (uuid c) = k)) as [<-|Hne].
      * rewrite lookup_insert_eq, E. by rewrite filter_cons_True.
      * rewrite lookup_insert_ne by done. by rewrite filter_cons_False.
Qed.

Lemma head_filter_key (hosts : gmap string NvComputer) k :
  (∀ k h, hosts !! k = Some h → QMap_key (uuid h) = k) →
  head (filter (λ c, QMap_key (uuid c) = k) (QMap_values hosts)) = hosts !! k.
Proof.
  intros Hkey.
  destruct (filter (λ c, QMap_key (uuid c) = k) (QMap_values hosts))
    as [|c l] eqn:E; simpl.
  - destruct (hosts !! k) as [h|] eqn:Eh; [|done].
    assert (Hin : h ∈ filter (λ c, QMap_key (uuid c) = k) (QMap_values hosts)).
    { apply list_elem_of_filter. split; [by eapply Hkey|].
      apply QMap_values_elem_of. by exists k. }
    rewrite E in Hin. by apply elem_of_nil in Hin.
  - assert (Hin : c ∈ filter (λ c, QMap_key (uuid c) = k) (QMap_values hosts)).
    { rewrite E. left. }
    apply list_elem_of_filter in Hin as [Hk [k' Hc]%QMap_values_elem_of].
    pose proof (Hkey _ _ Hc) as Hk'. rewrite Hk in Hk'. subst k'.
    by rewrite Hc.
Qed.

(** Turning polling on, from a manager that does not poll: the browser is
    created and exactly one running worker is registered for each host of
    the table, under the host's key; nothing else changes. *)
Lemma startPolling_fresh m :
  m_Polling m = false → m_PollThreads m = ∅ → table_consistent m →
  ∃ m', startPolling m = Done m' ∧
        m_Polling m' = true ∧
        m_MdnsBrowser m' = Some "_nvstream._tcp.local."%string ∧
        m_KnownHosts m' = m_KnownHosts m ∧
        m_PendingResolution m' = m_PendingResolution m ∧
        saved m' = saved m ∧ notified m' = notified m ∧
        detached m' = detached m ∧
        m_PollThreads m' =
          (λ h, mkPcMonitorThread (uuid h) Running false false)
            <$> m_KnownHosts m.
Proof.
  intros Hp Hth [Hkey _]. unfold startPolling. rewrite Hp.
  rewrite foldlM_startPollingComputer; [| done |].
  2:{ simpl. rewrite Hth. by intros k t ?%lookup_empty_Some. }
  eexists. split; [done|]. simpl. repeat split.
  apply map_eq. intros k. rewrite started_lookup, Hth, lookup_empty, lookup_fmap.
  by rewrite head_filter_key.
Qed.

(** X12: the first [startPolling] (polling off, no worker registered) on a
    consistent table turns polling on, creates the browser for
    [_nvstream._tcp.local.], and registers exactly one running worker for
    every host of the table; the table, the pending resolutions, the
    settings and the notifications are as before. *)
Theorem startPolling_starts_workers (m : ComputerManager) :
  m_Polling m = false → m_PollThreads m = ∅ → table_consistent m →
  ∃ m', startPolling m = Done m' ∧
        m_Polling m' = true ∧
        m_MdnsBrowser m' = Some "_nvstream._tcp.local."%string ∧
        m_KnownHosts m' = m_KnownHosts m ∧
        m_PendingResolution m' = m_PendingResolution m ∧
        saved m' = saved m ∧ notified m' = notified m ∧
        detached m' = detached m ∧
        m_PollThreads m' =
          (λ h, mkPcMonitorThread (uuid h) Running false false)
            <$> m_KnownHosts m.
Proof. apply startPolling_fresh. Qed.

Lemma omap_lookup_fmap {A B C} (f : A → B) (g : B → C) (m : gmap string A)
    (keys : list string) :
  g <$> omap (λ k, (f <$> m) !! k) keys = (g ∘ f) <$> omap (λ k, m !! k) keys.
Proof.
  induction keys as [|k keys IH]; [done|]. simpl.
  rewrite lookup_fmap. destruct (m !! k); simpl; [f_equal|]; apply IH.
Qed.

(** X13: [startPolling] followed by [stopPollingAsync]: polling is off,
    the browser is gone, no worker is registered and no resolution is
    pending; the table, the settings and the notifications are as before
    [startPolling]; and one worker for every host, in the order of the keys,
    has been interrupted and left to delete itself when it ends. *)
Theorem startPolling_then_stop (m : ComputerManager) :
  m_Polling m = false → m_PollThreads m = ∅ → table_consistent m →
  ∃ m1, startPolling m = Done m1 ∧
    let m2 := stopPollingAsync m1 in
    m_Polling m2 = false ∧ m_MdnsBrowser m2 = None ∧ m_PollThreads m2 = ∅ ∧
    m_PendingResolution m2 = [] ∧
    m_KnownHosts m2 = m_KnownHosts m ∧ saved m2 = saved m ∧
    notified m2 = notified m ∧
    detached m2 =
      detached m ++
      ((λ h, mkPcMonitorThread (uuid h) Running true true)
         <$> QMap_values (m_KnownHosts m)).
Proof.
  intros Hp Hth Hc.
  destruct (startPolling_fresh m Hp Hth Hc)
    as (m1 & Hs & Hp1 & _ & Hh & _ & Hsv & Hn & Hd & Ht).
  exists m1. split; [done|]. cbv zeta. unfold stopPollingAsync. rewrite Hp1.
  simpl. repeat split; try done. rewrite Hd. f_equal.
  rewrite Ht. unfold QMap_values.
  assert (Hkeys : QMap_keys ((λ h, mkPcMonitorThread (uuid h) Running false false)
                               <$> m_KnownHosts m) = QMap_keys (m_KnownHosts m)).
  { unfold QMap_keys. f_equal. rewrite map_to_list_fmap, <- list_fmap_compose.
    apply list_fmap_ext. by intros ? [k h] ?. }
  rewrite Hkeys. apply omap_lookup_fmap.
Qed.

(** X14: [deleteHost] fails its assertion exactly when a worker that was
    never started is registered for the host; otherwise the host and its
    worker are removed from the table and the registry, and nothing else
    changes: in particular the settings are not saved and no notification is
    sent. *)
Theorem deleteHost_effect (computer : NvComputer) (m : ComputerManager) :
  (deleteHost computer m = AssertionFailed ↔
   ∃ t, m_PollThreads m !! QMap_key (uuid computer) = Some t ∧
        thr_status t = NotStarted) ∧
  ∀ m', deleteHost computer m = Done m' →
    m_KnownHosts m' = delete (QMap_key (uuid computer)) (m_KnownHosts m) ∧
    m_PollThreads m' = delete (QMap_key (uuid computer)) (m_PollThreads m) ∧
    saved m' = saved m ∧ notified m' = notified m ∧
    m_Polling m' = m_Polling m ∧ m_MdnsBrowser m' = m_MdnsBrowser m ∧
    m_PendingResolution m' = m_PendingResolution m ∧
    detached m' = detached m.
Proof.
  unfold deleteHost.
  destruct (m_PollThreads m !! QMap_key (uuid computer)) as [t|] eqn:E.
  - unfold isFinished, wait, requestInterruption. simpl.
    destruct (thr_status t) eqn:Es; simpl.
    + split; [split; [by exists t | done] | done].
    + split; [split; [done | by intros (? & [= <-] & ?); congruence]|].
      by intros m' [= <-].
    + split; [split; [done | by intros (? & [= <-] & ?); congruence]|].
      by intros m' [= <-].
  - simpl. split; [split; [done | by intros (? & ? & _)]|].
    by intros m' [= <-].
Qed.

Lemma omap_lookup_keys {A} (key : A → string) (m : gmap string A) (keys : list string) :
  (∀ k, k ∈ keys → is_Some (m !! k)) →
  (∀ k x, m !! k = Some x → key x = k) →
  key <$> omap (λ k, m !! k) keys = keys.
Proof.
  intros Hin Hkey. induction keys as [|k keys IH]; [done|].
  destruct (Hin k) as [x Hx]; [by left|]. cbn. rewrite Hx. cbn.
  rewrite (Hkey _ _ Hx). f_equal. apply IH. intros k' Hk'. apply Hin. by right.
Qed.

(** X11: in a consistent table, [getComputers] returns every host of the
    table and nothing else, each uuid once, in the order of the keys. *)
Theorem getComputers_lists_table (m : ComputerManager) :
  table_consistent m →
  (∀ h, h ∈ getComputers m ↔ m_KnownHosts m !! QMap_key (uuid h) = Some h) ∧
  length (getComputers m) = size (m_KnownHosts m) ∧
  NoDup (QMap_key ∘ uuid <$> getComputers m) ∧
  Sorted QMap_key_le (QMap_key ∘ uuid <$> getComputers m).
Proof.
  intros [Hkey _].
  assert (Hkeys : QMap_key ∘ uuid <$> getComputers m = QMap_keys (m_KnownHosts m)).
  { unfold getComputers, QMap_values. apply omap_lookup_keys.
    - intros k. apply QMap_keys_elem_of.
    - intros k h Hh. by apply Hkey. }
  rewrite Hkeys. split; [|split; [|split]].
  - intros h. unfold getComputers. rewrite QMap_values_elem_of. split.
    + intros [k Hk]. by rewrite (Hkey _ _ Hk).
    + intros Hh. by eexists.
  - apply QMap_values_length.
  - apply QMap_keys_NoDup.
  - unfold QMap_keys. apply Sorted_merge_sort. apply _.
Qed.

Section NoAssertion.
Context `{NvAppEq} `{QStringToInt}.

(** X19: no assertion of the manager fails in a state it can reach:
    [startPolling], [deleteHost], [addNewHost] and
    [handleMdnsServiceResolved] all run to their end. *)
Theorem reachable_no_assertion (m : ComputerManager) :
  reachable m →
  (∃ m', startPolling m = Done m') ∧
  (∀ computer, ∃ m', deleteHost computer m = Done m') ∧
  (∀ http address mdns, ∃ r, addNewHost http address mdns m = Done r) ∧
  (∀ http computer address,
     ∃ m', handleMdnsServiceResolved http computer address m = Done m').
Proof.
  intros Hr.
  pose proof (reachable_consistent _ Hr) as Hc.
  pose proof (reachable_workers _ Hr) as (Hoff & Hbr & Hrun).
  assert (Hadd : ∀ http address mdns, ∃ r, addNewHost http address mdns m = Done r).
  { intros http address mdns.
    destruct (getServerInfo http address) as [info|] eqn:Hinfo.
    - destruct (addNewHost_query_answered http address mdns m) as (m' & Hm' & _);
        [by eexists | done | by eexists].
    - eexists. by apply addNewHost_query_failed. }
  split; [|split; [|split]].
  - unfold startPolling. destruct (m_Polling m) eqn:Hp; [by eexists|].
    eexists. apply foldlM_startPollingComputer; [done|].
    cbn. rewrite (Hoff eq_refl). by intros k t ?%lookup_empty_Some.
  - intros computer. unfold deleteHost.
    destruct (m_PollThreads m !! QMap_key (uuid computer)) as [t|] eqn:Ht.
    + destruct (Hrun _ _ Ht) as [Hst _].
      unfold wait, requestInterruption, isFinished. cbn. rewrite Hst. cbn.
      by eexists.
    + cbn. by eexists.
  - exact Hadd.
  - intros http computer address. unfold handleMdnsServiceResolved.
    destruct (Hadd http (QStr (toString address)) true) as [r ->]. cbn.
    by eexists.
Qed.

End NoAssertion.

(** ** Adding a host, again *)

Lemma update_Done_inv `{NvAppEq} this that r :
  update this that = Done r →
  QString_eqb (uuid this) (uuid that) = true ∧
  r = (changed_flag this that, merged this that).
Proof.
  intros Hu. destruct (QString_eqb (uuid this) (uuid that)) eqn:Hid.
  - rewrite (update_unfold _ _ Hid) in Hu. by injection Hu as <-.
  - unfold update in Hu. rewrite Hid in Hu. discriminate.
Qed.

Lemma startPollingComputer_frame c m m' :
  startPollingComputer c m = Done m' →
  m_Polling m' = m_Polling m ∧ m_MdnsBrowser m' = m_MdnsBrowser m ∧
  m_KnownHosts m' = m_KnownHosts m ∧
  m_PendingResolution m' = m_PendingResolution m ∧
  saved m' = saved m ∧ notified m' = notified m ∧ detached m' = detached m ∧
  (∀ k, k ≠ QMap_key (uuid c) → m_PollThreads m' !! k = m_PollThreads m !! k) ∧
  (∀ k t, m_PollThreads m !! k = Some t → m_PollThreads m' !! k = Some t).
Proof.
  unfold startPollingComputer. destruct (negb (m_Polling m)).
  { intros [= <-]. by repeat split. }
  destruct (m_PollThreads m !! QMap_key (uuid c)) as [t|] eqn:Ht.
  - destruct (isRunning t); cbn [Q_ASSERT obind]; [|discriminate].
    intros [= <-]. by repeat split.
  - intros [= <-]. cbn. repeat split; try done.
    + intros k Hk. by rewrite lookup_insert_ne.
    + intros k t Hk. rewrite lookup_insert_ne; [done | congruence].
Qed.

Lemma handleComputerStateChanged_table c m :
  m_KnownHosts (handleComputerStateChanged c m) = m_KnownHosts m.
Proof. done. Qed.

Section AddHostMore.
Context `{NvAppEq} `{QStringToInt}.

(** X15: what a call of [addNewHost] leaves alone. Polling, the browser,
    the pending resolutions and the detached workers are as before; at most
    one key of the table and of the registry changes; no host and no worker
    is removed; and either nothing is notified and the settings are
    untouched, or exactly one notification is added, for a host that is in
    the table. *)
Theorem addNewHost_frame http address mdns m b m' :
  addNewHost http address mdns m = Done (b, m') →
  m_Polling m' = m_Polling m ∧ m_MdnsBrowser m' = m_MdnsBrowser m ∧
  m_PendingResolution m' = m_PendingResolution m ∧ detached m' = detached m ∧
  (∃ key, ∀ k, k ≠ key →
     m_KnownHosts m' !! k = m_KnownHosts m !! k ∧
     m_PollThreads m' !! k = m_PollThreads m !! k) ∧
  (∀ k, is_Some (m_KnownHosts m !! k) → is_Some (m_KnownHosts m' !! k)) ∧
  (∀ k t, m_PollThreads m !! k = Some t → m_PollThreads m' !! k = Some t) ∧
  (notified m' = notified m ∧ saved m' = saved m ∨
   ∃ h, m_KnownHosts m' !! QMap_key (uuid h) = Some h ∧
        notified m' = notified m ++ [uuid h]).
Proof.
  unfold addNewHost.
  destruct (getServerInfo http address) as [info|].
  2:{ intros [= <- <-]. repeat split; try done; [by exists "" | by left]. }
  set (new := if mdns then _ else _).
  destruct (m_KnownHosts m !! QMap_key (uuid new)) as [e|] eqn:He.
  - destruct (update e new) as [r|] eqn:Hu; [|discriminate].
    cbn [obind]. intros [= <- <-].
    apply update_Done_inv in Hu as [Hid ->]. cbn [fst snd].
    assert (Hkey : QMap_key (uuid (merged e new)) = QMap_key (uuid new)).
    { unfold merged. cbn. unfold QString_eqb in Hid.
      by apply bool_decide_eq_true in Hid. }
    destruct (changed_flag e new).
    + unfold handleComputerStateChanged, saveHosts. cbn.
      repeat split; try done.
      * exists (QMap_key (uuid new)). intros k Hk.
        by rewrite lookup_insert_ne.
      * intros k Hk. destruct (decide (k = QMap_key (uuid new))) as [->|Hne].
        -- rewrite lookup_insert. by destruct (decide _).
        -- by rewrite lookup_insert_ne.
      * right. exists (merged e new). split; [|done].
        rewrite Hkey, lookup_insert. by destruct (decide _).
    + cbn. repeat split; try done.
      * exists (QMap_key (uuid new)). intros k Hk.
        by rewrite lookup_insert_ne.
      * intros k Hk. destruct (decide (k = QMap_key (uuid new))) as [->|Hne].
        -- rewrite lookup_insert. by destruct (decide _).
        -- by rewrite lookup_insert_ne.
      * by left.
  - match goal with |- context [startPollingComputer new ?m0] =>
      destruct (startPollingComputer new m0) as [m1|] eqn:Hs end;
      [|discriminate].
    cbn [obind]. intros [= <- <-].
    apply startPollingComputer_frame in Hs
      as (Hp & Hb & Hh & Hr & Hsv & Hn & Hd & Ht & Ht').
    cbn in Hp, Hb, Hh, Hr, Hsv, Hn, Hd, Ht, Ht'.
    unfold handleComputerStateChanged, saveHosts. cbn.
    repeat split; try done.
    + exists (QMap_key (uuid new)). intros k Hk.
      rewrite Hh, lookup_insert_ne by done. split; [done | by apply Ht].
    + intros k Hk. rewrite Hh.
      destruct (decide (k = QMap_key (uuid new))) as [->|Hne].
      * rewrite lookup_insert. by destruct (decide _).
      * by rewrite lookup_insert_ne.
    + right. exists new. rewrite Hh, Hn. split; [|done].
      rewrite lookup_insert. by destruct (decide _).
Qed.

(** X16: after an answered query the table holds, under the uuid the
    server reported, a record that is online with the queried address as its
    active address. When the address is not empty, it is also the record's
    local address (mDNS) or manual address (manual entry), and
    [uniqueAddresses] lists the active address first. A host found by mDNS
    keeps the manual address it had. *)
Theorem addNewHost_files_host http address mdns m info b m' :
  getServerInfo http address = Some info →
  addNewHost http address mdns m = Done (b, m') →
  ∃ h, m_KnownHosts m' !! QMap_key (getXmlString http info "uniqueid") = Some h ∧
       state h = CS_ONLINE ∧
       sameText (activeAddress h) address ∧
       (nonEmptyText address →
          sameText (if mdns then localAddress h else manualAddress h) address ∧
          ∃ l, uniqueAddresses h = Done (activeAddress h :: l)) ∧
       (mdns = true →
          ∀ e, m_KnownHosts m !! QMap_key (getXmlString http info "uniqueid") = Some e →
               manualAddress h = manualAddress e).
Proof.
  intros Hinfo. unfold addNewHost. rewrite Hinfo.
  set (new := if mdns then _ else _).
  assert (Hu : uuid new = getXmlString http info "uniqueid").
  { subst new. by destruct mdns. }
  assert (Hst : state new = CS_ONLINE) by (subst new; by destruct mdns).
  assert (Hact : activeAddress new = address) by (subst new; by destruct mdns).
  assert (Hslot : (if mdns then localAddress new else manualAddress new) = address)
    by (subst new; by destruct mdns).
  assert (Hman : mdns = true → manualAddress new = QNull).
  { intros ->. by subst new. }
  rewrite Hu. clearbody new.
  destruct (m_KnownHosts m !! QMap_key (getXmlString http info "uniqueid"))
    as [e|] eqn:He.
  - destruct (update e new) as [r|] eqn:Hup; [|discriminate].
    cbn [obind]. intros [= <- <-].
    apply update_Done_inv in Hup as [Hid ->]. cbn [fst snd].
    exists (merged e new).
    assert (Hact' : sameText (activeAddress (merged e new)) address).
    { unfold merged. cbn. rewrite Hact. unfold overwrite_if_different.
      destruct (QString_neb (activeAddress e) address) eqn:E; [done|].
      by apply QString_neb_false_sameText. }
    split.
    { destruct (changed_flag e new); [rewrite handleComputerStateChanged_table|];
        cbn; rewrite lookup_insert; by destruct (decide _). }
    split.
    { unfold merged. cbn. rewrite Hst. unfold overwrite_if_different.
      destruct (ComputerState_neb (state e) CS_ONLINE) eqn:E; [done|].
      unfold ComputerState_neb in E. apply negb_false_iff in E.
      by apply bool_decide_eq_true in E. }
    split; [done|]. split.
    + intros Hne. split.
      * destruct mdns; unfold merged; cbn; rewrite Hslot;
          unfold overwrite_if_nonempty_and_different;
          (destruct (negb (QString_isEmpty address) && QString_neb _ address) eqn:E;
           [done|]);
          apply andb_false_iff in E as [E|E];
          [ apply negb_false_iff in E; unfold QString_isEmpty in E;
            by apply bool_decide_eq_true in E
          | by apply QString_neb_false_sameText
          | apply negb_false_iff in E; unfold QString_isEmpty in E;
            by apply bool_decide_eq_true in E
          | by apply QString_neb_false_sameText ].
      * apply uniqueAddresses_active_first.
        unfold nonEmptyText, sameText in *. congruence.
    + intros Hm e' [= <-]. unfold merged. cbn. rewrite (Hman Hm).
      done.
  - match goal with |- context [startPollingComputer new ?m0] =>
      destruct (startPollingComputer new m0) as [m1|] eqn:Hs end;
      [|discriminate].
    cbn [obind]. intros [= <- <-].
    apply startPollingComputer_frame in Hs as (_ & _ & Hh & _).
    cbn in Hh. exists new. split.
    { rewrite handleComputerStateChanged_table. cbn. rewrite Hh, lookup_insert.
      by destruct (decide _). }
    split; [done|]. split; [by rewrite Hact|]. split; [|done].
    intros Hne. split; [by rewrite Hslot|].
    apply uniqueAddresses_active_first. by rewrite Hact.
Qed.

Hypothesis NvApp_eqb_refl : ∀ a : NvApp, NvApp_eqb a a = true.

(** X17: when [addNewHost] is repeated with the same answer from the server,
    the second call changes nothing: the table, the settings and the
    notifications stay as the first call left them (for a reflexive
    [NvApp::operator==]). *)
Theorem addNewHost_again http address mdns m b m' :
  addNewHost http address mdns m = Done (b, m') →
  addNewHost http address mdns m' = Done (b, m').
Proof using NvApp_eqb_refl.
  unfold addNewHost.
  destruct (getServerInfo http address) as [info|].
  2:{ by intros [= <- <-]. }
  set (new := if mdns then _ else _). clearbody new.
  destruct (m_KnownHosts m !! QMap_key (uuid new)) as [e|] eqn:He.
  - destruct (update e new) as [r|] eqn:Hu; [|discriminate].
    cbn [obind]. intros [= <- <-].
    apply update_Done_inv in Hu as [Hid ->]. cbn [fst snd].
    assert (Hid' : QString_eqb (uuid (merged e new)) (uuid new) = true) by done.
    assert (Hlk : ∀ m0, m_KnownHosts m0 = <[QMap_key (uuid new) := merged e new]> (m_KnownHosts m) →
      match m_KnownHosts m0 !! QMap_key (uuid new) with
      | Some existingComputer =>
          r ←! update existingComputer new ;;
          let m2 :=
            {| m_Polling := m_Polling m0;
               m_MdnsBrowser := m_MdnsBrowser m0;
               m_KnownHosts := <[QMap_key (uuid new) := r.2]> (m_KnownHosts m0);
               m_PollThreads := m_PollThreads m0;
               m_PendingResolution := m_PendingResolution m0;
               saved := saved m0;
               notified := notified m0;
               detached := detached m0 |} in
          let m2 := if r.1 then handleComputerStateChanged r.2 m2 else m2 in
          Done (true, m2)
      | None =>
          let m2 :=
            {| m_Polling := m_Polling m0;
               m_MdnsBrowser := m_MdnsBrowser m0;
               m_KnownHosts := <[QMap_key (uuid new) := new]> (m_KnownHosts m0);
               m_PollThreads := m_PollThreads m0;
               m_PendingResolution := m_PendingResolution m0;
               saved := saved m0;
               notified := notified m0;
               detached := detached m0 |} in
          m2 ←! startPollingComputer new m2 ;;
          Done (true, handleComputerStateChanged new m2)
      end = Done (true, m0)).
    { intros m0 Hm0. rewrite Hm0, lookup_insert.
      destruct (decide _); [|done].
      rewrite (update_unfold _ _ Hid'). cbn [obind fst snd].
      rewrite changed_flag_merged, merged_merged by done.
      rewrite insert_insert. destruct (decide _); [|done].
      rewrite <- Hm0. by destruct m0. }
    destruct (changed_flag e new).
    + apply Hlk. by rewrite handleComputerStateChanged_table.
    + by apply Hlk.
  - match goal with |- context [startPollingComputer new ?m0] =>
      destruct (startPollingComputer new m0) as [m1|] eqn:Hs end;
      [|discriminate].
    cbn [obind]. intros [= <- <-].
    apply startPollingComputer_frame in Hs as (_ & _ & Hh & _).
    cbn in Hh.
    rewrite handleComputerStateChanged_table. cbn [m_KnownHosts].
    rewrite Hh, lookup_insert. destruct (decide _); [|done].
    assert (Hid : QString_eqb (uuid new) (uuid new) = true).
    { unfold QString_eqb. by apply bool_decide_eq_true. }
    rewrite (update_unfold _ _ Hid). cbn [obind fst snd].
    rewrite changed_flag_same, merged_same by done.
    f_equal. f_equal.
    set (mm := handleComputerStateChanged new m1).
    assert (Hmm : m_KnownHosts mm = m_KnownHosts m1).
    { subst mm. by rewrite handleComputerStateChanged_table. }
    rewrite <- Hh, <- Hmm.
    clearbody mm. rewrite insert_id; [by destruct mm|].
    rewrite Hmm, Hh, lookup_insert. by destruct (decide _).
Qed.

End AddHostMore.

(** ** The settings store *)

Lemma groupPrefix_cons st st' g gs :
  groupPrefix {| storage := st; groupStack := g :: gs |}
  = groupPrefix {| storage := st'; groupStack := gs |} ++ group_toString g.
Proof.
  unfold groupPrefix. cbn [groupStack].
  rewrite reverse_cons, fmap_app, join_app. cbn. by rewrite app_nil_r.
Qed.

Lemma groupPrefix_stack s s' :
  groupStack s = groupStack s' → groupPrefix s = groupPrefix s'.
Proof. unfold groupPrefix. by intros ->. Qed.

Lemma storage_remove key s k :
  storage (remove key s) !! k
  = if decide (actualKey s key `prefix_of` k) then None else storage s !! k.
Proof.
  unfold remove. cbn [storage]. rewrite map_lookup_filter.
  destruct (storage s !! k) as [v|]; cbn; [|by destruct (decide _)].
  destruct (decide _) as [Hp|Hp].
  - by rewrite option_guard_False by (cbn; tauto).
  - by rewrite option_guard_True.
Qed.

Lemma prefix_snoc_cons {A} (P : list A) x rest :
  (P ++ [x]) `prefix_of` (P ++ x :: rest).
Proof. exists rest. by rewrite <- app_assoc. Qed.

Lemma only_under_refl Q s : only_under Q s s.
Proof. by intros k _. Qed.

Lemma only_under_trans Q s1 s2 s3 :
  only_under Q s1 s2 → only_under Q s2 s3 → only_under Q s1 s3.
Proof. intros H1 H2 k Hk. by rewrite H2, H1. Qed.

Lemma only_under_weaken Q Q' s s' :
  Q `prefix_of` Q' → only_under Q' s s' → only_under Q s s'.
Proof. intros HQ H k Hk. apply H. intros Hk'. apply Hk. by etrans. Qed.

Lemma setValue_under key v s : only_under (actualKey s key) s (setValue key v s).
Proof. intros k Hk. apply storage_setValue_ne. by intros ->. Qed.

Lemma setValue_under_prefix Q key v s :
  Q `prefix_of` groupPrefix s → only_under Q s (setValue key v s).
Proof.
  intros HQ. eapply only_under_weaken; [|apply setValue_under].
  etrans; [exact HQ|]. by apply prefix_app_r.
Qed.

Lemma remove_under key s : only_under (actualKey s key) s (remove key s).
Proof. intros k Hk. rewrite storage_remove. by destruct (decide _). Qed.

Lemma actualKey_prefix s key : groupPrefix s `prefix_of` actualKey s key.
Proof. by apply prefix_app_r. Qed.

Lemma groupStack_beginWriteArray name s :
  groupStack (beginWriteArray name s) = mkQSettingsGroup name 0 0 :: groupStack s.
Proof. done. Qed.

Lemma groupPrefix_beginWriteArray name s :
  groupPrefix (beginWriteArray name s) = groupPrefix s ++ [name].
Proof.
  unfold beginWriteArray, remove. cbn [groupStack storage].
  etrans; [apply (groupPrefix_cons _ (storage s))|]. by destruct s.
Qed.

Lemma beginWriteArray_under name s :
  only_under (groupPrefix s ++ [name; "size"]) s (beginWriteArray name s).
Proof.
  intros k Hk. unfold beginWriteArray. rewrite storage_remove.
  destruct (decide _) as [Hp|]; [|done]. destruct Hk.
  revert Hp. unfold actualKey.
  rewrite (groupPrefix_cons _ (storage s)). cbn.
  destruct s. by rewrite <- app_assoc.
Qed.

Lemma groupPrefix_setArrayIndex i s name n mx gs :
  groupStack s = mkQSettingsGroup name n mx :: gs →
  groupStack (setArrayIndex i s) = mkQSettingsGroup name (S i) (mx `max` S i) :: gs ∧
  storage (setArrayIndex i s) = storage s ∧
  groupPrefix (setArrayIndex i s)
  = groupPrefix {| storage := storage s; groupStack := gs |} ++ [name; pretty (S i)].
Proof.
  intros Hs. unfold setArrayIndex. rewrite Hs. cbn [grp_str grp_maxNum].
  repeat split. by rewrite (groupPrefix_cons _ (storage s)).
Qed.

Lemma endArray_unfold s g gs :
  groupStack s = g :: gs →
  endArray s =
  {| storage := <[groupPrefix {| storage := storage s; groupStack := gs |}
                    ++ [grp_str g; "size"] := VInt (Z.of_nat (grp_maxNum g))]> (storage s);
     groupStack := gs |}.
Proof. intros Hs. unfold endArray. by rewrite Hs. Qed.

Lemma array_prefix_disjoint (P : list string) name i j k :
  (P ++ [name; pretty (S i)]) `prefix_of` k →
  (P ++ [name; pretty (S j)]) `prefix_of` k → i = j.
Proof.
  intros [r1 ->] [r2 Heq]. rewrite <- !app_assoc in Heq.
  apply app_inv_head in Heq. injection Heq as Hp _.
  apply (inj pretty) in Hp. lia.
Qed.

(** ** Writing an array: the loop between [beginWriteArray] and [endArray] *)

Section WriteArray.
Context {A : Type} (body : A → QSettings → QSettings).
Hypothesis body_stack : ∀ a s, groupStack (body a s) = groupStack s.
Hypothesis body_under : ∀ a s, only_under (groupPrefix s) s (body a s).

Lemma loop_snoc s l a :
  foldl (λ s0 (ia : nat * A), body ia.2 (setArrayIndex ia.1 s0))
      s (imap pair (l ++ [a]))
  = body a (setArrayIndex (length l)
      (foldl (λ s0 (ia : nat * A), body ia.2 (setArrayIndex ia.1 s0))
      s (imap pair l))).
Proof using Type.
  rewrite imap_app, foldl_app. cbn. by rewrite Nat.add_0_r.
Qed.

Lemma loop_inv s name l :
  groupStack (foldl (λ s0 (ia : nat * A), body ia.2 (setArrayIndex ia.1 s0))
      (beginWriteArray name s) (imap pair l))
  = mkQSettingsGroup name (length l) (length l) :: groupStack s ∧
  ∀ k, (∀ i, i < length l → ¬ (groupPrefix s ++ [name; pretty (S i)]) `prefix_of` k) →
       storage (foldl (λ s0 (ia : nat * A), body ia.2 (setArrayIndex ia.1 s0))
      (beginWriteArray name s) (imap pair l)) !! k
       = storage (beginWriteArray name s) !! k.
Proof using body_stack body_under.
  induction l as [|a l [IHs IHk]] using rev_ind; [done|].
  rewrite loop_snoc, length_app. cbn [length]. rewrite Nat.add_1_r.
  destruct (groupPrefix_setArrayIndex (length l) _ _ _ _ _ IHs) as (Hs & Hst & Hp).
  rewrite body_stack, Hs. split.
  { f_equal. f_equal. lia. }
  intros k Hk. rewrite body_under.
  - rewrite Hst. apply IHk. intros i Hi. apply Hk. lia.
  - rewrite Hp. rewrite (groupPrefix_stack _ s) by done. apply Hk. lia.
Qed.

Lemma loop_entry s name l j a :
  l !! j = Some a →
  ∃ s_j, groupStack s_j = mkQSettingsGroup name (S j) (S j) :: groupStack s ∧
         groupPrefix s_j = groupPrefix s ++ [name; pretty (S j)] ∧
         ∀ k, (groupPrefix s ++ [name; pretty (S j)]) `prefix_of` k →
              storage s_j !! k = storage (beginWriteArray name s) !! k ∧
              storage (foldl (λ s0 (ia : nat * A), body ia.2 (setArrayIndex ia.1 s0))
      (beginWriteArray name s) (imap pair l)) !! k
              = storage (body a s_j) !! k.
Proof using body_stack body_under.
  revert j a. induction l as [|x l IH] using rev_ind; [done|].
  intros j a Hj. rewrite loop_snoc.
  destruct (loop_inv s name l) as [Hls Hlk].
  destruct (groupPrefix_setArrayIndex (length l) _ _ _ _ _ Hls) as (Hs & Hst & Hp).
  rewrite (groupPrefix_stack {| storage := _; groupStack := groupStack s |} s) in Hp by done.
  destruct (decide (j = length l)) as [->|Hne].
  - rewrite lookup_app_r in Hj by lia. rewrite Nat.sub_diag in Hj. injection Hj as ->.
    eexists. split; [|split; [exact Hp|]].
    { rewrite Hs. f_equal. f_equal. lia. }
    intros k Hk. split; [|done]. rewrite Hst. apply Hlk.
    intros i Hi Hk'. pose proof (array_prefix_disjoint _ _ _ _ _ Hk Hk'). lia.
  - assert (Hlt : j < length l).
    { apply lookup_lt_Some in Hj. rewrite length_app in Hj. cbn in Hj. lia. }
    rewrite lookup_app_l in Hj by lia.
    destruct (IH _ _ Hj) as (s_j & Hsj & Hpj & Hk).
    exists s_j. split; [done|]. split; [done|].
    intros k Hpk. destruct (Hk k Hpk) as [Hk1 Hk2]. split; [done|].
    rewrite body_under, Hst; [done|].
    rewrite Hp. intros Hk'.
    pose proof (array_prefix_disjoint _ _ _ _ _ Hpk Hk'). lia.
Qed.

End WriteArray.

(** ** What [serialize] writes *)

Lemma setValue_lookup key v s :
  storage (setValue key v s) !! actualKey s key = Some v.
Proof. unfold setValue. cbn [storage]. by rewrite lookup_insert, decide_True. Qed.

Lemma storage_setValue key v s :
  storage (setValue key v s) = <[groupPrefix s ++ [key] := v]> (storage s).
Proof. done. Qed.

Lemma groupPrefix_setValue key v s : groupPrefix (setValue key v s) = groupPrefix s.
Proof. done. Qed.

Ltac fields_differ := intros ?%app_inv_head; discriminate.

Lemma serialize_app_fields a s :
  let s' := setValue SER_APPHDR (VBool (app_hdrSupported a))
              (setValue SER_APPID (VInt (app_id a))
                 (setValue SER_APPNAME (VString (app_name a)) s)) in
  storage s' !! (groupPrefix s ++ [SER_APPNAME]) = Some (VString (app_name a)) ∧
  storage s' !! (groupPrefix s ++ [SER_APPID]) = Some (VInt (app_id a)) ∧
  storage s' !! (groupPrefix s ++ [SER_APPHDR]) = Some (VBool (app_hdrSupported a)).
Proof.
  cbv zeta. rewrite !storage_setValue, !groupPrefix_setValue. repeat split.
  - rewrite !lookup_insert_ne by fields_differ. apply lookup_insert_eq.
  - rewrite lookup_insert_ne by fields_differ. apply lookup_insert_eq.
  - apply lookup_insert_eq.
Qed.

Lemma serialize_apps_block s apps :
  let s' := endArray (foldl serialize_app (beginWriteArray SER_APPLIST s)
                        (imap pair apps)) in
  groupStack s' = groupStack s ∧
  only_under (groupPrefix s ++ [SER_APPLIST]) s s' ∧
  storage s' !! (groupPrefix s ++ [SER_APPLIST; "size"])
    = Some (VInt (Z.of_nat (length apps))) ∧
  ∀ j a, apps !! j = Some a →
    storage s' !! (groupPrefix s ++ [SER_APPLIST; pretty (S j); SER_APPNAME])
      = Some (VString (app_name a)) ∧
    storage s' !! (groupPrefix s ++ [SER_APPLIST; pretty (S j); SER_APPID])
      = Some (VInt (app_id a)) ∧
    storage s' !! (groupPrefix s ++ [SER_APPLIST; pretty (S j); SER_APPHDR])
      = Some (VBool (app_hdrSupported a)).
Proof.
  set (body := λ (a : NvApp) (s : QSettings),
    setValue SER_APPHDR (VBool (app_hdrSupported a))
      (setValue SER_APPID (VInt (app_id a))
         (setValue SER_APPNAME (VString (app_name a)) s))).
  change (foldl serialize_app) with
    (foldl (λ s0 (ia : nat * NvApp), body ia.2 (setArrayIndex ia.1 s0))).
  assert (body_stack : ∀ a s, groupStack (body a s) = groupStack s) by done.
  assert (body_under : ∀ a s, only_under (groupPrefix s) s (body a s)).
  { intros a s0. unfold body.
    repeat (eapply only_under_trans; [|by apply setValue_under_prefix]).
    apply only_under_refl. }
  destruct (loop_inv body body_stack body_under s SER_APPLIST apps) as [Hs Hk].
  cbv zeta. rewrite (endArray_unfold _ _ _ Hs). cbn [groupStack storage grp_str grp_maxNum].
  change (groupPrefix {| storage := _; groupStack := groupStack s |}) with (groupPrefix s).
  split; [done|]. split; [|split].
  - intros k Hp. cbn [storage]. rewrite lookup_insert_ne.
    2:{ intros <-. apply Hp. apply prefix_snoc_cons. }
    rewrite Hk.
    + apply beginWriteArray_under. intros Hp'. apply Hp.
      etrans; [|exact Hp']. apply prefix_snoc_cons.
    + intros i _ Hp'. apply Hp. etrans; [|exact Hp'].
      apply prefix_snoc_cons.
  - by rewrite lookup_insert, decide_True.
  - intros j a Hj.
    destruct (loop_entry body body_stack body_under s SER_APPLIST apps j a Hj)
      as (s_j & Hsj & Hpj & Hent).
    assert (Hfield : ∀ f, f ≠ "size" →
      groupPrefix s ++ [SER_APPLIST; pretty (S j); f]
      ≠ groupPrefix s ++ [SER_APPLIST; "size"]).
    { intros f _ Heq. apply app_inv_head in Heq. discriminate. }
    assert (Hunder : ∀ f,
      (groupPrefix s ++ [SER_APPLIST; pretty (S j)])
        `prefix_of` (groupPrefix s ++ [SER_APPLIST; pretty (S j); f])).
    { intros f. exists [f]. by rewrite <- app_assoc. }
    assert (Hkey : ∀ f, actualKey s_j f
                        = groupPrefix s ++ [SER_APPLIST; pretty (S j); f]).
    { intros f. unfold actualKey. by rewrite Hpj, <- app_assoc. }
    pose proof (serialize_app_fields a s_j) as (Hn & Hi & Hh).
    unfold actualKey in Hkey. rewrite !Hkey in Hn, Hi, Hh.
    repeat split;
      (rewrite lookup_insert_ne by (apply not_eq_sym, Hfield; done));
      rewrite (proj2 (Hent _ (Hunder _))); done.
Qed.

Lemma serialize_unfold h s :
  let s7 :=
    setValue SER_MANUALADDR (VString (manualAddress h))
      (setValue SER_REMOTEADDR (VString (remoteAddress h))
         (setValue SER_LOCALADDR (VString (localAddress h))
            (setValue SER_CODECSUPP (VInt (serverCodecModeSupport h))
               (setValue SER_MAC (VBytes (macAddress h))
                  (setValue SER_UUID (VString (uuid h))
                     (setValue SER_NAME (VString (name h)) s)))))) in
  (groupStack s7 = groupStack s ∧
   only_under (groupPrefix s) s s7 ∧
   (∀ k, savedAppKey (groupPrefix s) k → storage s7 !! k = storage s !! k) ∧
   storage s7 !! (groupPrefix s ++ [SER_NAME]) = Some (VString (name h)) ∧
   storage s7 !! (groupPrefix s ++ [SER_UUID]) = Some (VString (uuid h)) ∧
   storage s7 !! (groupPrefix s ++ [SER_MAC]) = Some (VBytes (macAddress h)) ∧
   storage s7 !! (groupPrefix s ++ [SER_CODECSUPP])
     = Some (VInt (serverCodecModeSupport h)) ∧
   storage s7 !! (groupPrefix s ++ [SER_LOCALADDR])
     = Some (VString (localAddress h)) ∧
   storage s7 !! (groupPrefix s ++ [SER_REMOTEADDR])
     = Some (VString (remoteAddress h)) ∧
   storage s7 !! (groupPrefix s ++ [SER_MANUALADDR])
     = Some (VString (manualAddress h))) ∧
  serialize h s =
    if appList_isEmpty (appList h) then s7
    else endArray (foldl serialize_app
                     (beginWriteArray SER_APPLIST (remove SER_APPLIST s7))
                     (imap pair (appList h))).
Proof.
  cbv zeta. split; [|unfold serialize; by destruct (appList h)].
  split; [done|]. split.
  { repeat (eapply only_under_trans; [|by apply setValue_under_prefix]).
    apply only_under_refl. }
  rewrite !storage_setValue, !groupPrefix_setValue. split.
  { intros k [rest ->]. rewrite <- app_assoc.
    by rewrite !lookup_insert_ne by fields_differ. }
  repeat split.
  - rewrite !lookup_insert_ne by fields_differ. apply lookup_insert_eq.
  - rewrite !lookup_insert_ne by fields_differ. apply lookup_insert_eq.
  - rewrite !lookup_insert_ne by fields_differ. apply lookup_insert_eq.
  - rewrite !lookup_insert_ne by fields_differ. apply lookup_insert_eq.
  - rewrite !lookup_insert_ne by fields_differ. apply lookup_insert_eq.
  - rewrite !lookup_insert_ne by fields_differ. apply lookup_insert_eq.
  - apply lookup_insert_eq.
Qed.

Lemma serialize_stack h s : groupStack (serialize h s) = groupStack s.
Proof.
  destruct (serialize_unfold h s) as [(Hs & _) ->].
  destruct (appList_isEmpty (appList h)); [done|].
  by destruct (serialize_apps_block (remove SER_APPLIST
    (setValue SER_MANUALADDR (VString (manualAddress h))
      (setValue SER_REMOTEADDR (VString (remoteAddress h))
         (setValue SER_LOCALADDR (VString (localAddress h))
            (setValue SER_CODECSUPP (VInt (serverCodecModeSupport h))
               (setValue SER_MAC (VBytes (macAddress h))
                  (setValue SER_UUID (VString (uuid h))
                     (setValue SER_NAME (VString (name h)) s)))))))) (appList h))
    as [-> _].
Qed.

Lemma serialize_under h s : only_under (groupPrefix s) s (serialize h s).
Proof.
  destruct (serialize_unfold h s) as [(Hs & Hu & _) ->].
  destruct (appList_isEmpty (appList h)); [done|].
  eapply only_under_trans; [exact Hu|].
  eapply only_under_trans.
  - eapply only_under_weaken; [|apply remove_under].
    unfold actualKey. by apply prefix_app_r.
  - eapply only_under_weaken;
      [|apply (serialize_apps_block (remove SER_APPLIST _) (appList h))].
    by apply prefix_app_r.
Qed.

Lemma serialize_fields h s :
  storage (serialize h s) !! (groupPrefix s ++ [SER_NAME]) = Some (VString (name h)) ∧
  storage (serialize h s) !! (groupPrefix s ++ [SER_UUID]) = Some (VString (uuid h)) ∧
  storage (serialize h s) !! (groupPrefix s ++ [SER_MAC])
    = Some (VBytes (macAddress h)) ∧
  storage (serialize h s) !! (groupPrefix s ++ [SER_CODECSUPP])
    = Some (VInt (serverCodecModeSupport h)) ∧
  storage (serialize h s) !! (groupPrefix s ++ [SER_LOCALADDR])
    = Some (VString (localAddress h)) ∧
  storage (serialize h s) !! (groupPrefix s ++ [SER_REMOTEADDR])
    = Some (VString (remoteAddress h)) ∧
  storage (serialize h s) !! (groupPrefix s ++ [SER_MANUALADDR])
    = Some (VString (manualAddress h)).
Proof.
  destruct (serialize_unfold h s) as [(Hs & Hu & Hk & H1 & H2 & H3 & H4 & H5 & H6 & H7) ->].
  destruct (appList_isEmpty (appList h)); [done|].
  assert (Hkeep : ∀ f, f ≠ SER_APPLIST → ∀ v,
    storage (setValue SER_MANUALADDR (VString (manualAddress h))
      (setValue SER_REMOTEADDR (VString (remoteAddress h))
         (setValue SER_LOCALADDR (VString (localAddress h))
            (setValue SER_CODECSUPP (VInt (serverCodecModeSupport h))
               (setValue SER_MAC (VBytes (macAddress h))
                  (setValue SER_UUID (VString (uuid h))
                     (setValue SER_NAME (VString (name h)) s)))))))
      !! (groupPrefix s ++ [f]) = Some v →
    storage (endArray (foldl serialize_app
      (beginWriteArray SER_APPLIST (remove SER_APPLIST
        (setValue SER_MANUALADDR (VString (manualAddress h))
          (setValue SER_REMOTEADDR (VString (remoteAddress h))
             (setValue SER_LOCALADDR (VString (localAddress h))
                (setValue SER_CODECSUPP (VInt (serverCodecModeSupport h))
                   (setValue SER_MAC (VBytes (macAddress h))
                      (setValue SER_UUID (VString (uuid h))
                         (setValue SER_NAME (VString (name h)) s)))))))))
      (imap pair (appList h)))) !! (groupPrefix s ++ [f]) = Some v).
  { intros f Hf v Hv.
    assert (Hnp : ¬ (groupPrefix s ++ [SER_APPLIST]) `prefix_of` (groupPrefix s ++ [f])).
    { intros [rest Heq]. rewrite <- app_assoc in Heq.
      apply app_inv_head in Heq. cbn in Heq. congruence. }
    destruct (serialize_apps_block (remove SER_APPLIST
      (setValue SER_MANUALADDR (VString (manualAddress h))
        (setValue SER_REMOTEADDR (VString (remoteAddress h))
           (setValue SER_LOCALADDR (VString (localAddress h))
              (setValue SER_CODECSUPP (VInt (serverCodecModeSupport h))
                 (setValue SER_MAC (VBytes (macAddress h))
                    (setValue SER_UUID (VString (uuid h))
                       (setValue SER_NAME (VString (name h)) s)))))))) (appList h))
      as (_ & Hund & _).
    rewrite Hund by exact Hnp. rewrite remove_under by exact Hnp. exact Hv. }
  repeat split; (apply Hkeep; [discriminate | assumption]).
Qed.

Lemma serialize_apps h s :
  appList h ≠ [] →
  storage (serialize h s) !! (groupPrefix s ++ [SER_APPLIST; "size"])
    = Some (VInt (Z.of_nat (length (appList h)))) ∧
  ∀ j a, appList h !! j = Some a →
    storage (serialize h s) !! (groupPrefix s ++ [SER_APPLIST; pretty (S j); SER_APPNAME])
      = Some (VString (app_name a)) ∧
    storage (serialize h s) !! (groupPrefix s ++ [SER_APPLIST; pretty (S j); SER_APPID])
      = Some (VInt (app_id a)) ∧
    storage (serialize h s) !! (groupPrefix s ++ [SER_APPLIST; pretty (S j); SER_APPHDR])
      = Some (VBool (app_hdrSupported a)).
Proof.
  intros Hne. destruct (serialize_unfold h s) as [_ ->].
  destruct (appList h) as [|a0 apps] eqn:Happ; [done|]. cbn [appList_isEmpty].
  rewrite <- Happ.
  destruct (serialize_apps_block (remove SER_APPLIST
    (setValue SER_MANUALADDR (VString (manualAddress h))
      (setValue SER_REMOTEADDR (VString (remoteAddress h))
         (setValue SER_LOCALADDR (VString (localAddress h))
            (setValue SER_CODECSUPP (VInt (serverCodecModeSupport h))
               (setValue SER_MAC (VBytes (macAddress h))
                  (setValue SER_UUID (VString (uuid h))
                     (setValue SER_NAME (VString (name h)) s)))))))) (appList h))
    as (_ & _ & Hsz & Hent).
  split; [exact Hsz | exact Hent].
Qed.

(** ** Operations act key by key *)

Lemma setValue_same K key v s1 s2 :
  same_on K s1 s2 → same_on K (setValue key v s1) (setValue key v s2).
Proof.
  intros [Hs Hk]. split; [done|]. intros k HK.
  rewrite !storage_setValue, (groupPrefix_stack s1 s2 Hs), !lookup_insert.
  destruct (decide _); [done | by apply Hk].
Qed.

Lemma remove_same K key s1 s2 :
  same_on K s1 s2 → same_on K (remove key s1) (remove key s2).
Proof.
  intros [Hs Hk]. split; [done|]. intros k HK.
  rewrite !storage_remove. unfold actualKey.
  rewrite (groupPrefix_stack s1 s2 Hs).
  destruct (decide _); [done | by apply Hk].
Qed.

Lemma beginWriteArray_same K name s1 s2 :
  same_on K s1 s2 → same_on K (beginWriteArray name s1) (beginWriteArray name s2).
Proof.
  intros [Hs Hk]. unfold beginWriteArray. apply remove_same.
  split; [cbn; by rewrite Hs | done].
Qed.

Lemma setArrayIndex_same K i s1 s2 :
  same_on K s1 s2 → same_on K (setArrayIndex i s1) (setArrayIndex i s2).
Proof.
  intros [Hs Hk]. unfold setArrayIndex. rewrite Hs.
  destruct (groupStack s2) eqn:E; (split; [by rewrite ?E|done]).
Qed.

Lemma endArray_same K s1 s2 :
  same_on K s1 s2 → same_on K (endArray s1) (endArray s2).
Proof.
  intros [Hs Hk]. unfold endArray. rewrite Hs.
  destruct (groupStack s2) as [|g gs] eqn:E; [split; [by rewrite E|done]|].
  split; [done|]. intros k HK. cbn [storage].
  change (groupPrefix {| storage := storage s1; groupStack := gs |})
    with (groupPrefix {| storage := storage s2; groupStack := gs |}).
  rewrite !lookup_insert. destruct (decide _); [done | by apply Hk].
Qed.

Lemma foldl_same {B} K (f : QSettings → B → QSettings) l :
  (∀ s1 s2 b, same_on K s1 s2 → same_on K (f s1 b) (f s2 b)) →
  ∀ s1 s2, same_on K s1 s2 → same_on K (foldl f s1 l) (foldl f s2 l).
Proof.
  intros Hf. induction l as [|b l IH]; [done|].
  intros s1 s2 Hs. cbn. by apply IH, Hf.
Qed.

Lemma serialize_same K h s1 s2 :
  same_on K s1 s2 → same_on K (serialize h s1) (serialize h s2).
Proof.
  intros Hs. unfold serialize. cbv zeta.
  destruct (negb (appList_isEmpty (appList h))).
  - apply endArray_same, foldl_same.
    + intros t1 t2 ia Ht. unfold serialize_app. cbv zeta.
      by do 3 apply setValue_same; apply setArrayIndex_same.
    + apply beginWriteArray_same, remove_same. by do 7 apply setValue_same.
  - by do 7 apply setValue_same.
Qed.

(** ** What [saveHosts] writes *)

Lemma saveHosts_saved m :
  saved (saveHosts m) !! [SER_HOSTS; "size"]
    = Some (VInt (Z.of_nat (length (QMap_keys (m_KnownHosts m))))) ∧
  (∀ key, ¬ [SER_HOSTS] `prefix_of` key →
          saved (saveHosts m) !! key = saved m !! key) ∧
  (∀ i k h, QMap_keys (m_KnownHosts m) !! i = Some k →
            m_KnownHosts m !! k = Some h →
     ∃ s_i, groupPrefix s_i = [SER_HOSTS; pretty (S i)] ∧
       ∀ key, [SER_HOSTS; pretty (S i)] `prefix_of` key →
              key ≠ [SER_HOSTS; "size"] →
              storage s_i !! key = None ∧
              saved (saveHosts m) !! key = storage (serialize h s_i) !! key).
Proof.
  set (hosts := m_KnownHosts m). set (keys := QMap_keys hosts).
  set (body := λ (k : string) (s : QSettings),
    match hosts !! k with
    | Some computer => serialize computer s
    | None => s
    end).
  set (s1 := remove SER_HOSTS {| storage := saved m; groupStack := [] |}).
  assert (Hsaved : saved (saveHosts m)
    = storage (endArray (foldl (λ s0 (ik : nat * string),
                                  body ik.2 (setArrayIndex ik.1 s0))
                          (beginWriteArray SER_HOSTS s1) (imap pair keys)))) by done.
  rewrite Hsaved. clear Hsaved.
  assert (body_stack : ∀ a s, groupStack (body a s) = groupStack s).
  { intros a s. unfold body. destruct (hosts !! a); [apply serialize_stack | done]. }
  assert (body_under : ∀ a s, only_under (groupPrefix s) s (body a s)).
  { intros a s. unfold body.
    destruct (hosts !! a); [apply serialize_under | apply only_under_refl]. }
  destruct (loop_inv body body_stack body_under s1 SER_HOSTS keys) as [Hs Hk].
  rewrite (endArray_unfold _ _ _ Hs). cbn [groupStack storage grp_str grp_maxNum].
  change (groupPrefix {| storage := _; groupStack := groupStack s1 |})
    with (@nil string). cbn [app].
  assert (Hs1 : ∀ key, [SER_HOSTS] `prefix_of` key →
                       storage (beginWriteArray SER_HOSTS s1) !! key = None).
  { intros key Hp. unfold beginWriteArray. rewrite storage_remove.
    destruct (decide _); [done|]. cbn [storage]. unfold s1.
    rewrite storage_remove. by rewrite decide_True. }
  split; [apply lookup_insert_eq|]. split.
  - intros key Hp. rewrite lookup_insert_ne.
    2:{ intros <-. apply Hp. by exists ["size"]. }
    rewrite Hk.
    + rewrite beginWriteArray_under.
      * unfold s1. rewrite storage_remove. by rewrite decide_False.
      * intros Hp'. apply Hp. etrans; [|exact Hp']. by exists ["size"].
    + intros i _ Hp'. apply Hp. etrans; [|exact Hp']. by exists [pretty (S i)].
  - intros i k h Hi Hh.
    destruct (loop_entry body body_stack body_under s1 SER_HOSTS keys i k Hi)
      as (s_i & Hsi & Hpi & Hent).
    exists s_i. split; [exact Hpi|]. intros key Hp Hne.
    destruct (Hent key Hp) as [He1 He2]. split.
    + rewrite He1. apply Hs1. etrans; [|exact Hp]. by exists [pretty (S i)].
    + rewrite lookup_insert_ne by done. rewrite He2. unfold body. by rewrite Hh.
Qed.

Lemma saveHosts_same_table m1 m2 key :
  m_KnownHosts m1 = m_KnownHosts m2 → [SER_HOSTS] `prefix_of` key →
  saved (saveHosts m1) !! key = saved (saveHosts m2) !! key.
Proof.
  intros Hh Hp. unfold saveHosts. cbv zeta. cbn [saved]. rewrite Hh.
  refine (proj2 (_ : same_on (λ k, [SER_HOSTS] `prefix_of` k) _ _) key Hp).
  apply endArray_same, foldl_same.
  - intros s1 s2 ik Hs. unfold saveHosts_host. cbv zeta.
    destruct (m_KnownHosts m2 !! ik.2).
    + by apply serialize_same, setArrayIndex_same.
    + by apply setArrayIndex_same.
  - apply beginWriteArray_same. split; [done|].
    intros k Hk. rewrite !storage_remove. by rewrite !decide_True.
Qed.

Lemma omap_lookup_total {A B} (f : A → option B) (l : list A) :
  (∀ x, x ∈ l → is_Some (f x)) → ∀ i, omap f l !! i = l !! i ≫= f.
Proof.
  induction l as [|x l IH]; intros Hall i; [done|].
  destruct (Hall x) as [y Hy]; [by left|]. cbn. rewrite Hy.
  destruct i as [|i]; cbn; [done|].
  apply IH. intros z Hz. apply Hall. by right.
Qed.

Lemma getComputers_lookup m i h :
  getComputers m !! i = Some h →
  ∃ k, QMap_keys (m_KnownHosts m) !! i = Some k ∧ m_KnownHosts m !! k = Some h.
Proof.
  unfold getComputers, QMap_values. rewrite omap_lookup_total.
  - destruct (QMap_keys (m_KnownHosts m) !! i) as [k|]; [|done].
    cbn. intros Hk. by exists k.
  - intros k Hk. by apply QMap_keys_elem_of.
Qed.

(** X7: [serialize], in any group of the settings: the group is the same
    afterwards, no key outside it is touched, the seven settings of the host
    hold its fields; with an empty app list the keys of a saved app list are
    left as they are, and with a non-empty one the array [apps] holds its
    size and the name, id and hdr flag of every app, numbered from 1. *)
Theorem serialize_writes (h : NvComputer) (s : QSettings) :
  let P := groupPrefix s in
  let st := storage (serialize h s) in
  groupStack (serialize h s) = groupStack s ∧
  (∀ k, ¬ P `prefix_of` k → st !! k = storage s !! k) ∧
  st !! (P ++ [SER_NAME]) = Some (VString (name h)) ∧
  st !! (P ++ [SER_UUID]) = Some (VString (uuid h)) ∧
  st !! (P ++ [SER_MAC]) = Some (VBytes (macAddress h)) ∧
  st !! (P ++ [SER_CODECSUPP]) = Some (VInt (serverCodecModeSupport h)) ∧
  st !! (P ++ [SER_LOCALADDR]) = Some (VString (localAddress h)) ∧
  st !! (P ++ [SER_REMOTEADDR]) = Some (VString (remoteAddress h)) ∧
  st !! (P ++ [SER_MANUALADDR]) = Some (VString (manualAddress h)) ∧
  (appList h = [] → ∀ k, savedAppKey P k → st !! k = storage s !! k) ∧
  (appList h ≠ [] →
     st !! (P ++ [SER_APPLIST; "size"])
       = Some (VInt (Z.of_nat (length (appList h)))) ∧
     ∀ j a, appList h !! j = Some a →
       st !! (P ++ [SER_APPLIST; pretty (S j); SER_APPNAME])
         = Some (VString (app_name a)) ∧
       st !! (P ++ [SER_APPLIST; pretty (S j); SER_APPID])
         = Some (VInt (app_id a)) ∧
       st !! (P ++ [SER_APPLIST; pretty (S j); SER_APPHDR])
         = Some (VBool (app_hdrSupported a))).
Proof.
  cbv zeta. split; [apply serialize_stack|]. split; [apply serialize_under|].
  destruct (serialize_fields h s) as (H1 & H2 & H3 & H4 & H5 & H6 & H7).
  do 7 (split; [assumption|]). split.
  - intros Happ k Hk. by apply serialize_without_apps.
  - apply serialize_apps.
Qed.

Lemma saveHosts_entry m i k h :
  QMap_keys (m_KnownHosts m) !! i = Some k → m_KnownHosts m !! k = Some h →
  let P := [SER_HOSTS; pretty (S i)] in
  let st := saved (saveHosts m) in
  st !! [SER_HOSTS; "size"] = Some (VInt (Z.of_nat (length (QMap_keys (m_KnownHosts m))))) ∧
  st !! (P ++ [SER_NAME]) = Some (VString (name h)) ∧
  st !! (P ++ [SER_UUID]) = Some (VString (uuid h)) ∧
  st !! (P ++ [SER_MAC]) = Some (VBytes (macAddress h)) ∧
  st !! (P ++ [SER_CODECSUPP]) = Some (VInt (serverCodecModeSupport h)) ∧
  st !! (P ++ [SER_LOCALADDR]) = Some (VString (localAddress h)) ∧
  st !! (P ++ [SER_REMOTEADDR]) = Some (VString (remoteAddress h)) ∧
  st !! (P ++ [SER_MANUALADDR]) = Some (VString (manualAddress h)) ∧
  (appList h = [] → ∀ k, savedAppKey P k → st !! k = None) ∧
  (appList h ≠ [] →
     st !! (P ++ [SER_APPLIST; "size"])
       = Some (VInt (Z.of_nat (length (appList h)))) ∧
     ∀ j a, appList h !! j = Some a →
       st !! (P ++ [SER_APPLIST; pretty (S j); SER_APPNAME])
         = Some (VString (app_name a)) ∧
       st !! (P ++ [SER_APPLIST; pretty (S j); SER_APPID])
         = Some (VInt (app_id a)) ∧
       st !! (P ++ [SER_APPLIST; pretty (S j); SER_APPHDR])
         = Some (VBool (app_hdrSupported a))).
Proof.
  intros Hk Hh. cbv zeta.
  destruct (saveHosts_saved m) as (Hsize & _ & Hent).
  destruct (Hent i k h Hk Hh) as (s_i & Hp & Hkeys).
  assert (Hlong : ∀ f rest,
    [SER_HOSTS; pretty (S i)] `prefix_of` ([SER_HOSTS; pretty (S i)] ++ f :: rest) ∧
    [SER_HOSTS; pretty (S i)] ++ f :: rest ≠ [SER_HOSTS; "size"]).
  { intros f rest. split; [by apply prefix_app_r | discriminate]. }
  assert (Hget : ∀ f rest,
    saved (saveHosts m) !! (SER_HOSTS :: pretty (S i) :: f :: rest)
    = storage (serialize h s_i) !! (groupPrefix s_i ++ f :: rest)).
  { intros f rest. rewrite Hp. apply Hkeys; apply Hlong. }
  split.
  { exact Hsize. }
  destruct (serialize_fields h s_i) as (H1 & H2 & H3 & H4 & H5 & H6 & H7).
  cbn [app]. rewrite !Hget. do 7 (split; [assumption|]). split.
  - intros Happ key Hkey. pose proof Hkey as [rest ->].
    cbn [app]. rewrite ?Hget.
    rewrite <- Hp in Hkey.
    destruct (serialize_without_apps h s_i _ Happ Hkey) as [Hsame _].
    rewrite Hp in Hsame. cbn [app] in Hsame. rewrite Hp. cbn [app].
    rewrite Hsame.
    apply (Hkeys (SER_HOSTS :: pretty (S i) :: SER_APPLIST :: rest));
      apply (Hlong SER_APPLIST rest).
  - intros Happ. destruct (serialize_apps h s_i Happ) as [Hsz Happs].
    split; [by rewrite ?Hget|].
    intros j a Hj. rewrite ?Hget. by apply Happs.
Qed.

(** X8: host number [i] of [getComputers] is saved under [hosts/<i+1>/]:
    after [saveHosts] the settings hold the number of hosts under
    [hosts/size], the seven settings of the host, its app list as the array
    [apps] when it has one, and no key of an app list when it has none. *)
Theorem saveHosts_writes (m : ComputerManager) (i : nat) (h : NvComputer) :
  getComputers m !! i = Some h →
  let P := [SER_HOSTS; pretty (S i)] in
  let st := saved (saveHosts m) in
  st !! [SER_HOSTS; "size"] = Some (VInt (Z.of_nat (length (getComputers m)))) ∧
  st !! (P ++ [SER_NAME]) = Some (VString (name h)) ∧
  st !! (P ++ [SER_UUID]) = Some (VString (uuid h)) ∧
  st !! (P ++ [SER_MAC]) = Some (VBytes (macAddress h)) ∧
  st !! (P ++ [SER_CODECSUPP]) = Some (VInt (serverCodecModeSupport h)) ∧
  st !! (P ++ [SER_LOCALADDR]) = Some (VString (localAddress h)) ∧
  st !! (P ++ [SER_REMOTEADDR]) = Some (VString (remoteAddress h)) ∧
  st !! (P ++ [SER_MANUALADDR]) = Some (VString (manualAddress h)) ∧
  (appList h = [] → ∀ k, savedAppKey P k → st !! k = None) ∧
  (appList h ≠ [] →
     st !! (P ++ [SER_APPLIST; "size"])
       = Some (VInt (Z.of_nat (length (appList h)))) ∧
     ∀ j a, appList h !! j = Some a →
       st !! (P ++ [SER_APPLIST; pretty (S j); SER_APPNAME])
         = Some (VString (app_name a)) ∧
       st !! (P ++ [SER_APPLIST; pretty (S j); SER_APPID])
         = Some (VInt (app_id a)) ∧
       st !! (P ++ [SER_APPLIST; pretty (S j); SER_APPHDR])
         = Some (VBool (app_hdrSupported a))).
Proof.
  intros Hi. cbv zeta.
  destruct (getComputers_lookup _ _ _ Hi) as (k & Hk & Hh).
  unfold getComputers. rewrite QMap_values_length, <- QMap_keys_length.
  exact (saveHosts_entry m i k h Hk Hh).
Qed.

(** X9: [saveHosts] replaces the saved [hosts] array: the settings outside
    it are untouched, and what is saved inside it afterwards depends on the
    table only, not on what was saved there before. *)
Theorem saveHosts_replaces_array (m : ComputerManager) :
  (∀ key, ¬ [SER_HOSTS] `prefix_of` key →
          saved (saveHosts m) !! key = saved m !! key) ∧
  (∀ m2 key, m_KnownHosts m2 = m_KnownHosts m → [SER_HOSTS] `prefix_of` key →
             saved (saveHosts m2) !! key = saved (saveHosts m) !! key).
Proof.
  split; [apply saveHosts_saved|].
  intros m2 key Hh Hp. by apply saveHosts_same_table.
Qed.

(** X10: saving twice is saving once. *)
Theorem saveHosts_again (m : ComputerManager) :
  saveHosts (saveHosts m) = saveHosts m.
Proof.
  assert (Hsaved : saved (saveHosts (saveHosts m)) = saved (saveHosts m)).
  { apply map_eq. intros key.
    destruct (decide ([SER_HOSTS] `prefix_of` key)) as [Hp|Hp].
    - by apply saveHosts_same_table.
    - by rewrite (proj1 (proj2 (saveHosts_saved _))). }
  assert (Hrec : ∀ m',
    saveHosts m' = {| m_Polling := m_Polling m';
                      m_MdnsBrowser := m_MdnsBrowser m';
                      m_KnownHosts := m_KnownHosts m';
                      m_PollThreads := m_PollThreads m';
                      m_PendingResolution := m_PendingResolution m';
                      saved := saved (saveHosts m');
                      notified := notified m';
                      detached := detached m' |}) by done.
  rewrite (Hrec (saveHosts m)), Hsaved. by rewrite (Hrec m) at 9.
Qed.

(** ** Reading the settings back *)

Lemma value_lookup key s : value key s = storage s !! (groupPrefix s ++ [key]).
Proof. done. Qed.

Section ReadBack.
Context `{R : QVariantRead}.

Lemma read_app_step acc s i name a b gs :
  groupStack s = mkQSettingsGroup name a b :: gs →
  let base := groupPrefix {| storage := storage s; groupStack := gs |} in
  let r := read_app (acc, s) i in
  storage r.2 = storage s ∧
  groupStack r.2 = mkQSettingsGroup name (S i) (b `max` S i) :: gs ∧
  r.1 = acc ++
    [{| app_name := QVariant_toString
          (storage s !! (base ++ [name; pretty (S i); SER_APPNAME]));
        app_id := QVariant_toInt
          (storage s !! (base ++ [name; pretty (S i); SER_APPID]));
        app_hdrSupported := QVariant_toBool
          (storage s !! (base ++ [name; pretty (S i); SER_APPHDR])) |}].
Proof using Type.
  intros Hs. cbv zeta.
  destruct (groupPrefix_setArrayIndex i s _ _ _ _ Hs) as (Hst & Hsto & Hp).
  unfold read_app. cbn [fst snd]. rewrite !value_lookup, Hp, Hsto, <- !app_assoc.
  by repeat split.
Qed.

Lemma read_app_loop name gs st n : ∀ i0 acc s a b,
  storage s = st → groupStack s = mkQSettingsGroup name a b :: gs →
  let base := groupPrefix {| storage := st; groupStack := gs |} in
  let r := foldl read_app (acc, s) (seq i0 n) in
  storage r.2 = st ∧
  (∃ a' b', groupStack r.2 = mkQSettingsGroup name a' b' :: gs) ∧
  r.1 = acc ++
    ((λ i, {| app_name := QVariant_toString
                (st !! (base ++ [name; pretty (S i); SER_APPNAME]));
              app_id := QVariant_toInt
                (st !! (base ++ [name; pretty (S i); SER_APPID]));
              app_hdrSupported := QVariant_toBool
                (st !! (base ++ [name; pretty (S i); SER_APPHDR])) |})
       <$> seq i0 n).
Proof using Type.
  induction n as [|n IH]; intros i0 acc s a b Hst Hs; cbv zeta.
  { cbn. rewrite app_nil_r. split; [done|]. split; [by eauto|done]. }
  cbn [seq foldl].
  destruct (read_app_step acc s i0 _ _ _ _ Hs) as (Hsto & Hstack & Hacc).
  destruct (read_app (acc, s) i0) as [acc1 s1] eqn:E. cbn [fst snd] in *.
  rewrite Hst in Hsto, Hacc.
  destruct (IH (S i0) acc1 s1 _ _ Hsto Hstack) as (H1 & H2 & H3).
  split; [done|]. split; [done|].
  rewrite H3, Hacc, <- app_assoc. done.
Qed.

Lemma NvComputer_fromSettings_unfold s :
  let P := groupPrefix s in
  let st := storage s in
  (NvComputer_fromSettings s).1 =
    {| name := QVariant_toString (st !! (P ++ [SER_NAME]));
       uuid := QVariant_toString (st !! (P ++ [SER_UUID]));
       macAddress := QVariant_toByteArray (st !! (P ++ [SER_MAC]));
       serverCodecModeSupport := QVariant_toInt (st !! (P ++ [SER_CODECSUPP]));
       localAddress := QVariant_toString (st !! (P ++ [SER_LOCALADDR]));
       remoteAddress := QVariant_toString (st !! (P ++ [SER_REMOTEADDR]));
       manualAddress := QVariant_toString (st !! (P ++ [SER_MANUALADDR]));
       pairState := PS_UNKNOWN;
       currentGameId := 0;
       activeAddress := QNull;
       state := CS_UNKNOWN;
       gfeVersion := QNull;
       appVersion := QNull;
       appList :=
         (λ i, {| app_name := QVariant_toString
                    (st !! (P ++ [SER_APPLIST; pretty (S i); SER_APPNAME]));
                  app_id := QVariant_toInt
                    (st !! (P ++ [SER_APPLIST; pretty (S i); SER_APPID]));
                  app_hdrSupported := QVariant_toBool
                    (st !! (P ++ [SER_APPLIST; pretty (S i); SER_APPHDR])) |})
           <$> seq 0 (Z.to_nat (QVariant_toInt
                                  (st !! (P ++ [SER_APPLIST; "size"])))) |} ∧
  storage (NvComputer_fromSettings s).2 = storage s ∧
  groupStack (NvComputer_fromSettings s).2 = groupStack s.
Proof using Type.
  cbv zeta. unfold NvComputer_fromSettings. cbv zeta.
  unfold beginReadArray. cbv zeta. cbn [fst snd].
  set (s0 := {| storage := storage s;
                groupStack := mkQSettingsGroup SER_APPLIST 0 0 :: groupStack s |}).
  assert (Hsize : value "size" s0 = storage s !! (groupPrefix s ++ [SER_APPLIST; "size"])).
  { rewrite value_lookup. unfold s0. cbn [storage].
    rewrite (groupPrefix_cons _ (storage s)). cbn. rewrite <- app_assoc.
    by destruct s. }
  rewrite Hsize.
  destruct (read_app_loop SER_APPLIST (groupStack s) (storage s)
              (Z.to_nat (QVariant_toInt
                 (storage s !! (groupPrefix s ++ [SER_APPLIST; "size"]))))
              0 [] s0 0 0 eq_refl eq_refl) as (Hsto & (a' & b' & Hstack) & Happs).
  cbv zeta in Happs. rewrite Happs. cbn [app].
  split; [|split].
  - rewrite !value_lookup.
    change (groupPrefix {| storage := storage s; groupStack := groupStack s |})
      with (groupPrefix s). done.
  - unfold endArray_read. cbn [storage]. exact Hsto.
  - unfold endArray_read. cbn [groupStack]. by rewrite Hstack.
Qed.

Lemma NvComputer_fromSettings_ext s s' :
  storage s = storage s' → groupPrefix s = groupPrefix s' →
  (NvComputer_fromSettings s).1 = (NvComputer_fromSettings s').1.
Proof using Type.
  intros Hst Hp.
  rewrite (proj1 (NvComputer_fromSettings_unfold s)),
          (proj1 (NvComputer_fromSettings_unfold s')).
  by rewrite Hst, Hp.
Qed.

Lemma read_host_loop st n : ∀ i0 known s a b,
  storage s = st → groupStack s = [mkQSettingsGroup SER_HOSTS a b] →
  (foldl read_host (known, s) (seq i0 n)).1 =
  foldl (λ known computer, <[QMap_key (uuid computer) := computer]> known) known
    ((λ i, (NvComputer_fromSettings
              {| storage := st;
                 groupStack := [mkQSettingsGroup SER_HOSTS (S i) (S i)] |}).1)
       <$> seq i0 n).
Proof using Type.
  induction n as [|n IH]; intros i0 known s a b Hst Hs; [done|].
  cbn [seq foldl fmap list_fmap].
  destruct (groupPrefix_setArrayIndex i0 s _ _ _ _ Hs) as (Hstack & Hsto & Hp).
  destruct (NvComputer_fromSettings_unfold (setArrayIndex i0 s)) as (_ & Hsto' & Hstack').
  unfold read_host at 2. cbv zeta. cbn [fst snd].
  rewrite (NvComputer_fromSettings_ext (setArrayIndex i0 s)
             {| storage := st;
                groupStack := [mkQSettingsGroup SER_HOSTS (S i0) (S i0)] |}).
  - eapply IH; [by rewrite Hsto', Hsto | by rewrite Hstack', Hstack].
  - by rewrite Hsto.
  - rewrite Hp. by rewrite (groupPrefix_cons _ st).
Qed.

(** The constructor files the records it reads, in the order of the saved
    array. *)
Lemma ComputerManager_new_manager_of saved :
  ComputerManager_new saved =
  manager_of
    ((λ i, (NvComputer_fromSettings
              {| storage := saved;
                 groupStack := [mkQSettingsGroup SER_HOSTS (S i) (S i)] |}).1)
       <$> seq 0 (Z.to_nat (QVariant_toInt (saved !! [SER_HOSTS; "size"]))))
    saved.
Proof using Type.
  unfold ComputerManager_new, manager_of. cbv zeta. f_equal.
  unfold beginReadArray. cbv zeta. cbn [fst snd].
  by rewrite (read_host_loop saved _ 0 ∅
                {| storage := saved;
                   groupStack := [mkQSettingsGroup SER_HOSTS 0 0] |}
                0 0 eq_refl eq_refl).
Qed.

Hypothesis R_reads : reads_what_was_written R.

Lemma read_back_entry h s :
  let P := groupPrefix s in
  let st := storage s in
  st !! (P ++ [SER_NAME]) = Some (VString (name h)) →
  st !! (P ++ [SER_UUID]) = Some (VString (uuid h)) →
  st !! (P ++ [SER_MAC]) = Some (VBytes (macAddress h)) →
  st !! (P ++ [SER_CODECSUPP]) = Some (VInt (serverCodecModeSupport h)) →
  st !! (P ++ [SER_LOCALADDR]) = Some (VString (localAddress h)) →
  st !! (P ++ [SER_REMOTEADDR]) = Some (VString (remoteAddress h)) →
  st !! (P ++ [SER_MANUALADDR]) = Some (VString (manualAddress h)) →
  (appList h = [] → ∀ k, savedAppKey P k → st !! k = None) →
  (appList h ≠ [] →
     st !! (P ++ [SER_APPLIST; "size"])
       = Some (VInt (Z.of_nat (length (appList h)))) ∧
     ∀ j a, appList h !! j = Some a →
       st !! (P ++ [SER_APPLIST; pretty (S j); SER_APPNAME])
         = Some (VString (app_name a)) ∧
       st !! (P ++ [SER_APPLIST; pretty (S j); SER_APPID])
         = Some (VInt (app_id a)) ∧
       st !! (P ++ [SER_APPLIST; pretty (S j); SER_APPHDR])
         = Some (VBool (app_hdrSupported a))) →
  read_back h (NvComputer_fromSettings s).1.
Proof using R_reads.
  cbv zeta. intros H1 H2 H3 H4 H5 H6 H7 Hnone Hsome.
  destruct R_reads as (Lstr & Lbytes & Lint & Lint0 & Lbool).
  rewrite (proj1 (NvComputer_fromSettings_unfold s)).
  unfold read_back. cbn. rewrite H1, H2, H3, H4, H5, H6, H7.
  repeat split; try done.
  destruct (appList h) as [|a0 apps] eqn:Happ.
  - rewrite (Hnone eq_refl), Lint0; [constructor|]. apply prefix_snoc_cons.
  - destruct Hsome as [Hsize Hent]; [done|]. rewrite Hsize, Lint, Nat2Z.id.
    rewrite <- Happ in *. clear Happ.
    apply Forall2_same_length_lookup_2.
    + by rewrite length_fmap, length_seq.
    + intros j a r Ha Hr. rewrite list_lookup_fmap in Hr.
      destruct (seq 0 (length (appList h)) !! j) as [j'|] eqn:Hj; [|done].
      apply lookup_seq in Hj as [-> _]. cbn in Hr. injection Hr as <-.
      destruct (Hent j a Ha) as (Hn & Hi & Hh). rewrite Hn, Hi, Hh.
      unfold app_read_back. cbn. by rewrite Lint, Lbool.
Qed.

End ReadBack.

Lemma foldl_insert_lookup (l : list NvComputer) :
  NoDup (QMap_key ∘ uuid <$> l) →
  let table :=
    foldl (λ known computer, <[QMap_key (uuid computer) := computer]> known)
          (∅ : gmap string NvComputer) l in
  (∀ c, c ∈ l → table !! QMap_key (uuid c) = Some c) ∧
  (∀ k, k ∉ (QMap_key ∘ uuid <$> l) → table !! k = None).
Proof.
  cbv zeta. induction l as [|x l IH] using rev_ind; intros Hnd.
  { split; [by intros c ?%elem_of_nil | done]. }
  rewrite fmap_app in Hnd. apply NoDup_app in Hnd as (Hnd & Hx & _).
  destruct (IH Hnd) as [IH1 IH2]. rewrite foldl_app. cbn [foldl]. split.
  - intros c [Hc|Hc%list_elem_of_singleton]%elem_of_app.
    + rewrite lookup_insert_ne; [by apply IH1|].
      intros Heq. apply (Hx (QMap_key (uuid c))).
      * apply list_elem_of_fmap. by exists c.
      * cbn. rewrite <- Heq. by left.
    + subst c. apply lookup_insert_eq.
  - intros k Hk. rewrite fmap_app in Hk. apply not_elem_of_app in Hk as [Hk1 Hk2].
    rewrite lookup_insert_ne; [by apply IH2|].
    intros <-. apply Hk2. by left.
Qed.

Section RoundTrip.
Context `{R : QVariantRead}.
Hypothesis R_reads : reads_what_was_written R.

Lemma saveHosts_read_back m :
  table_consistent m →
  ∀ k, match m_KnownHosts m !! k with
       | Some h =>
           ∃ r, m_KnownHosts (ComputerManager_new (saved (saveHosts m))) !! k
                = Some r ∧ read_back h r
       | None =>
           m_KnownHosts (ComputerManager_new (saved (saveHosts m))) !! k = None
       end.
Proof using R_reads.
  intros [Hkey _].
  rewrite ComputerManager_new_manager_of.
  destruct (saveHosts_saved m) as (Hsize & _ & _).
  rewrite Hsize. rewrite (proj1 (proj2 (proj2 R_reads))), Nat2Z.id.
  set (st := saved (saveHosts m)).
  set (keys := QMap_keys (m_KnownHosts m)).
  set (rec := λ i, (NvComputer_fromSettings
                      {| storage := st;
                         groupStack := [mkQSettingsGroup SER_HOSTS (S i) (S i)] |}).1).
  unfold manager_of. cbn [m_KnownHosts].
  assert (Hrec : ∀ i k h, keys !! i = Some k → m_KnownHosts m !! k = Some h →
                          read_back h (rec i)).
  { intros i k h Hi Hh.
    destruct (saveHosts_entry m i k h Hi Hh)
      as (_ & H1 & H2 & H3 & H4 & H5 & H6 & H7 & Hnone & Hsome).
    apply (read_back_entry R_reads h
             {| storage := st;
                groupStack := [mkQSettingsGroup SER_HOSTS (S i) (S i)] |});
      assumption. }
  clearbody rec.
  assert (Hkeys : QMap_key ∘ uuid <$> (rec <$> seq 0 (length keys)) = keys).
  { apply list_eq. intros i. rewrite !list_lookup_fmap.
    destruct (keys !! i) as [k|] eqn:Hi.
    - pose proof (lookup_lt_Some _ _ _ Hi) as Hlt.
      rewrite (lookup_seq_lt _ _ _ Hlt). cbn.
      assert (Hin : k ∈ keys) by (by eapply list_elem_of_lookup_2).
      apply QMap_keys_elem_of in Hin as [h Hh].
      destruct (Hrec i k h Hi Hh) as (_ & Hu & _).
      f_equal. unfold compose, QMap_key. unfold sameText in Hu.
      rewrite Hu. by apply Hkey.
    - apply lookup_ge_None in Hi. by rewrite lookup_seq_ge. }
  destruct (foldl_insert_lookup (rec <$> seq 0 (length keys))) as [Hin Hout].
  { rewrite Hkeys. apply QMap_keys_NoDup. }
  intros k. destruct (m_KnownHosts m !! k) as [h|] eqn:Hh.
  - assert (Hk : k ∈ keys) by (apply QMap_keys_elem_of; by eexists).
    apply list_elem_of_lookup_1 in Hk as [i Hi].
    pose proof (lookup_lt_Some _ _ _ Hi) as Hlt.
    pose proof (Hrec i k h Hi Hh) as Hrb.
    exists (rec i). split; [|done].
    assert (Hk : QMap_key (uuid (rec i)) = k).
    { destruct Hrb as (_ & Hu & _). unfold QMap_key. unfold sameText in Hu.
      rewrite Hu. by apply Hkey. }
    rewrite <- Hk at 1. apply Hin. apply list_elem_of_fmap. exists i.
    split; [done|]. apply elem_of_seq. lia.
  - apply Hout. rewrite Hkeys. intros Hk%QMap_keys_elem_of.
    rewrite Hh in Hk. by destruct Hk.
Qed.

(** X20: what one run saves, the next run starts with. For a consistent
    table, the constructor run on the settings [saveHosts] wrote files a
    record under every key of the table and under no other; the record holds
    the data of the saved fields (name, uuid, mac, codec support, local,
    remote and manual address, app list) and starts with the live fields
    reset (no active address, no running game, pair state and state
    unknown, no versions). Assumed of the settings backend: the data written
    is the data read. *)
Theorem saved_hosts_read_back (m : ComputerManager) :
  table_consistent m →
  ∀ k, match m_KnownHosts m !! k with
       | Some h =>
           ∃ r, m_KnownHosts (ComputerManager_new (saved (saveHosts m))) !! k
                = Some r ∧ read_back h r
       | None =>
           m_KnownHosts (ComputerManager_new (saved (saveHosts m))) !! k = None
       end.
Proof using R_reads. apply saveHosts_read_back. Qed.

End RoundTrip.

Lemma file_backend_reads : reads_what_was_written file_backend.
Proof. by repeat split. Qed.

Example read_back_null_mac :
  m_KnownHosts
    (@ComputerManager_new file_backend
       (saved (saveHosts (manager_of [set_macAddress QBNull den_pc] ∅)))) !! "X"
  = Some host_without_mac.
Proof. vm_compute. reflexivity. Qed.

Section Constructed.
Context `{NvAppEq} `{QStringToInt} `{QVariantRead}.

(** X21: whatever the settings hold, the constructor leaves a manager that
    is consistent and idle: polling off, no browser, no worker, no pending
    resolution, and the settings as they were. *)
Theorem ComputerManager_new_reachable (settings : gmap (list string) QVariant) :
  let m := ComputerManager_new settings in
  reachable m ∧ table_consistent m ∧
  m_Polling m = false ∧ m_MdnsBrowser m = None ∧ m_PollThreads m = ∅ ∧
  m_PendingResolution m = [] ∧ saved m = settings.
Proof.
  cbv zeta. rewrite ComputerManager_new_manager_of.
  split; [apply reach_constructed|]. split; [apply manager_of_consistent|done].
Qed.
End Constructed.

(** ** Operations, composed *)

Lemma deleteHost_Done_inv c m m' :
  deleteHost c m = Done m' →
  m' = {| m_Polling := m_Polling m;
          m_MdnsBrowser := m_MdnsBrowser m;
          m_KnownHosts := delete (QMap_key (uuid c)) (m_KnownHosts m);
          m_PollThreads := delete (QMap_key (uuid c)) (m_PollThreads m);
          m_PendingResolution := m_PendingResolution m;
          saved := saved m;
          notified := notified m;
          detached := detached m |}.
Proof.
  unfold deleteHost.
  destruct (match m_PollThreads m !! QMap_key (uuid c) with
            | Some t => _ | None => _ end); cbn [obind]; [|done].
  by intros [= <-].
Qed.

(** X22: after [deleteHost] the host is no longer among [getComputers]; the
    other hosts are. *)
Theorem deleteHost_getComputers (computer : NvComputer) (m m' : ComputerManager) :
  table_consistent m → deleteHost computer m = Done m' →
  ∀ h, h ∈ getComputers m' ↔
       h ∈ getComputers m ∧ QMap_key (uuid h) ≠ QMap_key (uuid computer).
Proof.
  intros [Hkey _] ->%deleteHost_Done_inv h. unfold getComputers. cbn [m_KnownHosts].
  rewrite !QMap_values_elem_of. split.
  - intros [k Hk]. apply lookup_delete_Some in Hk as [Hne Hk].
    split; [by exists k|]. by rewrite (Hkey _ _ Hk).
  - intros [[k Hk] Hne]. exists k. apply lookup_delete_Some. split; [|done].
    by rewrite <- (Hkey _ _ Hk).
Qed.

Section DeleteRestart.
Context `{R : QVariantRead}.
Hypothesis R_reads : reads_what_was_written R.

(** X23: [deleteHost] does not save. A host deleted after a save is gone
    from the table, but its saved entry stays: the constructor of the next
    run files it again. *)
Theorem deleted_host_returns (m m' : ComputerManager) (h : NvComputer) :
  table_consistent m →
  m_KnownHosts m !! QMap_key (uuid h) = Some h →
  deleteHost h (saveHosts m) = Done m' →
  m_KnownHosts m' !! QMap_key (uuid h) = None ∧
  ∃ r, m_KnownHosts (ComputerManager_new (saved m')) !! QMap_key (uuid h) = Some r ∧
       read_back h r.
Proof using R_reads.
  intros Hc Hh ->%deleteHost_Done_inv. cbn [m_KnownHosts saved]. split.
  - apply lookup_delete_eq.
  - pose proof (saveHosts_read_back R_reads m Hc (QMap_key (uuid h))) as Hrb.
    by rewrite Hh in Hrb.
Qed.

End DeleteRestart.

Section Discovery.
Context `{NvAppEq} `{QStringToInt}.

Lemma addNewHost_pending http address mdns m r :
  addNewHost http address mdns m = Done r →
  m_PendingResolution r.2 = m_PendingResolution m.
Proof.
  unfold addNewHost. destruct (getServerInfo http address); [|by intros [= <-]].
  set (new := if mdns then _ else _). clearbody new.
  destruct (m_KnownHosts m !! QMap_key (uuid new)).
  - destruct (update _ _) as [u|]; cbn [obind]; [|done].
    intros [= <-]. by destruct u.1.
  - destruct (startPollingComputer _ _) as [m1|] eqn:Hs; cbn [obind]; [|done].
    intros [= <-]. cbn.
    unfold startPollingComputer in Hs. cbn in Hs.
    destruct (negb (m_Polling m)); [by injection Hs as <-|].
    destruct (m_PollThreads m !! QMap_key (uuid new)) as [t|].
    + destruct (isRunning t); cbn in Hs; [by injection Hs as <-|done].
    + by injection Hs as <-.
Qed.

Lemma removeOne_snoc p l : p ∉ l → removeOne p (l ++ [p]) = l.
Proof.
  induction l as [|x l IH]; intros Hp; cbn.
  - by rewrite bool_decide_eq_true_2.
  - apply not_elem_of_cons in Hp as [Hne Hp].
    rewrite bool_decide_eq_false_2 by done. by rewrite IH.
Qed.

(** X24: a discovered service is pending until it is resolved: after the
    [serviceAdded] handler and [handleMdnsServiceResolved] for the same
    service, the pending resolutions are as they were before. *)
Theorem discovery_resolved http (computer : MdnsPendingComputer)
    (address : QHostAddress) (m m' : ComputerManager) :
  computer ∉ m_PendingResolution m →
  handleMdnsServiceResolved http computer address (serviceAdded computer m)
    = Done m' →
  m_PendingResolution m' = m_PendingResolution m.
Proof.
  intros Hp. unfold handleMdnsServiceResolved.
  destruct (addNewHost _ _ _ _) as [r|] eqn:Ha; cbn [obind]; [|done].
  intros [= <-]. cbn [m_PendingResolution].
  rewrite (addNewHost_pending _ _ _ _ _ Ha). cbn. by apply removeOne_snoc.
Qed.

(** X25: a host added while polling is on is polled. For an answered query
    about a host the table does not hold yet, [addNewHost] returns true,
    files the host, registers a running worker under its uuid and notifies
    the client once. *)
Theorem addNewHost_new_host_polled http address mdns m info b m' :
  m_Polling m = true →
  getServerInfo http address = Some info →
  m_KnownHosts m !! QMap_key (getXmlString http info "uniqueid") = None →
  addNewHost http address mdns m = Done (b, m') →
  b = true ∧
  is_Some (m_KnownHosts m' !! QMap_key (getXmlString http info "uniqueid")) ∧
  (∃ t, m_PollThreads m' !! QMap_key (getXmlString http info "uniqueid") = Some t ∧
        thr_status t = Running) ∧
  notified m' = notified m ++ [getXmlString http info "uniqueid"].
Proof.
  intros Hp Hinfo Hnew. unfold addNewHost. rewrite Hinfo.
  set (new := if mdns then _ else _).
  assert (Hu : uuid new = getXmlString http info "uniqueid").
  { subst new. by destruct mdns. }
  rewrite Hu, Hnew. clearbody new.
  unfold startPollingComputer. cbn [m_Polling m_PollThreads]. rewrite Hp, Hu.
  cbn [negb].
  destruct (m_PollThreads m !! QMap_key (getXmlString http info "uniqueid"))
    as [t|] eqn:Ht.
  - unfold isRunning. destruct (decide (thr_status t = Running)) as [Hr|Hr].
    + rewrite bool_decide_eq_true_2 by done. cbn. intros [= <- <-]. cbn.
      rewrite lookup_insert_eq, Hu. repeat split; [by eexists | by exists t].
    + rewrite bool_decide_eq_false_2 by done. done.
  - cbn. intros [= <- <-]. cbn. rewrite !lookup_insert_eq, Hu.
    repeat split; [by eexists | by eexists].
Qed.

End Discovery.

(** ** The further properties, at the samples *)

Lemma update_again_changes_nothing_witness :
  ∃ r, @update NvApp_eqb_id den_pc den_pc_probe = Done r ∧
       @update NvApp_eqb_id r.2 den_pc_probe = Done (false, r.2).
Proof.
  apply (@update_again_changes_nothing NvApp_eqb_id NvApp_eqb_id_refl
           den_pc den_pc_probe).
  reflexivity.
Defined.

Lemma update_keeps_an_address_witness :
  ∃ r l', @update NvApp_eqb_id attic_pc attic_pc_found = Done r ∧
          uniqueAddresses r.2 = Done l'.
Proof.
  apply (@update_keeps_an_address NvApp_eqb_id attic_pc attic_pc_found).
  - reflexivity.
  - eexists. vm_compute. reflexivity.
Defined.

Lemma wake_completes_iff_witness :
  (∃ r, wake broadcast_only_network den_pc = Done r) ↔
  QByteArray_count (macAddress den_pc) = 6 ∧
  Exists nonEmptyText (candidateAddresses den_pc).
Proof.
  apply (wake_completes_iff broadcast_only_network den_pc).
  - vm_compute. discriminate.
  - reflexivity.
Defined.

Lemma wake_trace_shape_witness :
  (∃ l, uniqueAddresses den_pc = Done l ∧
        resolvedNames den_wake.2 = l ++ [QStr "255.255.255.255"]) ∧
  length (filter isBind den_wake.2) = length (resolvedAddresses den_wake.2) ∧
  length (filter isDatagram den_wake.2) = 5 * length (filter isBound den_wake.2).
Proof.
  apply (wake_trace_shape broadcast_only_network den_pc den_wake.1 den_wake.2).
  - vm_compute. discriminate.
  - reflexivity.
  - vm_compute. reflexivity.
Defined.

Lemma wake_true_iff_accepted_witness :
  (den_wake.1 = true ↔ Exists accepted den_wake.2) ∧
  ∀ p dest port ret, DatagramWritten p dest port ret ∈ den_wake.2 →
                     port ∈ WOL_PORTS.
Proof.
  apply (wake_true_iff_accepted broadcast_only_network den_pc
           den_wake.1 den_wake.2).
  - vm_compute. discriminate.
  - vm_compute. reflexivity.
Defined.

Lemma den_polling_reachable : @reachable NvApp_eqb_id digits_toInt den_polling.
Proof.
  apply (reach_startPolling (manager_of [den_pc] ∅) den_polling
           (reach_constructed [den_pc] ∅)).
  vm_compute. reflexivity.
Qed.

Lemma reachable_invariant_witness :
  table_consistent den_polling ∧ workers_sound den_polling.
Proof.
  apply (@reachable_invariant NvApp_eqb_id digits_toInt den_polling).
  apply den_polling_reachable.
Defined.

Lemma reachable_no_assertion_witness :
  (∃ m', startPolling den_polling = Done m') ∧
  (∀ computer, ∃ m', deleteHost computer den_polling = Done m') ∧
  (∀ http address mdns,
     ∃ r, @addNewHost NvApp_eqb_id digits_toInt http address mdns den_polling
          = Done r) ∧
  (∀ http computer address,
     ∃ m', @handleMdnsServiceResolved NvApp_eqb_id digits_toInt http computer
             address den_polling = Done m').
Proof.
  apply (@reachable_no_assertion NvApp_eqb_id digits_toInt den_polling).
  apply den_polling_reachable.
Defined.

Lemma startPolling_starts_workers_witness :
  ∃ m', startPolling (manager_of [den_pc; attic_pc] ∅) = Done m' ∧
        m_Polling m' = true ∧
        m_MdnsBrowser m' = Some "_nvstream._tcp.local."%string ∧
        m_KnownHosts m' = m_KnownHosts (manager_of [den_pc; attic_pc] ∅) ∧
        m_PendingResolution m' = [] ∧
        saved m' = ∅ ∧ notified m' = [] ∧ detached m' = [] ∧
        m_PollThreads m' =
          (λ h, mkPcMonitorThread (uuid h) Running false false)
            <$> m_KnownHosts (manager_of [den_pc; attic_pc] ∅).
Proof.
  apply (startPolling_starts_workers (manager_of [den_pc; attic_pc] ∅)).
  - reflexivity.
  - reflexivity.
  - apply manager_of_consistent.
Defined.

Lemma startPolling_then_stop_witness :
  ∃ m1, startPolling (manager_of [den_pc; attic_pc] ∅) = Done m1 ∧
    let m2 := stopPollingAsync m1 in
    m_Polling m2 = false ∧ m_MdnsBrowser m2 = None ∧ m_PollThreads m2 = ∅ ∧
    m_PendingResolution m2 = [] ∧
    m_KnownHosts m2 = m_KnownHosts (manager_of [den_pc; attic_pc] ∅) ∧
    saved m2 = ∅ ∧ notified m2 = [] ∧
    detached m2 =
      [] ++
      ((λ h, mkPcMonitorThread (uuid h) Running true true)
         <$> QMap_values (m_KnownHosts (manager_of [den_pc; attic_pc] ∅))).
Proof.
  apply (startPolling_then_stop (manager_of [den_pc; attic_pc] ∅)).
  - reflexivity.
  - reflexivity.
  - apply manager_of_consistent.
Defined.

Lemma getComputers_lists_table_witness :
  let m := manager_of [attic_pc; den_pc] ∅ in
  (∀ h, h ∈ getComputers m ↔ m_KnownHosts m !! QMap_key (uuid h) = Some h) ∧
  length (getComputers m) = size (m_KnownHosts m) ∧
  NoDup (QMap_key ∘ uuid <$> getComputers m) ∧
  Sorted QMap_key_le (QMap_key ∘ uuid <$> getComputers m).
Proof.
  apply (getComputers_lists_table (manager_of [attic_pc; den_pc] ∅)).
  apply manager_of_consistent.
Defined.

(** The hosts come out by key, not in the order they were added. *)
Example getComputers_by_key :
  getComputers (manager_of [attic_pc; den_pc] ∅) = [den_pc; attic_pc].
Proof. vm_compute. reflexivity. Qed.

Lemma addNewHost_frame_witness :
  m_Polling den_discovered = m_Polling den_saved ∧
  m_MdnsBrowser den_discovered = m_MdnsBrowser den_saved ∧
  m_PendingResolution den_discovered = m_PendingResolution den_saved ∧
  detached den_discovered = detached den_saved ∧
  (∃ key, ∀ k, k ≠ key →
     m_KnownHosts den_discovered !! k = m_KnownHosts den_saved !! k ∧
     m_PollThreads den_discovered !! k = m_PollThreads den_saved !! k) ∧
  (∀ k, is_Some (m_KnownHosts den_saved !! k) →
        is_Some (m_KnownHosts den_discovered !! k)) ∧
  (∀ k t, m_PollThreads den_saved !! k = Some t →
          m_PollThreads den_discovered !! k = Some t) ∧
  (notified den_discovered = notified den_saved ∧
   saved den_discovered = saved den_saved ∨
   ∃ h, m_KnownHosts den_discovered !! QMap_key (uuid h) = Some h ∧
        notified den_discovered = notified den_saved ++ [uuid h]).
Proof.
  apply (@addNewHost_frame NvApp_eqb_id digits_toInt den_http
           (QStr "192.0.2.10") true den_saved true den_discovered).
  vm_compute. reflexivity.
Defined.

Lemma addNewHost_files_host_witness :
  ∃ h, m_KnownHosts den_discovered
         !! QMap_key (getXmlString den_http
                        (QStr "<root status_code=200>...</root>") "uniqueid")
       = Some h ∧
       state h = CS_ONLINE ∧
       sameText (activeAddress h) (QStr "192.0.2.10") ∧
       (nonEmptyText (QStr "192.0.2.10") →
          sameText (localAddress h) (QStr "192.0.2.10") ∧
          ∃ l, uniqueAddresses h = Done (activeAddress h :: l)) ∧
       (true = true →
          ∀ e, m_KnownHosts den_saved
                 !! QMap_key (getXmlString den_http
                                (QStr "<root status_code=200>...</root>")
                                "uniqueid") = Some e →
               manualAddress h = manualAddress e).
Proof.
  apply (@addNewHost_files_host NvApp_eqb_id digits_toInt den_http
           (QStr "192.0.2.10") true den_saved
           (QStr "<root status_code=200>...</root>") true den_discovered).
  - reflexivity.
  - vm_compute. reflexivity.
Defined.

Lemma addNewHost_again_witness :
  @addNewHost NvApp_eqb_id digits_toInt den_http (QStr "192.0.2.10") true
    den_discovered = Done (true, den_discovered).
Proof.
  apply (@addNewHost_again NvApp_eqb_id digits_toInt NvApp_eqb_id_refl den_http
           (QStr "192.0.2.10") true den_saved true den_discovered).
  vm_compute. reflexivity.
Defined.

Lemma saveHosts_writes_witness :
  let P := [SER_HOSTS; pretty 1] in
  let st := saved (saveHosts den_saved) in
  st !! [SER_HOSTS; "size"]
    = Some (VInt (Z.of_nat (length (getComputers den_saved)))) ∧
  st !! (P ++ [SER_NAME]) = Some (VString (name den_pc)) ∧
  st !! (P ++ [SER_UUID]) = Some (VString (uuid den_pc)) ∧
  st !! (P ++ [SER_MAC]) = Some (VBytes (macAddress den_pc)) ∧
  st !! (P ++ [SER_CODECSUPP]) = Some (VInt (serverCodecModeSupport den_pc)) ∧
  st !! (P ++ [SER_LOCALADDR]) = Some (VString (localAddress den_pc)) ∧
  st !! (P ++ [SER_REMOTEADDR]) = Some (VString (remoteAddress den_pc)) ∧
  st !! (P ++ [SER_MANUALADDR]) = Some (VString (manualAddress den_pc)) ∧
  (appList den_pc = [] → ∀ k, savedAppKey P k → st !! k = None) ∧
  (appList den_pc ≠ [] →
     st !! (P ++ [SER_APPLIST; "size"])
       = Some (VInt (Z.of_nat (length (appList den_pc)))) ∧
     ∀ j a, appList den_pc !! j = Some a →
       st !! (P ++ [SER_APPLIST; pretty (S j); SER_APPNAME])
         = Some (VString (app_name a)) ∧
       st !! (P ++ [SER_APPLIST; pretty (S j); SER_APPID])
         = Some (VInt (app_id a)) ∧
       st !! (P ++ [SER_APPLIST; pretty (S j); SER_APPHDR])
         = Some (VBool (app_hdrSupported a))).
Proof.
  apply (saveHosts_writes den_saved 0 den_pc).
  vm_compute. reflexivity.
Defined.

Lemma saved_hosts_read_back_witness :
  match m_KnownHosts den_saved !! "X" with
  | Some h =>
      ∃ r, m_KnownHosts (@ComputerManager_new file_backend
                           (saved (saveHosts den_saved))) !! "X"
           = Some r ∧ read_back h r
  | None =>
      m_KnownHosts (@ComputerManager_new file_backend
                      (saved (saveHosts den_saved))) !! "X" = None
  end.
Proof.
  apply (@saved_hosts_read_back file_backend file_backend_reads den_saved).
  apply handleComputerStateChanged_consistent, manager_of_consistent.
Defined.

Lemma deleteHost_getComputers_witness :
  den_pc ∈ getComputers den_deleted ↔
  den_pc ∈ getComputers den_saved ∧
  QMap_key (uuid den_pc) ≠ QMap_key (uuid den_pc).
Proof.
  apply (deleteHost_getComputers den_pc den_saved den_deleted).
  - apply handleComputerStateChanged_consistent, manager_of_consistent.
  - vm_compute. reflexivity.
Defined.

Lemma deleted_host_returns_witness :
  m_KnownHosts den_deleted !! QMap_key (uuid den_pc) = None ∧
  ∃ r, m_KnownHosts (@ComputerManager_new file_backend (saved den_deleted))
         !! QMap_key (uuid den_pc) = Some r ∧
       read_back den_pc r.
Proof.
  apply (@deleted_host_returns file_backend file_backend_reads
           den_saved den_deleted den_pc).
  - apply handleComputerStateChanged_consistent, manager_of_consistent.
  - vm_compute. reflexivity.
  - vm_compute. reflexivity.
Defined.

Lemma discovery_resolved_witness :
  m_PendingResolution den_resolved = m_PendingResolution den_polling.
Proof.
  apply (@discovery_resolved NvApp_eqb_id digits_toInt den_http den_service
           den_address den_polling den_resolved).
  - vm_compute. apply not_elem_of_nil.
  - vm_compute. reflexivity.
Defined.

Lemma addNewHost_new_host_polled_witness :
  true = true ∧
  is_Some (m_KnownHosts attic_den_polling
             !! QMap_key (getXmlString den_http
                            (QStr "<root status_code=200>...</root>") "uniqueid")) ∧
  (∃ t, m_PollThreads attic_den_polling
          !! QMap_key (getXmlString den_http
                         (QStr "<root status_code=200>...</root>") "uniqueid")
        = Some t ∧ thr_status t = Running) ∧
  notified attic_den_polling =
    notified attic_polling
    ++ [getXmlString den_http (QStr "<root status_code=200>...</root>") "uniqueid"].
Proof.
  apply (@addNewHost_new_host_polled NvApp_eqb_id digits_toInt den_http
           (QStr "192.0.2.10") false attic_polling
           (QStr "<root status_code=200>...</root>") true attic_den_polling).
  - reflexivity.
  - reflexivity.
  - vm_compute. reflexivity.
  - vm_compute. reflexivity.
Defined.
